(** * Quadratic knapsack: the three DP engines and the profit validator

    A shallow embedding of [src/algorithms.py] ([classical_dp_qkp],
    [dp_heuristic_algo2], [dp_heuristic_algo3]) and of
    [compute_profit_and_items] from [src/utils.py].

    Modelling choices.
    - Weights, capacities and item indices are natural numbers: the engines'
      contract takes non-negative integer weights and a non-negative
      capacity.  The profit matrix is a list of lists of Python integers
      ([Z]), as in [src/tests.py].
    - A Python list is a [list]; reading [l[i]] out of range raises
      [IndexError], which the model makes explicit in the [result] type.
    - [classical_dp_qkp] and the validator compute with Python integers, which
      are exact; [classical_dp_qkp] converts its result with [float(...)].
      The two heuristics keep [dp] in [numpy] float64 arrays: every sum is
      rounded to float64.  Every float that occurs is [-inf], [+inf] or an
      integer-valued double; [float64] holds these values, [round64] is the
      rounding of an exact integer to the nearest double (ties to even,
      overflow to an infinity), and converting an integer beyond the float
      range raises [OverflowError].
    - A Python [set] of item indices is a duplicate-free [list nat].  The
      order in which a set is iterated is not specified by the language: the
      heuristics, whose rounded sums depend on it, take it as a parameter
      [order], which gives for the set stored in a cell the sequence in
      which it is iterated; the theorems hold for every such [order].  The
      exact engine sums integers, which does not depend on the order.
      [combinations] in the validator depends on it: the validator takes the
      iteration sequence of its set.
    - The [dp] table and the table of witness sets always have the same
      shape and are written together, so a table cell pairs the two. *)

From Stdlib Require Import ZArith Lia.
From stdpp Require Import base numbers list.

Open Scope Z_scope.

(** ** Python exceptions as an error monad *)

Inductive error : Type := IndexError | ValueError | OverflowError.

Inductive result (A : Type) : Type :=
  | Ok (a : A)
  | Raise (e : error).

Arguments Ok {A} a.
Arguments Raise {A} e.

Definition bind {A B : Type} (m : result A) (f : A -> result B) : result B :=
  match m with
  | Ok a => f a
  | Raise e => Raise e
  end.

Notation "x <- m ;; k" := (bind m (fun x => k))
  (at level 20, m at level 99, k at level 200, only parsing).

(** [l[i]] *)
Definition at_index {A : Type} (l : list A) (i : nat) : result A :=
  match l !! i with
  | Some x => Ok x
  | None => Raise IndexError
  end.

(** [for x in xs: s = body(s, x)] *)
Fixpoint for_each {St X : Type} (body : St -> X -> result St) (xs : list X) (s : St)
  : result St :=
  match xs with
  | [] => Ok s
  | x :: xs' => s' <- body s x ;; for_each body xs' s'
  end.

(** [range(a, b)] *)
Definition range (a b : nat) : list nat := seq a (b - a).

(** [range(hi, lo - 1, -1)]: [hi, hi-1, ..., lo] *)
Definition range_down (hi lo : nat) : list nat := reverse (seq lo (S hi - lo)).

(** ** Sets of item indices *)

Abbreviation pyset := (list nat) (only parsing).

(** [s.add(x)] (on a copy) *)
Definition set_add (x : nat) (s : pyset) : pyset :=
  if decide (x ∈ s) then s else s ++ [x].

(** the order in which the set stored in a cell is iterated: [order k r s] is
    the iteration sequence of the set [s] held by the cell at item count [k]
    and capacity [r] *)
Definition valid_order (order : nat → nat → list nat → list nat) : Prop :=
  ∀ k r s, order k r s ≡ₚ s.

(** one such order: every set is iterated in the order of insertion *)
Definition insertion_order (k r : nat) (s : list nat) : list nat := s.

(** another one: every set is iterated from the last item inserted to the
    first *)
Definition reverse_order (k r : nat) (s : list nat) : list nat := reverse s.

(** ** Instances *)

(** [profits[i][j]] *)
Definition pget (profits : list (list Z)) (i j : nat) : result Z :=
  row <- at_index profits i ;; at_index row j.

(** [acc += profits[i][j]] for every [j] of [s], on Python integers *)
Definition add_interactions (profits : list (list Z)) (i : nat) (s : pyset) (acc : Z)
  : result Z :=
  for_each (fun acc j => v <- pget profits i j ;; Ok (acc + v)) s acc.

(** ** float64 *)

(** the doubles that occur: the infinities and the integer-valued doubles *)
Inductive float64 : Type := NInf | Finite (z : Z) | PInf.

#[global] Instance float64_eq_dec : EqDecision float64.
Proof. solve_decision. Defined.

(** the largest double, [(2^53 - 1) * 2^971] *)
Definition max_finite : Z := (2 ^ 53 - 1) * 2 ^ 971.

(** a natural number rounded to 53 significant bits, to nearest, ties to
    even *)
Definition round_nearest_even (m : Z) : Z :=
  let e := Z.log2 m - 52 in
  if e <=? 0 then m
  else
    let q := Z.shiftr m e in
    let rest := m - Z.shiftl q e in
    let half := Z.shiftl 1 (e - 1) in
    let up := (half <? rest) || ((rest =? half) && Z.odd q) in
    Z.shiftl (if up then q + 1 else q) e.

(** the double nearest to the integer [z] *)
Definition round64 (z : Z) : float64 :=
  let m := round_nearest_even (Z.abs z) in
  if max_finite <? m then (if z <? 0 then NInf else PInf)
  else Finite (Z.sgn z * m).

(** the conversion of a Python integer to a double, as in [float(z)] and in
    the sum of a double and a Python integer *)
Definition to_float (z : Z) : result Z :=
  match round64 z with
  | Finite f => Ok f
  | _ => Raise OverflowError
  end.

(** [a + y] for a double [a] and a finite double [y] *)
Definition fadd (a : float64) (y : Z) : float64 :=
  match a with
  | Finite x => round64 (x + y)
  | _ => a
  end.

(** [a < b] *)
Definition flt (a b : float64) : bool :=
  match a, b with
  | NInf, NInf => false
  | NInf, _ => true
  | Finite x, Finite y => bool_decide (x < y)
  | Finite _, PInf => true
  | Finite _, NInf => false
  | PInf, _ => false
  end.

(** [np.max(l)] *)
Definition np_max (l : list float64) : result float64 :=
  match l with
  | [] => Raise ValueError
  | x :: l' => Ok (fold_left (fun m y => if flt m y then y else m) l' x)
  end.

(** the scan of [np.argmax]: the best index and value so far, replaced
    only by a strictly greater entry, so that the first maximum is kept *)
Fixpoint argmax_scan (best_i : nat) (best : float64) (i : nat) (l : list float64)
  : nat :=
  match l with
  | [] => best_i
  | x :: l' =>
      if flt best x then argmax_scan i x (S i) l'
      else argmax_scan best_i best (S i) l'
  end.

(** [np.argmax(l)] *)
Definition np_argmax (l : list float64) : result nat :=
  match l with
  | [] => Raise ValueError
  | x :: l' => Ok (argmax_scan 0%nat x 1%nat l')
  end.

(** the update test of both heuristics:
    [current_profit > dp_cur or
     (current_profit == dp_cur and len_prev + 1 > len_cur)] *)
Definition updates (current_profit : float64) (len_prev : nat)
    (cur : float64 * pyset) : bool :=
  flt cur.1 current_profit
  || (bool_decide (current_profit = cur.1)
      && bool_decide (length cur.2 < len_prev + 1)%nat).

(** the include candidate of both heuristics, for item [i] on the state
    [prev]: [prev_profit + profits[i][i]], then [+= profits[i][j]] for every
    [j] of the witness, iterated as [iter] says *)
Definition include_candidate (iter : list nat → list nat) (profits : list (list Z))
    (i : nat) (prev : float64 * pyset) : result float64 :=
  self <- pget profits i i ;;
  self <- to_float self ;;
  for_each (fun acc j => v <- pget profits i j ;; v <- to_float v ;; Ok (fadd acc v))
    (iter prev.2) (fadd prev.1 self).

(** ** Tables *)

Abbreviation table V := (list (list (V * pyset))) (only parsing).

(** [[[v] * (capacity + 1) for _ in range(n + 1)]] with empty witness sets *)
Definition full {V : Type} (rows cols : nat) (v : V) : table V :=
  replicate rows (replicate cols (v, [])).

Definition tget {V : Type} (t : table V) (k r : nat) : result (V * pyset) :=
  row <- at_index t k ;; at_index row r.

Definition tset {V : Type} (t : table V) (k r : nat) (c : V * pyset)
  : result (table V) :=
  row <- at_index t k ;;
  _ <- at_index row r ;;
  Ok (<[k := <[r := c]> row]> t).

(** ** The exact engine, [classical_dp_qkp] *)

Module Classical.

(** the body of the two nested loops, at item [k] and capacity [r] *)
Definition step (weights : list nat) (profits : list (list Z)) (k : nat)
    (t : table Z) (r : nat) : result (table Z) :=
  excl <- tget t (k - 1) r ;;
  t <- tset t k r excl ;;
  w <- at_index weights (k - 1) ;;
  if decide (w ≤ r)%nat then
    let prev_r := (r - w)%nat in
    prev <- tget t (k - 1) prev_r ;;
    self <- pget profits (k - 1) (k - 1) ;;
    profit_with_k <- add_interactions profits (k - 1) prev.2 (prev.1 + self) ;;
    cur <- tget t k r ;;
    if decide (profit_with_k > cur.1) then
      tset t k r (profit_with_k, set_add (k - 1) prev.2)
    else Ok t
  else Ok t.

(** [for r in range(capacity + 1)] *)
Definition fill_row (weights : list nat) (profits : list (list Z)) (capacity : nat)
    (t : table Z) (k : nat) : result (table Z) :=
  for_each (step weights profits k) (range 0 (capacity + 1)) t.

(** the table after the outer loop has run for [k = 1 .. upto] *)
Definition fill_upto (weights : list nat) (profits : list (list Z)) (capacity : nat)
    (upto : nat) : result (table Z) :=
  for_each (fill_row weights profits capacity) (range 1 (upto + 1))
    (full (length weights + 1) (capacity + 1) 0).

Definition fill (weights : list nat) (profits : list (list Z)) (capacity : nat)
  : result (table Z) :=
  fill_upto weights profits capacity (length weights).

(** [max(l)] *)
Definition py_max (l : list Z) : result Z :=
  match l with
  | [] => Raise ValueError
  | x :: l' => Ok (fold_left Z.max l' x)
  end.

(** [l.index(x)] *)
Fixpoint py_index (x : Z) (l : list Z) : result nat :=
  match l with
  | [] => Raise ValueError
  | y :: l' => if decide (y = x) then Ok 0%nat else i <- py_index x l' ;; Ok (S i)
  end.

Definition classical_dp_qkp (weights : list nat) (profits : list (list Z))
    (capacity : nat) : result (pyset * float64) :=
  let n := length weights in
  t <- fill weights profits capacity ;;
  last <- at_index t n ;;
  max_profit <- py_max last.*1 ;;
  max_capacity <- py_index max_profit last.*1 ;;
  c <- tget t n max_capacity ;;
  f <- to_float max_profit ;;
  Ok (c.2, Finite f).

End Classical.

(** ** Heuristic engine A, [dp_heuristic_algo2] *)

Module HeuristicA.

Definition step (order : nat → nat → list nat → list nat) (weights : list nat)
    (profits : list (list Z)) (k : nat) (t : table float64) (r : nat)
  : result (table float64) :=
  excl <- tget t (k - 1) r ;;
  t <- tset t k r excl ;;
  w <- at_index weights (k - 1) ;;
  if decide (w ≤ r)%nat then
    let prev_r := (r - w)%nat in
    prev <- tget t (k - 1) prev_r ;;
    match prev.1 with
    | NInf => Ok t
    | _ =>
        current_profit <-
          include_candidate (order (k - 1)%nat prev_r) profits (k - 1) prev ;;
        cur <- tget t k r ;;
        if updates current_profit (length prev.2) cur then
          tset t k r (current_profit, set_add (k - 1) prev.2)
        else Ok t
    end
  else Ok t.

Definition fill_row (order : nat → nat → list nat → list nat) (weights : list nat)
    (profits : list (list Z)) (capacity : nat) (t : table float64) (k : nat)
  : result (table float64) :=
  for_each (step order weights profits k) (range 0 (capacity + 1)) t.

(** [np.full((n + 1, capacity + 1), -np.inf)], then [dp[0][0] = 0] *)
Definition init (n capacity : nat) : result (table float64) :=
  tset (full (n + 1) (capacity + 1) NInf) 0 0 (Finite 0, []).

Definition fill_upto (order : nat → nat → list nat → list nat) (weights : list nat)
    (profits : list (list Z)) (capacity : nat) (upto : nat)
  : result (table float64) :=
  t <- init (length weights) capacity ;;
  for_each (fill_row order weights profits capacity) (range 1 (upto + 1)) t.

Definition fill (order : nat → nat → list nat → list nat) (weights : list nat)
    (profits : list (list Z)) (capacity : nat) : result (table float64) :=
  fill_upto order weights profits capacity (length weights).

Definition dp_heuristic_algo2 (order : nat → nat → list nat → list nat)
    (weights : list nat) (profits : list (list Z)) (capacity : nat)
  : result (pyset * float64) :=
  let n := length weights in
  t <- fill order weights profits capacity ;;
  last <- at_index t n ;;
  best_r <- np_argmax last.*1 ;;
  c <- tget t n best_r ;;
  Ok (c.2, c.1).

End HeuristicA.

(** ** Heuristic engine B, [dp_heuristic_algo3] *)

Module HeuristicB.

Definition rset (st : list (float64 * pyset)) (r : nat) (c : float64 * pyset)
  : result (list (float64 * pyset)) :=
  _ <- at_index st r ;; Ok (<[r := c]> st).

(** the body of the inner loop, at item [k] and capacity [r] *)
Definition step (order : nat → nat → list nat → list nat) (weights : list nat)
    (profits : list (list Z)) (k : nat) (st : list (float64 * pyset)) (r : nat)
  : result (list (float64 * pyset)) :=
  w <- at_index weights k ;;
  let prev_r := (r - w)%nat in
  prev <- at_index st prev_r ;;
  match prev.1 with
  | NInf => Ok st
  | _ =>
      current_profit <- include_candidate (order k prev_r) profits k prev ;;
      cur <- at_index st r ;;
      if updates current_profit (length prev.2) cur then
        rset st r (current_profit, set_add k prev.2)
      else Ok st
  end.

(** [for r in range(capacity, weights[k] - 1, -1)] *)
Definition pass (order : nat → nat → list nat → list nat) (weights : list nat)
    (profits : list (list Z)) (capacity : nat) (st : list (float64 * pyset))
    (k : nat) : result (list (float64 * pyset)) :=
  w <- at_index weights k ;;
  for_each (step order weights profits k) (range_down capacity w) st.

(** [np.full(capacity + 1, -np.inf)], then [dp[0] = 0] *)
Definition init (capacity : nat) : result (list (float64 * pyset)) :=
  rset (replicate (capacity + 1) (NInf, [])) 0 (Finite 0, []).

(** the arrays after the passes of the items [0 .. upto - 1] *)
Definition after (order : nat → nat → list nat → list nat) (weights : list nat)
    (profits : list (list Z)) (capacity : nat) (upto : nat)
  : result (list (float64 * pyset)) :=
  st <- init capacity ;;
  for_each (pass order weights profits capacity) (range 0 upto) st.

(** the arrays inside the pass of item [k], after its first [j] updates *)
Definition within (order : nat → nat → list nat → list nat) (weights : list nat)
    (profits : list (list Z)) (capacity : nat) (k j : nat)
  : result (list (float64 * pyset)) :=
  st <- after order weights profits capacity k ;;
  w <- at_index weights k ;;
  for_each (step order weights profits k) (take j (range_down capacity w)) st.

Definition dp_heuristic_algo3 (order : nat → nat → list nat → list nat)
    (weights : list nat) (profits : list (list Z)) (capacity : nat)
  : result (pyset * float64) :=
  let n := length weights in
  st <- after order weights profits capacity n ;;
  max_profit <- np_max st.*1 ;;
  best_r <- np_argmax st.*1 ;;
  c <- at_index st best_r ;;
  Ok (c.2, max_profit).

End HeuristicB.

(** ** The validator, [compute_profit_and_items] *)

(** [combinations(l, 2)] *)
Fixpoint combinations2 (l : list nat) : list (nat * nat) :=
  match l with
  | [] => []
  | x :: l' => map (pair x) l' ++ combinations2 l'
  end.

(** [selected_indices] is the iteration sequence of the candidate set (and of
    its copy [valid_selected_items]). *)
Definition compute_profit_and_items (weights : list nat) (profits : list (list Z))
    (capacity : nat) (selected_indices : pyset) : result (option Z * pyset) :=
  total_weight <-
    for_each (fun acc i => w <- at_index weights i ;; Ok (acc + w)%nat)
      selected_indices 0%nat ;;
  if decide (capacity < total_weight)%nat then Ok (None, [])
  else
    let valid_selected_items := selected_indices in
    total_profit <-
      for_each (fun acc i => v <- pget profits i i ;; Ok (acc + v))
        valid_selected_items 0 ;;
    total_profit <-
      for_each (fun acc ij => v <- pget profits ij.1 ij.2 ;; Ok (acc + v))
        (combinations2 valid_selected_items) total_profit ;;
    Ok (Some total_profit, valid_selected_items).

(** ** Instances, and the measures of a selection *)

(** an [n]×[n] profit matrix *)
Definition square (n : nat) (profits : list (list Z)) : Prop :=
  length profits = n ∧ Forall (λ row, length row = n) profits.

(** the entry [profits[i][j]] where it exists *)
Definition entry (profits : list (list Z)) (i j : nat) : Z :=
  match pget profits i j with
  | Ok v => v
  | Raise _ => 0
  end.

(** the entries of the leading [n]×[n] block can be read *)
Definition covers (n : nat) (profits : list (list Z)) : Prop :=
  ∀ i j, (i < n)%nat → (j < n)%nat → pget profits i j = Ok (entry profits i j).

Definition symmetric (n : nat) (profits : list (list Z)) : Prop :=
  ∀ i j, (i < n)%nat → (j < n)%nat → entry profits i j = entry profits j i.

Definition sumZ {A : Type} (f : A → Z) (l : list A) : Z :=
  foldr (λ x acc, f x + acc) 0 l.

(** the sum of the absolute values of row [i] of the block, and of the block *)
Definition rowmass (n : nat) (profits : list (list Z)) (i : nat) : Z :=
  sumZ (λ j, Z.abs (entry profits i j)) (seq 0 n).

Definition mass (n : nat) (profits : list (list Z)) : Z :=
  sumZ (rowmass n profits) (seq 0 n).

(** the profits on which float64 sums are exact: no sum of distinct entries
    of the block exceeds [2^53] in absolute value *)
Definition exact_range (n : nat) (profits : list (list Z)) : Prop :=
  mass n profits ≤ 2 ^ 53.

(** every entry of the block is within the float range *)
Definition convertible (n : nat) (profits : list (list Z)) : Prop :=
  ∀ i j, (i < n)%nat → (j < n)%nat → ∃ f, to_float (entry profits i j) = Ok f.

(** the total weight of a selection *)
Definition set_weight (weights : list nat) (s : pyset) : nat :=
  foldr (λ i acc, default 0 (weights !! i) + acc)%nat 0%nat s.

(** the profit the engines account for a selection: every self-profit, and
    for every pair of the selection the entry of the later item (the one of
    larger index) against the earlier one *)
Definition engine_profit (profits : list (list Z)) (s : pyset) : Z :=
  sumZ (λ i, entry profits i i
             + sumZ (entry profits i) (filter (λ j, j < i)%nat s)) s.

(** the profit the validator accounts for a selection iterated as [l] *)
Definition validator_profit (profits : list (list Z)) (l : pyset) : Z :=
  sumZ (λ i, entry profits i i) l
  + sumZ (λ ij, entry profits ij.1 ij.2) (combinations2 l).

(** ** The recurrences of the specification *)

(** the value of a state of the heuristics' recurrence: infeasible, or an
    exact profit *)
Inductive ext : Type := NegInf | Fin (z : Z).

#[global] Instance ext_eq_dec : EqDecision ext.
Proof. solve_decision. Defined.

(** [a < b] *)
Definition ext_ltb (a b : ext) : bool :=
  match a, b with
  | NegInf, NegInf => false
  | NegInf, Fin _ => true
  | Fin _, NegInf => false
  | Fin x, Fin y => bool_decide (x < y)
  end.

(** the tie-break rule of the heuristics: the candidate wins with a strictly
    larger profit, or with an equal profit and a larger witness *)
Definition overwrites (current_profit : Z) (len_prev : nat) (cur : ext * pyset)
  : bool :=
  match cur.1 with
  | NegInf => true
  | Fin d =>
      bool_decide (current_profit > d)
      || (bool_decide (current_profit = d)
          && bool_decide (length cur.2 < len_prev + 1)%nat)
  end.

Module Spec.

(** include-candidate profit:
    [dp[k-1][prev] + p[k-1][k-1] + Σ_{j ∈ witness[k-1][prev]} p[k-1][j]] *)
Definition candidate (profits : list (list Z)) (i : nat) (prev : Z) (s : pyset) : Z :=
  prev + entry profits i i + sumZ (entry profits i) s.

(** the exact engine's recurrence: [dp[0][r] = 0] with empty witness; the
    exclude candidate first, replaced by the include candidate only when that
    is strictly greater *)
Fixpoint exact_dp (weights : list nat) (profits : list (list Z)) (k r : nat)
  : Z * pyset :=
  match k with
  | O => (0, [])
  | S i =>
      let excl := exact_dp weights profits i r in
      match weights !! i with
      | Some w =>
          if decide (w ≤ r)%nat then
            let prev := exact_dp weights profits i (r - w) in
            let cand := candidate profits i prev.1 prev.2 in
            if decide (cand > excl.1) then (cand, set_add i prev.2) else excl
          else excl
      | None => excl
      end
  end.

(** the heuristics' recurrence: only [dp[0][0] = 0] is feasible initially, a
    transition from an infeasible state is skipped, and on equal profit the
    larger witness wins *)
Fixpoint heur_dp (weights : list nat) (profits : list (list Z)) (k r : nat)
  : ext * pyset :=
  match k with
  | O => (if decide (r = 0)%nat then Fin 0 else NegInf, [])
  | S i =>
      let excl := heur_dp weights profits i r in
      match weights !! i with
      | Some w =>
          if decide (w ≤ r)%nat then
            let prev := heur_dp weights profits i (r - w) in
            match prev.1 with
            | NegInf => excl
            | Fin d =>
                let cand := candidate profits i d prev.2 in
                if overwrites cand (length prev.2) excl
                then (Fin cand, set_add i prev.2) else excl
            end
          else excl
      | None => excl
      end
  end.

End Spec.

(** ** The heuristics' states, in float64 *)

(** a state of the specification's recurrence as the heuristics store it *)
Definition of_ext (a : ext) : float64 :=
  match a with
  | NegInf => NInf
  | Fin z => Finite z
  end.

Definition stored (c : ext * pyset) : float64 * pyset := (of_ext c.1, c.2).

Module Rounded.

(** the entry [profits[i][j]] as a double *)
Definition entry64 (profits : list (list Z)) (i j : nat) : Z :=
  match round64 (entry profits i j) with
  | Finite f => f
  | _ => 0
  end.

(** the include candidate, every sum rounded *)
Definition candidate (iter : list nat → list nat) (profits : list (list Z))
    (i : nat) (d : float64) (s : pyset) : float64 :=
  fold_left (λ acc j, fadd acc (entry64 profits i j)) (iter s)
    (fadd d (entry64 profits i i)).

(** the cells both heuristics compute, as the pure function of the item count
    and the capacity *)
Fixpoint heur_dp (order : nat → nat → list nat → list nat) (weights : list nat)
    (profits : list (list Z)) (k r : nat) : float64 * pyset :=
  match k with
  | O => (if decide (r = 0)%nat then Finite 0 else NInf, [])
  | S i =>
      let excl := heur_dp order weights profits i r in
      match weights !! i with
      | Some w =>
          if decide (w ≤ r)%nat then
            let prev := heur_dp order weights profits i (r - w) in
            match prev.1 with
            | NInf => excl
            | _ =>
                let cand := candidate (order i (r - w)%nat) profits i prev.1 prev.2 in
                if updates cand (length prev.2) excl
                then (cand, set_add i prev.2) else excl
            end
          else excl
      | None => excl
      end
  end.

End Rounded.

(** ** Invariants *)

(** what a cell at item count [k] and capacity [r] records: a selection among
    the first [k] items, within weight [r], and its profit *)
Definition sound_witness (weights : list nat) (profits : list (list Z))
    (k r : nat) (v : Z) (s : pyset) : Prop :=
  Forall (λ i, i < k)%nat s ∧ NoDup s ∧ (set_weight weights s ≤ r)%nat
  ∧ v = engine_profit profits s.

(** an array of [cols] cells holding the cells of a recurrence *)
Definition row_of {V : Type} (cols : nat) (cellf : nat → V * pyset)
    (st : list (V * pyset)) : Prop :=
  length st = cols ∧ ∀ r, (r < cols)%nat → st !! r = Some (cellf r).

(** inside the pass of item [k] of the rolling engine, after [j] updates: the
    cells from [capacity - j + 1] upwards are those of item count [k + 1], the
    cells below are still those of item count [k] *)
Definition mid_pass (order : nat → nat → list nat → list nat) (weights : list nat)
    (profits : list (list Z)) (capacity : nat) (k j : nat)
    (st : list (float64 * pyset)) : Prop :=
  row_of (capacity + 1)
    (λ r, if decide (capacity < r + j)%nat
          then Rounded.heur_dp order weights profits (S k) r
          else Rounded.heur_dp order weights profits k r) st.

(** the cell the heuristics return: the first maximum of the last row *)
Definition best64 (cellf : nat → float64 * pyset) (capacity : nat) (r : nat) : Prop :=
  (r ≤ capacity)%nat
  ∧ (∀ r', (r' ≤ capacity)%nat → flt (cellf r).1 (cellf r').1 = false)
  ∧ (∀ r', (r' < r)%nat → flt (cellf r').1 (cellf r).1 = true).

Definition best (weights : list nat) (profits : list (list Z)) (capacity : nat)
    (r : nat) : Prop :=
  (r ≤ capacity)%nat
  ∧ (∀ r', (r' ≤ capacity)%nat →
       ext_ltb (Spec.heur_dp weights profits (length weights) r).1
         (Spec.heur_dp weights profits (length weights) r').1 = false)
  ∧ (∀ r', (r' < r)%nat →
       ext_ltb (Spec.heur_dp weights profits (length weights) r').1
         (Spec.heur_dp weights profits (length weights) r).1 = true).

(** the validator accepts the selection [s] with profit [v], however its
    set is iterated *)
Definition validated (weights : list nat) (profits : list (list Z)) (capacity : nat)
    (s : pyset) (v : Z) : Prop :=
  (set_weight weights s ≤ capacity)%nat
  ∧ ∀ l, l ≡ₚ s →
         compute_profit_and_items weights profits capacity l = Ok (Some v, l).

(** a table of [rows] rows of [cols] cells *)
Definition shape {V : Type} (rows cols : nat) (t : table V) : Prop :=
  length t = rows ∧ ∀ k row, t !! k = Some row → length row = cols.

(** the rows [0 .. upto] of the table hold the cells of a recurrence *)
Definition filled {V : Type} (rows cols : nat) (cellf : nat → nat → V * pyset)
    (upto : nat) (t : table V) : Prop :=
  shape rows cols t
  ∧ ∀ k r, (k ≤ upto)%nat → (r < cols)%nat → tget t k r = Ok (cellf k r).

(** every witness of a table, of an array, names items below [n] only *)
Definition table_below {V : Type} (n : nat) (t : table V) : Prop :=
  ∀ k r c, tget t k r = Ok c → Forall (λ j, j < n)%nat c.2.

Definition array_below {V : Type} (n : nat) (st : list (V * pyset)) : Prop :=
  ∀ r c, st !! r = Some c → Forall (λ j, j < n)%nat c.2.

(** a profit matrix without interactions (the linear knapsack) *)
Definition diagonal (n : nat) (profits : list (list Z)) : Prop :=
  ∀ i j, (i < n)%nat → (j < n)%nat → i ≠ j → entry profits i j = 0.

(** what a heuristic cell at capacity [r] holds: a feasible cell has a witness
    of total weight exactly [r], an infeasible one has no witness *)
Definition exact_cell (weights : list nat) (r : nat) (c : float64 * pyset) : Prop :=
  match c.1 with
  | NInf => c.2 = []
  | _ => set_weight weights c.2 = r
  end.

(** the outcome of a call: a result with the property [P], or an exception
    that [Q] explains *)
Definition outcome {A : Type} (P : A → Prop) (Q : Prop) (m : result A) : Prop :=
  match m with
  | Ok a => P a
  | Raise _ => Q
  end.

(** an order in which the sets of at most one item, which have one iteration
    sequence only, are spelled out *)
Definition small_order (order : nat → nat → list nat → list nat) (k r : nat)
    (s : list nat) : list nat :=
  match s with
  | [] => []
  | [x] => [x]
  | _ => order k r s
  end.

(** ** Instances of [src/tests.py] and others *)

(** the first test case of [src/tests.py] *)
Definition scenario1_weights : list nat := [3; 4; 5]%nat.
Definition scenario1_profits : list (list Z) := [[10; 2; 3]; [2; 5; 4]; [3; 4; 7]].

(** an instance with a tie: items 1 and 2 together are worth what item 0 is *)
Definition tie_weights : list nat := [2; 1; 1]%nat.
Definition tie_profits : list (list Z) := [[2; 0; 0]; [0; 1; 0]; [0; 0; 1]].

(** ** The scenarios of [src/tests.py] *)

Example classical_scenario1 :
  Classical.classical_dp_qkp [3; 4; 5]%nat [[10; 2; 3]; [2; 5; 4]; [3; 4; 7]] 7
  = Ok ([0; 1]%nat, Finite 17).
Proof. vm_compute. reflexivity. Qed.

Example algo2_scenario1 :
  HeuristicA.dp_heuristic_algo2 insertion_order
    [3; 4; 5]%nat [[10; 2; 3]; [2; 5; 4]; [3; 4; 7]] 7
  = Ok ([0; 1]%nat, Finite 17).
Proof. vm_compute. reflexivity. Qed.

Example algo3_scenario1 :
  HeuristicB.dp_heuristic_algo3 insertion_order
    [3; 4; 5]%nat [[10; 2; 3]; [2; 5; 4]; [3; 4; 7]] 7
  = Ok ([0; 1]%nat, Finite 17).
Proof. vm_compute. reflexivity. Qed.

Example validator_scenario1 :
  compute_profit_and_items [3; 4; 5]%nat [[10; 2; 3]; [2; 5; 4]; [3; 4; 7]] 7
    [0; 1]%nat
  = Ok (Some 17, [0; 1]%nat).
Proof. vm_compute. reflexivity. Qed.

Example scenario2 :
  let weights := [1; 1; 1; 1; 1]%nat in
  let profits :=
    [[1; 2; 3; 4; 5]; [2; 6; 7; 8; 9]; [3; 7; 12; 13; 14]; [4; 8; 13; 15; 16];
     [5; 9; 14; 16; 18]] in
  Classical.classical_dp_qkp weights profits 3 = Ok ([2; 3; 4]%nat, Finite 88)
  /\ HeuristicA.dp_heuristic_algo2 insertion_order weights profits 3
     = Ok ([2; 3; 4]%nat, Finite 88)
  /\ HeuristicB.dp_heuristic_algo3 insertion_order weights profits 3
     = Ok ([2; 3; 4]%nat, Finite 88).
Proof. vm_compute. auto. Qed.

(** ** float64 at work *)

Example round64_ties_to_even :
  round64 (2 ^ 53 + 1) = Finite (2 ^ 53)
  ∧ round64 (2 ^ 53 + 3) = Finite (2 ^ 53 + 4)
  ∧ round64 (- (2 ^ 53 + 1)) = Finite (- 2 ^ 53)
  ∧ round64 (max_finite + 2 ^ 970) = PInf
  ∧ round64 (max_finite + 2 ^ 970 - 1) = Finite max_finite.
Proof. vm_compute. auto. Qed.

Example to_float_overflow : to_float (10 ^ 400) = Raise OverflowError.
Proof. vm_compute. reflexivity. Qed.

(** a rounded sum depends on the order of its terms: 1 + 1 + 2^53 is
    2^53 + 2 from left to right and 2^53 from right to left, and so is what
    the heuristics return *)
Example iteration_order_matters :
  let weights := [1; 1; 1]%nat in
  let profits := [[1; 0; 0]; [0; 0; 0]; [1; 2 ^ 53; 0]] in
  HeuristicA.dp_heuristic_algo2 insertion_order weights profits 3
  = Ok ([0; 1; 2]%nat, Finite (2 ^ 53 + 2))
  ∧ HeuristicA.dp_heuristic_algo2 reverse_order weights profits 3
    = Ok ([0; 1; 2]%nat, Finite (2 ^ 53))
  ∧ HeuristicB.dp_heuristic_algo3 insertion_order weights profits 3
    = Ok ([0; 1; 2]%nat, Finite (2 ^ 53 + 2))
  ∧ HeuristicB.dp_heuristic_algo3 reverse_order weights profits 3
    = Ok ([0; 1; 2]%nat, Finite (2 ^ 53)).
Proof. vm_compute. auto. Qed.

(** a sum that overflows to [-inf] ties with the [-inf] of an infeasible
    cell, and the cell takes the larger witness *)
Example overflow_to_minus_infinity :
  let weights := [1; 1]%nat in
  let profits := [[0; 0]; [- 17 * 10 ^ 307; - 17 * 10 ^ 307]] in
  HeuristicA.fill insertion_order weights profits 2
  = Ok [[(Finite 0, []); (NInf, []); (NInf, [])];
        [(Finite 0, []); (Finite 0, [0%nat]); (NInf, [])];
        [(Finite 0, []); (Finite 0, [0%nat]); (NInf, [0; 1]%nat)]]
  ∧ HeuristicB.after insertion_order weights profits 2 2
    = Ok [(Finite 0, []); (Finite 0, [0%nat]); (NInf, [0; 1]%nat)].
Proof. vm_compute. auto. Qed.
(** ** The error monad and the loops *)

Lemma bind_ok {A B : Type} (m : result A) (f : A → result B) (b : B) :
  bind m f = Ok b → ∃ a, m = Ok a ∧ f a = Ok b.
Proof. destruct m as [a|e]; simpl; [eauto | discriminate]. Qed.

Lemma at_index_ok {A : Type} (l : list A) (i : nat) (x : A) :
  at_index l i = Ok x ↔ l !! i = Some x.
Proof.
  unfold at_index. destruct (l !! i); split; intros H; congruence.
Qed.

Lemma at_index_lt {A : Type} (l : list A) (i : nat) :
  (i < length l)%nat → ∃ x, at_index l i = Ok x ∧ l !! i = Some x.
Proof.
  intros Hi. destruct (lookup_lt_is_Some_2 l i Hi) as [x Hx].
  exists x. split; [by apply at_index_ok | done].
Qed.

(** a loop invariant indexed by the number of iterations done *)
Lemma for_each_inv {St X : Type} (I : nat → St → Prop) (body : St → X → result St)
    (xs : list X) (s : St) :
  I 0%nat s →
  (∀ j x s, xs !! j = Some x → I j s → ∃ s', body s x = Ok s' ∧ I (S j) s') →
  ∃ s', for_each body xs s = Ok s' ∧ I (length xs) s'.
Proof.
  revert I s. induction xs as [|x xs IH]; intros I s H0 Hstep; simpl.
  - eauto.
  - destruct (Hstep 0%nat x s eq_refl H0) as (s1 & -> & H1). simpl.
    apply (IH (λ j, I (S j))); [done|].
    intros j y s2 Hj. apply (Hstep (S j)). done.
Qed.

Lemma for_each_app {St X : Type} (body : St → X → result St) (xs ys : list X)
    (s : St) :
  for_each body (xs ++ ys) s = (s' <- for_each body xs s ;; for_each body ys s').
Proof.
  revert s. induction xs as [|x xs IH]; intros s; simpl; [done|].
  destruct (body s x); simpl; [apply IH | done].
Qed.

Lemma lookup_range (a b j : nat) :
  (j < b - a)%nat → range a b !! j = Some (a + j)%nat.
Proof. intros Hj. unfold range. by apply lookup_seq_lt. Qed.

Lemma length_range (a b : nat) : length (range a b) = (b - a)%nat.
Proof. unfold range. by rewrite length_seq. Qed.

Lemma length_range_down (hi lo : nat) : length (range_down hi lo) = (S hi - lo)%nat.
Proof. unfold range_down. by rewrite length_reverse, length_seq. Qed.

Lemma lookup_range_down (hi lo j : nat) :
  (j < S hi - lo)%nat → range_down hi lo !! j = Some (hi - j)%nat.
Proof.
  intros Hj. unfold range_down.
  rewrite reverse_lookup by (rewrite length_seq; lia).
  rewrite length_seq, lookup_seq_lt by lia. f_equal. lia.
Qed.

(** ** Sums *)

Lemma sumZ_app {A : Type} (f : A → Z) (l1 l2 : list A) :
  sumZ f (l1 ++ l2) = sumZ f l1 + sumZ f l2.
Proof. induction l1 as [|x l1 IH]; simpl; [done | rewrite IH; lia]. Qed.

Lemma sumZ_ext {A : Type} (f g : A → Z) (l : list A) :
  (∀ x, x ∈ l → f x = g x) → sumZ f l = sumZ g l.
Proof.
  induction l as [|x l IH]; intros H; simpl; [done|].
  rewrite (H x) by left. rewrite IH; [done|]. intros y Hy. apply H. by right.
Qed.

Lemma sumZ_plus {A : Type} (f g : A → Z) (l : list A) :
  sumZ (λ x, f x + g x) l = sumZ f l + sumZ g l.
Proof. induction l as [|x l IH]; simpl; [done | rewrite IH; lia]. Qed.

Lemma sumZ_perm {A : Type} (f : A → Z) (l1 l2 : list A) :
  l1 ≡ₚ l2 → sumZ f l1 = sumZ f l2.
Proof. induction 1; simpl; lia. Qed.

Lemma sumZ_map {A B : Type} (f : B → Z) (g : A → B) (l : list A) :
  sumZ f (map g l) = sumZ (λ x, f (g x)) l.
Proof. induction l as [|x l IH]; simpl; [done | by rewrite IH]. Qed.

Lemma set_weight_app (weights : list nat) (s1 s2 : pyset) :
  set_weight weights (s1 ++ s2) = (set_weight weights s1 + set_weight weights s2)%nat.
Proof. induction s1 as [|x s1 IH]; simpl; [done | rewrite IH; lia]. Qed.

Lemma set_weight_perm (weights : list nat) (l1 l2 : pyset) :
  l1 ≡ₚ l2 → set_weight weights l1 = set_weight weights l2.
Proof. induction 1; simpl; lia. Qed.

(** ** Reading the profit matrix *)

Lemma pget_entry (profits : list (list Z)) (i j : nat) (v : Z) :
  pget profits i j = Ok v → entry profits i j = v.
Proof. unfold entry. by intros ->. Qed.

Lemma pget_square (n : nat) (profits : list (list Z)) (i j : nat) :
  square n profits → (i < n)%nat → (j < n)%nat →
  pget profits i j = Ok (entry profits i j).
Proof.
  intros [Hlen Hrows] Hi Hj. unfold entry, pget.
  destruct (at_index_lt profits i) as (row & -> & Hrow); [lia|]. simpl.
  assert (length row = n) as Hr.
  { by apply (Forall_lookup_1 _ _ _ _ Hrows Hrow). }
  destruct (at_index_lt row j) as (v & -> & _); [lia | done].
Qed.

Lemma square_covers (n : nat) (profits : list (list Z)) :
  square n profits → covers n profits.
Proof. intros H i j. by apply pget_square. Qed.

Lemma add_interactions_ok (profits : list (list Z)) (i : nat) (s : pyset) (acc : Z) :
  (∀ j, j ∈ s → pget profits i j = Ok (entry profits i j)) →
  add_interactions profits i s acc = Ok (acc + sumZ (entry profits i) s).
Proof.
  unfold add_interactions. revert acc.
  induction s as [|j s IH]; intros acc H; simpl.
  - f_equal. lia.
  - rewrite (H j) by left. simpl. rewrite IH.
    + f_equal. lia.
    + intros j' Hj'. apply H. by right.
Qed.

(** ** Tables *)

Section Tables.
Context {V : Type}.
Implicit Types (t : table V) (c : V * pyset).

Lemma tget_ok t k r c :
  tget t k r = Ok c ↔ ∃ row, t !! k = Some row ∧ row !! r = Some c.
Proof.
  unfold tget. split.
  - intros (row & Hrow%at_index_ok & Hc%at_index_ok)%bind_ok. eauto.
  - intros (row & Hrow%at_index_ok & Hr). rewrite Hrow. simpl.
    by apply at_index_ok.
Qed.

Lemma shape_full rows cols (v : V) : shape rows cols (full rows cols v).
Proof.
  unfold full. split; [by rewrite length_replicate|].
  intros k row [-> _]%lookup_replicate. by rewrite length_replicate.
Qed.

Lemma tget_full rows cols (v : V) k r :
  (k < rows)%nat → (r < cols)%nat → tget (full rows cols v) k r = Ok (v, []).
Proof.
  intros Hk Hr. apply tget_ok. exists (replicate cols (v, [])).
  unfold full. split; by apply lookup_replicate_2.
Qed.

Lemma tset_spec rows cols t k r c :
  shape rows cols t → (k < rows)%nat → (r < cols)%nat →
  ∃ t', tset t k r c = Ok t' ∧ shape rows cols t' ∧ tget t' k r = Ok c
        ∧ ∀ k' r', k' ≠ k ∨ r' ≠ r → tget t' k' r' = tget t k' r'.
Proof.
  intros [Hlen Hrows] Hk Hr. unfold tset.
  destruct (at_index_lt t k) as (row & -> & Hrow); [lia|]. simpl.
  pose proof (Hrows _ _ Hrow) as Hrl.
  destruct (at_index_lt row r) as (c0 & -> & _); [lia|]. simpl.
  eexists. split; [reflexivity|]. split; [|split].
  - split; [by rewrite length_insert|].
    intros k' row' Hk'. destruct (decide (k' = k)) as [->|Hne].
    + rewrite list_lookup_insert_eq in Hk' by lia. injection Hk' as <-.
      by rewrite length_insert.
    + rewrite list_lookup_insert_ne in Hk' by done. eauto.
  - apply tget_ok. eexists. split.
    + apply list_lookup_insert_eq. lia.
    + apply list_lookup_insert_eq. lia.
  - intros k' r' Hne. unfold tget, at_index.
    destruct (decide (k' = k)) as [->|Hk'].
    + rewrite list_lookup_insert_eq, Hrow by lia. simpl.
      rewrite list_lookup_insert_ne; [done|]. destruct Hne; congruence.
    + by rewrite list_lookup_insert_ne.
Qed.
End Tables.

(** *** Filling a table row by row

    Both 2-D engines fill row [k] from row [k - 1], one cell per step. *)

Section Fill.
Context {V : Type}.
Variables (n capacity : nat).
Variable step : nat → table V → nat → result (table V).
Variable cellf : nat → nat → V * pyset.

Hypothesis step_spec : ∀ k r t,
  (1 ≤ k ≤ n)%nat → (r ≤ capacity)%nat →
  shape (n + 1) (capacity + 1) t →
  (∀ r', (r' ≤ capacity)%nat → tget t (k - 1) r' = Ok (cellf (k - 1) r')) →
  ∃ t', step k t r = Ok t' ∧ shape (n + 1) (capacity + 1) t'
        ∧ tget t' k r = Ok (cellf k r)
        ∧ ∀ k' r', k' ≠ k ∨ r' ≠ r → tget t' k' r' = tget t k' r'.

Lemma fill_row_spec (k : nat) (t : table V) :
  (1 ≤ k ≤ n)%nat → filled (n + 1) (capacity + 1) cellf (k - 1) t →
  ∃ t', for_each (step k) (range 0 (capacity + 1)) t = Ok t'
        ∧ filled (n + 1) (capacity + 1) cellf k t'.
Proof.
  intros Hk [Hshape Hrows].
  destruct (for_each_inv
    (λ j t', shape (n + 1) (capacity + 1) t'
             ∧ (∀ k' r, (k' ≤ k - 1)%nat → (r < capacity + 1)%nat →
                        tget t' k' r = Ok (cellf k' r))
             ∧ (∀ r, (r < j)%nat → tget t' k r = Ok (cellf k r)))
    (step k) (range 0 (capacity + 1)) t) as (t' & Hrun & Hs & Hlow & Hrow).
  - split; [done|]. split; [done|]. intros r Hr. lia.
  - intros j x t1 Hx (Hs1 & Hlow1 & Hrow1).
    assert (j < capacity + 1)%nat as Hj.
    { apply lookup_lt_Some in Hx. by rewrite length_range in Hx; lia. }
    rewrite lookup_range in Hx by lia. injection Hx as <-. simpl.
    destruct (step_spec k j t1) as (t2 & Hstep & Hs2 & Hnew & Hold);
      [lia | lia | done | intros r' Hr'; apply Hlow1; lia |].
    exists t2. split; [done|]. split; [done|]. split.
    + intros k' r Hk' Hr. rewrite Hold by (left; lia). by apply Hlow1.
    + intros r Hr. destruct (decide (r = j)) as [->|Hne]; [done|].
      rewrite Hold by (by right). apply Hrow1. lia.
  - exists t'. split; [done|]. split; [done|].
    intros k' r Hk' Hr. destruct (decide (k' = k)) as [->|Hne].
    + apply Hrow. by rewrite length_range; lia.
    + apply Hlow; lia.
Qed.

Lemma fill_rows_spec (upto : nat) (t : table V) :
  (upto ≤ n)%nat → filled (n + 1) (capacity + 1) cellf 0 t →
  ∃ t', for_each (λ t k, for_each (step k) (range 0 (capacity + 1)) t)
          (range 1 (upto + 1)) t = Ok t'
        ∧ filled (n + 1) (capacity + 1) cellf upto t'.
Proof.
  intros Hupto H0.
  destruct (for_each_inv (λ j t', filled (n + 1) (capacity + 1) cellf j t')
    (λ t k, for_each (step k) (range 0 (capacity + 1)) t)
    (range 1 (upto + 1)) t) as (t' & Hrun & Hfin).
  - done.
  - intros j x t1 Hx H1.
    assert (j < upto)%nat as Hj.
    { apply lookup_lt_Some in Hx. by rewrite length_range in Hx; lia. }
    rewrite lookup_range in Hx by lia. injection Hx as <-.
    apply fill_row_spec; [lia|]. replace (S j - 1)%nat with j by lia. exact H1.
  - exists t'. split; [done|].
    rewrite length_range in Hfin.
    replace (upto + 1 - 1)%nat with upto in Hfin by lia. exact Hfin.
Qed.
End Fill.

(** ** Witnesses of the recurrences *)

Lemma set_add_fresh (k : nat) (s : list nat) :
  Forall (λ i, i < k)%nat s → set_add k s = s ++ [k].
Proof.
  intros Hs. unfold set_add. destruct (decide (k ∈ s)) as [Hin|]; [|done].
  rewrite Forall_forall in Hs. apply Hs in Hin. lia.
Qed.

Lemma filter_lt_all (k : nat) (s : list nat) :
  Forall (λ i, i < k)%nat s → filter (λ j, j < k)%nat s = s.
Proof.
  induction 1 as [|x s Hx Hs IH]; [done|].
  rewrite filter_cons_True by done. by rewrite IH.
Qed.

Lemma engine_profit_add (profits : list (list Z)) (k : nat) (s : list nat) :
  Forall (λ i, i < k)%nat s →
  engine_profit profits (s ++ [k])
  = Spec.candidate profits k (engine_profit profits s) s.
Proof.
  intros Hs. unfold engine_profit, Spec.candidate.
  rewrite sumZ_app. simpl.
  rewrite filter_app, (filter_lt_all k s Hs), filter_cons_False, filter_nil by lia.
  rewrite app_nil_r.
  rewrite (sumZ_ext _ (λ i, entry profits i i
    + sumZ (entry profits i) (filter (λ j, j < i)%nat s)) s); [lia|].
  intros i Hi. rewrite Forall_forall in Hs. apply Hs in Hi.
  rewrite filter_app, filter_cons_False, filter_nil by lia.
  by rewrite app_nil_r.
Qed.

Section Witnesses.
Variables (weights : list nat) (profits : list (list Z)).

Lemma sound_witness_empty (k r : nat) : sound_witness weights profits k r 0 [].
Proof.
  unfold sound_witness. split; [constructor|]. split; [constructor|].
  split; [simpl; lia | done].
Qed.

Lemma sound_witness_keep (k r : nat) (v : Z) (s : list nat) :
  sound_witness weights profits k r v s →
  sound_witness weights profits (S k) r v s.
Proof.
  intros (Hlt & Hnd & Hw & Hv). split; [|done].
  eapply Forall_impl; [exact Hlt|]. simpl. lia.
Qed.

Lemma sound_witness_add (k r w : nat) (d : Z) (s : list nat) :
  weights !! k = Some w → (w ≤ r)%nat →
  sound_witness weights profits k (r - w) d s →
  sound_witness weights profits (S k) r
    (Spec.candidate profits k d s) (set_add k s).
Proof.
  intros Hw Hle (Hlt & Hnd & Hws & Hv).
  rewrite (set_add_fresh k s Hlt). split; [|split; [|split]].
  - apply Forall_app. split.
    + eapply Forall_impl; [exact Hlt|]. simpl. lia.
    + repeat constructor.
  - apply NoDup_app. split; [done|]. split; [|apply NoDup_singleton].
    intros x Hx ->%list_elem_of_singleton.
    rewrite Forall_forall in Hlt. apply Hlt in Hx. lia.
  - rewrite set_weight_app. simpl. rewrite Hw. simpl. lia.
  - rewrite engine_profit_add by done. by rewrite Hv.
Qed.

Lemma exact_dp_sound (k r : nat) :
  sound_witness weights profits k r
    (Spec.exact_dp weights profits k r).1 (Spec.exact_dp weights profits k r).2
  ∧ 0 ≤ (Spec.exact_dp weights profits k r).1.
Proof.
  revert r. induction k as [|k IH]; intros r; simpl.
  - split; [apply sound_witness_empty | lia].
  - destruct (IH r) as [Hex Hpos].
    destruct (weights !! k) as [w|] eqn:Hw;
      [|split; [by apply sound_witness_keep | done]].
    destruct (decide (w ≤ r)%nat) as [Hle|];
      [|split; [by apply sound_witness_keep | done]].
    destruct (decide _) as [Hgt|];
      [|split; [by apply sound_witness_keep | done]].
    simpl. split; [|lia].
    apply (sound_witness_add k r w); [done | done | apply IH].
Qed.

Lemma heur_dp_sound (k r : nat) (v : Z) :
  (Spec.heur_dp weights profits k r).1 = Fin v →
  sound_witness weights profits k r v (Spec.heur_dp weights profits k r).2.
Proof.
  revert r v. induction k as [|k IH]; intros r v; simpl.
  - destruct (decide (r = 0)%nat); [|discriminate].
    intros [= <-]. apply sound_witness_empty.
  - destruct (weights !! k) as [w|] eqn:Hw;
      [|intros H; by apply sound_witness_keep, IH].
    destruct (decide (w ≤ r)%nat) as [Hle|];
      [|intros H; by apply sound_witness_keep, IH].
    destruct (Spec.heur_dp weights profits k (r - w)).1 as [|d] eqn:Hprev;
      [intros H; by apply sound_witness_keep, IH|].
    destruct (overwrites _ _ _);
      [|intros H; by apply sound_witness_keep, IH].
    simpl. intros [= <-].
    apply (sound_witness_add k r w); [done | done | by apply IH].
Qed.

(** the state at capacity 0 stays feasible, with a profit that never
    decreases below 0 *)
Lemma heur_dp_zero (k : nat) :
  ∃ v, (Spec.heur_dp weights profits k 0).1 = Fin v ∧ 0 ≤ v.
Proof.
  induction k as [|k (v & Hv & Hpos)]; simpl.
  - exists 0. split; [done | lia].
  - destruct (weights !! k) as [w|]; [|eauto].
    destruct (decide (w ≤ 0)%nat); [|eauto].
    destruct (Spec.heur_dp weights profits k (0 - w)).1 as [|d]; [eauto|].
    destruct (overwrites _ _ _) eqn:Hov; [|eauto].
    simpl. eexists. split; [done|].
    unfold overwrites in Hov. rewrite Hv in Hov.
    apply orb_true_iff in Hov as [Hgt%bool_decide_eq_true|Heq].
    + lia.
    + apply andb_true_iff in Heq as [Heq%bool_decide_eq_true _]. lia.
Qed.
End Witnesses.

(** ** The exact engine computes its recurrence *)

(** run the next call of a sequence, known to return *)
Ltac run H := rewrite H; cbn [bind].

Lemma weights_at (weights : list nat) (i : nat) :
  (i < length weights)%nat →
  ∃ w, at_index weights i = Ok w ∧ weights !! i = Some w.
Proof. apply at_index_lt. Qed.

Section ClassicalRefines.
Variables (weights : list nat) (profits : list (list Z)) (capacity : nat).
Hypothesis Hcov : covers (length weights) profits.

Lemma classical_step_spec (k r : nat) (t : list (list (Z * list nat))) :
  (1 ≤ k ≤ length weights)%nat → (r ≤ capacity)%nat →
  shape (length weights + 1) (capacity + 1) t →
  (∀ r', (r' ≤ capacity)%nat →
         tget t (k - 1) r' = Ok (Spec.exact_dp weights profits (k - 1) r')) →
  ∃ t', Classical.step weights profits k t r = Ok t'
        ∧ shape (length weights + 1) (capacity + 1) t'
        ∧ tget t' k r = Ok (Spec.exact_dp weights profits k r)
        ∧ ∀ k' r', k' ≠ k ∨ r' ≠ r → tget t' k' r' = tget t k' r'.
Proof.
  intros Hk Hr Hshape Hprev. destruct k as [|i]; [lia|].
  replace (S i - 1)%nat with i in * by lia.
  unfold Classical.step. replace (S i - 1)%nat with i by lia.
  run (Hprev r Hr).
  destruct (tset_spec _ _ t (S i) r (Spec.exact_dp weights profits i r) Hshape)
    as (t1 & Hset1 & Hshape1 & Hnew1 & Hold1); [lia | lia |].
  run Hset1.
  destruct (weights_at weights i) as (w & Hw & Hwi); [lia|]. run Hw.
  cbn [Spec.exact_dp]. rewrite Hwi.
  destruct (decide (w ≤ r)%nat) as [Hle|]; [|by exists t1].
  rewrite Hold1 by (left; lia). run (Hprev (r - w)%nat ltac:(lia)).
  destruct (exact_dp_sound weights profits i (r - w)) as [(Hlt & _) _].
  run (Hcov i i ltac:(lia) ltac:(lia)).
  rewrite add_interactions_ok; cbn [bind].
  2:{ intros j Hj. rewrite Forall_forall in Hlt. apply Hlt in Hj.
      apply Hcov; lia. }
  run Hnew1. fold (Spec.candidate profits i
    (Spec.exact_dp weights profits i (r - w)).1
    (Spec.exact_dp weights profits i (r - w)).2).
  cbn [fst snd]. destruct (decide _) as [Hgt|]; [|by exists t1].
  destruct (tset_spec _ _ t1 (S i) r
    (Spec.candidate profits i (Spec.exact_dp weights profits i (r - w)).1
       (Spec.exact_dp weights profits i (r - w)).2,
     set_add i (Spec.exact_dp weights profits i (r - w)).2) Hshape1)
    as (t2 & Hset2 & Hshape2 & Hnew2 & Hold2); [lia | lia |].
  exists t2. split; [done|]. split; [done|]. split; [done|].
  intros k' r' Hne. rewrite Hold2 by done. by apply Hold1.
Qed.

Lemma classical_fill_upto (upto : nat) :
  (upto ≤ length weights)%nat →
  ∃ t, Classical.fill_upto weights profits capacity upto = Ok t
       ∧ filled (length weights + 1) (capacity + 1)
           (Spec.exact_dp weights profits) upto t.
Proof.
  intros Hupto. unfold Classical.fill_upto.
  apply (fill_rows_spec (length weights) capacity
           (Classical.step weights profits) (Spec.exact_dp weights profits));
    [apply classical_step_spec | done |].
  split; [apply shape_full|].
  intros k r Hk Hr. replace k with 0%nat by lia.
  apply tget_full; lia.
Qed.
End ClassicalRefines.

(** ** Maxima *)

Lemma fold_max_spec (l : list Z) (x : Z) :
  (fold_left Z.max l x = x ∨ fold_left Z.max l x ∈ l)
  ∧ x ≤ fold_left Z.max l x
  ∧ ∀ y, y ∈ l → y ≤ fold_left Z.max l x.
Proof.
  revert x. induction l as [|y l IH]; intros x; simpl.
  - split; [by left|]. split; [lia|]. intros y Hy. by apply elem_of_nil in Hy.
  - destruct (IH (Z.max x y)) as (Hin & Hge & Hall). split; [|split].
    + destruct Hin as [Heq|Hin]; [|right; by right].
      rewrite Heq. destruct (Z.max_spec x y) as [[_ ->]|[_ ->]].
      * right. by left.
      * by left.
    + lia.
    + intros z [->|Hz]%elem_of_cons; [lia | by apply Hall].
Qed.

Lemma py_max_spec (l : list Z) :
  l ≠ [] → ∃ m, Classical.py_max l = Ok m ∧ m ∈ l ∧ ∀ y, y ∈ l → y ≤ m.
Proof.
  destruct l as [|x l]; [done|]. intros _. simpl.
  destruct (fold_max_spec l x) as (Hin & Hge & Hall).
  eexists. split; [done|]. split.
  - destruct Hin as [->|Hin]; [by left | by right].
  - intros y [->|Hy]%elem_of_cons; [done | by apply Hall].
Qed.

Lemma py_index_spec (x : Z) (l : list Z) :
  x ∈ l →
  ∃ i, Classical.py_index x l = Ok i ∧ l !! i = Some x
       ∧ ∀ j, (j < i)%nat → l !! j ≠ Some x.
Proof.
  induction l as [|y l IH]; intros Hin; [by apply elem_of_nil in Hin|].
  simpl. destruct (decide (y = x)) as [->|Hne].
  - exists 0%nat. split; [done|]. split; [done|]. intros j Hj. lia.
  - apply elem_of_cons in Hin as [->|Hin]; [done|].
    destruct (IH Hin) as (i & -> & Hi & Hfirst). exists (S i).
    split; [done|]. split; [done|].
    intros [|j] Hj; simpl; [congruence | apply Hfirst; lia].
Qed.

Lemma ext_ltb_irrefl (a : ext) : ext_ltb a a = false.
Proof. destruct a; simpl; [done|]. apply bool_decide_eq_false. lia. Qed.

Lemma ext_ltb_le_lt (a b c : ext) :
  ext_ltb b a = false → ext_ltb b c = true →
  ext_ltb a c = true ∧ ext_ltb c a = false.
Proof.
  destruct a, b, c; simpl; try done;
    rewrite ?bool_decide_eq_false, ?bool_decide_eq_true; (split || idtac); lia.
Qed.

(** ** The order of float64 *)

Lemma flt_irrefl (a : float64) : flt a a = false.
Proof. destruct a; simpl; try done. apply bool_decide_eq_false. lia. Qed.

Lemma flt_asym (a b : float64) : flt a b = true → flt b a = false.
Proof.
  destruct a, b; simpl; try done.
  rewrite bool_decide_eq_false, bool_decide_eq_true. lia.
Qed.

Lemma flt_le_lt (a b c : float64) :
  flt b a = false → flt b c = true → flt a c = true ∧ flt c a = false.
Proof.
  destruct a, b, c; simpl; try done;
    rewrite ?bool_decide_eq_false, ?bool_decide_eq_true; (split || idtac); lia.
Qed.

Lemma flt_le_trans (a b c : float64) :
  flt b a = false → flt c b = false → flt c a = false.
Proof.
  destruct a, b, c; simpl; try done;
    rewrite ?bool_decide_eq_false; lia.
Qed.

Lemma flt_of_ext (a b : ext) : flt (of_ext a) (of_ext b) = ext_ltb a b.
Proof. by destruct a, b. Qed.

Lemma of_ext_inj (a b : ext) : of_ext a = of_ext b → a = b.
Proof. destruct a, b; simpl; congruence. Qed.

Lemma updates_true (c : float64) (len : nat) (cur : float64 * list nat) :
  updates c len cur = true → flt c cur.1 = false.
Proof.
  unfold updates.
  intros [Hlt|Heq]%orb_true_iff; [by apply flt_asym|].
  apply andb_true_iff in Heq as [->%bool_decide_eq_true _]. apply flt_irrefl.
Qed.

Lemma updates_false (c : float64) (len : nat) (cur : float64 * list nat) :
  updates c len cur = false → flt cur.1 c = false.
Proof. unfold updates. by intros [? _]%orb_false_iff. Qed.

Lemma updates_stored (c : Z) (len : nat) (cur : ext * list nat) :
  updates (Finite c) len (stored cur) = overwrites c len cur.
Proof.
  unfold updates, overwrites, stored. simpl. destruct cur.1 as [|d]; simpl.
  - done.
  - f_equal; [apply bool_decide_ext; lia|]. f_equal. apply bool_decide_ext.
    split; [by intros [= ->] | by intros ->].
Qed.

Lemma argmax_scan_spec (l pre : list float64) (bi : nat) (b : float64) :
  pre !! bi = Some b →
  (∀ j y, pre !! j = Some y →
          flt b y = false ∧ ((j < bi)%nat → flt y b = true)) →
  ∃ m, (pre ++ l) !! argmax_scan bi b (length pre) l = Some m
       ∧ m = fold_left (λ m y, if flt m y then y else m) l b
       ∧ ∀ j y, (pre ++ l) !! j = Some y →
                flt m y = false
                ∧ ((j < argmax_scan bi b (length pre) l)%nat → flt y m = true).
Proof.
  revert pre bi b. induction l as [|x l IH]; intros pre bi b Hbi Hpre; simpl.
  - exists b. rewrite app_nil_r. done.
  - assert (length (pre ++ [x]) = S (length pre)) as Hlen
      by (rewrite length_app; simpl; lia).
    pose proof (lookup_lt_Some _ _ _ Hbi) as Hlt.
    replace (pre ++ x :: l) with ((pre ++ [x]) ++ l)
      by (by rewrite <- (assoc_L (++))).
    destruct (flt b x) eqn:Hbx.
    + rewrite <- Hlen. apply IH.
      * rewrite lookup_app_r by lia. by replace (_ - _)%nat with 0%nat by lia.
      * intros j y Hj. destruct (decide (j < length pre)%nat) as [Hjl|Hjl].
        -- rewrite lookup_app_l in Hj by done.
           destruct (Hpre j y Hj) as [Hle _].
           destruct (flt_le_lt y b x Hle Hbx). done.
        -- rewrite lookup_app_r in Hj by lia.
           destruct (j - length pre)%nat eqn:E; simpl in Hj; [|done].
           injection Hj as <-. split; [apply flt_irrefl | lia].
    + rewrite <- Hlen. apply IH.
      * by rewrite lookup_app_l.
      * intros j y Hj. destruct (decide (j < length pre)%nat) as [Hjl|Hjl].
        -- rewrite lookup_app_l in Hj by done. by apply Hpre.
        -- rewrite lookup_app_r in Hj by lia.
           destruct (j - length pre)%nat eqn:E; simpl in Hj; [|done].
           injection Hj as <-. split; [done | lia].
Qed.

(** [np.argmax] returns the first index of the maximum, which is what
    [np.max] returns *)
Lemma np_argmax_spec (l : list float64) :
  l ≠ [] →
  ∃ i m, np_argmax l = Ok i ∧ np_max l = Ok m ∧ l !! i = Some m
         ∧ ∀ j y, l !! j = Some y →
                  flt m y = false ∧ ((j < i)%nat → flt y m = true).
Proof.
  destruct l as [|x l]; [done|]. intros _.
  destruct (argmax_scan_spec l [x] 0%nat x) as (m & Hm & Hmax & Hall); [done| |].
  - intros [|j] y Hj; simpl in Hj; [|done]. injection Hj as <-.
    split; [apply flt_irrefl | lia].
  - simpl in *. exists (argmax_scan 0 x 1 l), m. rewrite <- Hmax. done.
Qed.

Lemma row_argmax (cellf : nat → float64 * list nat) (cols : nat)
    (st : list (float64 * list nat)) :
  (0 < cols)%nat → row_of cols cellf st →
  ∃ r, best64 cellf (cols - 1) r
       ∧ np_argmax st.*1 = Ok r ∧ np_max st.*1 = Ok (cellf r).1.
Proof.
  intros Hpos [Hlen Hcells].
  assert (∀ r, (r < cols)%nat → st.*1 !! r = Some (cellf r).1) as Hval.
  { intros r Hr. by rewrite list_lookup_fmap, Hcells. }
  destruct (np_argmax_spec st.*1) as (r & m & Harg & Hmax & Hr & Hall).
  { intros Hnil. apply (f_equal length) in Hnil.
    rewrite length_fmap in Hnil. simpl in Hnil. lia. }
  assert (r < cols)%nat as Hrc.
  { apply lookup_lt_Some in Hr. rewrite length_fmap in Hr. lia. }
  rewrite Hval in Hr by done. injection Hr as <-.
  exists r. split; [|done]. split; [lia|]. split.
  - intros r' Hr'. apply (Hall r'), Hval. lia.
  - intros r' Hr'. apply (Hall r'); [apply Hval; lia | done].
Qed.

Lemma best64_unique (cellf : nat → float64 * list nat) (capacity r1 r2 : nat) :
  best64 cellf capacity r1 → best64 cellf capacity r2 → r1 = r2.
Proof.
  intros (Hr1 & Hge1 & Hfirst1) (Hr2 & Hge2 & Hfirst2).
  destruct (Nat.lt_trichotomy r1 r2) as [Hlt|[Heq|Hgt]]; [|done|].
  - specialize (Hfirst2 r1 Hlt). specialize (Hge1 r2 Hr2). congruence.
  - specialize (Hfirst1 r2 Hgt). specialize (Hge2 r1 Hr1). congruence.
Qed.

(** ** Rounding *)

Lemma round_nearest_even_exact (m : Z) :
  0 ≤ m ≤ 2 ^ 53 → round_nearest_even m = m.
Proof.
  intros [Hlo Hhi]. destruct (decide (m = 2 ^ 53)) as [->|Hne]; [reflexivity|].
  unfold round_nearest_even.
  assert (Z.log2 m - 52 ≤ 0) as He.
  { destruct (decide (m = 0)) as [->|Hpos]; [simpl; lia|].
    assert (Z.log2 m < 53); [|lia]. apply Z.log2_lt_pow2; lia. }
  apply Z.leb_le in He. by rewrite He.
Qed.

Lemma round_nearest_even_nonneg (m : Z) : 0 ≤ m → 0 ≤ round_nearest_even m.
Proof.
  intros Hm. unfold round_nearest_even.
  destruct (Z.log2 m - 52 <=? 0); [done|].
  apply Z.shiftl_nonneg.
  assert (0 ≤ Z.shiftr m (Z.log2 m - 52)) by (by apply Z.shiftr_nonneg).
  destruct (_ || _); lia.
Qed.

(** an integer of at most 53 bits is a double *)
Lemma round64_exact (z : Z) : Z.abs z ≤ 2 ^ 53 → round64 z = Finite z.
Proof.
  intros Hz. unfold round64.
  rewrite round_nearest_even_exact by lia.
  assert (2 ^ 53 ≤ max_finite) as Hmax by (vm_compute; discriminate).
  destruct (max_finite <? Z.abs z) eqn:E; [apply Z.ltb_lt in E; lia|].
  f_equal. lia.
Qed.

(** the double nearest to a non-negative integer is not negative *)
Lemma round64_nonneg (z : Z) : 0 ≤ z → flt (round64 z) (Finite 0) = false.
Proof.
  intros Hz. unfold round64.
  pose proof (round_nearest_even_nonneg (Z.abs z) ltac:(lia)) as Hm.
  destruct (max_finite <? _).
  - destruct (z <? 0) eqn:E; [apply Z.ltb_lt in E; lia | done].
  - simpl. apply bool_decide_eq_false. nia.
Qed.

Lemma to_float_exact (z : Z) : Z.abs z ≤ 2 ^ 53 → to_float z = Ok z.
Proof. intros Hz. unfold to_float. by rewrite round64_exact. Qed.

Lemma to_float_entry64 (profits : list (list Z)) (i j : nat) (f : Z) :
  to_float (entry profits i j) = Ok f → Rounded.entry64 profits i j = f.
Proof.
  unfold to_float, Rounded.entry64.
  destruct (round64 _); [discriminate | by intros [= ->] | discriminate].
Qed.

Lemma fadd_exact (x y : Z) : Z.abs (x + y) ≤ 2 ^ 53 → fadd (Finite x) y = Finite (x + y).
Proof. intros H. simpl. by apply round64_exact. Qed.

(** ** Sums within the exact range *)

Lemma sumZ_le {A : Type} (f g : A → Z) (l : list A) :
  (∀ x, x ∈ l → f x ≤ g x) → sumZ f l ≤ sumZ g l.
Proof.
  induction l as [|x l IH]; intros H; simpl; [lia|].
  pose proof (H x ltac:(left)).
  assert (sumZ f l ≤ sumZ g l); [|lia].
  apply IH. intros y Hy. apply H. by right.
Qed.

Lemma sumZ_abs {A : Type} (f : A → Z) (l : list A) :
  Z.abs (sumZ f l) ≤ sumZ (λ x, Z.abs (f x)) l.
Proof. induction l as [|x l IH]; simpl; lia. Qed.

Lemma sumZ_submseteq {A : Type} (f : A → Z) (l1 l2 : list A) :
  (∀ x, 0 ≤ f x) → l1 ⊆+ l2 → sumZ f l1 ≤ sumZ f l2.
Proof.
  intros Hf. induction 1 as [|x l1 l2 _ IH|x y l|x l1 l2 _ IH|l1 l2 l3 _ IH1 _ IH2];
    simpl; try lia.
  pose proof (Hf x). lia.
Qed.

Lemma sumZ_below (f : nat → Z) (n : nat) (l : list nat) :
  (∀ x, 0 ≤ f x) → NoDup l → Forall (λ i, i < n)%nat l →
  sumZ f l ≤ sumZ f (seq 0 n).
Proof.
  intros Hf Hnd Hlt. apply sumZ_submseteq; [done|].
  apply NoDup_submseteq; [done|]. intros x Hx.
  rewrite Forall_forall in Hlt. apply elem_of_seq. specialize (Hlt x Hx). lia.
Qed.

Section Mass.
Variables (n : nat) (profits : list (list Z)).

Lemma rowmass_nonneg (i : nat) : 0 ≤ rowmass n profits i.
Proof.
  unfold rowmass. induction (seq 0 n) as [|j l IH]; simpl; lia.
Qed.

Lemma row_bound (i : nat) (l : list nat) :
  NoDup l → Forall (λ j, j < n)%nat l →
  sumZ (λ j, Z.abs (entry profits i j)) l ≤ rowmass n profits i.
Proof. intros Hnd Hlt. apply sumZ_below; [lia | done | done]. Qed.

Lemma rows_bound (s : list nat) :
  NoDup s → Forall (λ i, i < n)%nat s → sumZ (rowmass n profits) s ≤ mass n profits.
Proof. intros Hnd Hlt. apply sumZ_below; [apply rowmass_nonneg | done | done]. Qed.

Lemma entry_bound (i j : nat) :
  (i < n)%nat → (j < n)%nat → Z.abs (entry profits i j) ≤ mass n profits.
Proof.
  intros Hi Hj.
  pose proof (row_bound i [j] ltac:(apply NoDup_singleton)
                ltac:(by repeat constructor)) as Hrow.
  pose proof (rows_bound [i] ltac:(apply NoDup_singleton)
                ltac:(by repeat constructor)) as Hrows.
  simpl in Hrow, Hrows. lia.
Qed.

Lemma engine_profit_bound (s : list nat) :
  NoDup s → Forall (λ i, i < n)%nat s →
  Z.abs (engine_profit profits s) ≤ sumZ (rowmass n profits) s.
Proof.
  intros Hnd Hlt. unfold engine_profit.
  etransitivity; [apply sumZ_abs|]. apply sumZ_le. intros i Hi.
  pose proof (sumZ_abs (entry profits i) (filter (λ j, j < i)%nat s)) as Habs.
  pose proof (row_bound i (i :: filter (λ j, j < i)%nat s)) as Hrow.
  simpl in Hrow. etransitivity; [|apply Hrow].
  - lia.
  - apply NoDup_cons. split; [|by apply NoDup_filter].
    intros [Hii _]%list_elem_of_filter. lia.
  - apply Forall_cons. rewrite Forall_forall in Hlt. split; [by apply Hlt|].
    apply Forall_forall. intros j [_ Hj]%list_elem_of_filter. by apply Hlt.
Qed.

Hypothesis Hexact : exact_range n profits.

Lemma exact_range_entry (i j : nat) :
  (i < n)%nat → (j < n)%nat → Z.abs (entry profits i j) ≤ 2 ^ 53.
Proof.
  intros Hi Hj. pose proof (entry_bound i j Hi Hj). unfold exact_range in Hexact. lia.
Qed.

Lemma exact_range_entry64 (i j : nat) :
  (i < n)%nat → (j < n)%nat → Rounded.entry64 profits i j = entry profits i j.
Proof.
  intros Hi Hj. unfold Rounded.entry64.
  by rewrite round64_exact by by apply exact_range_entry.
Qed.

Lemma exact_range_convertible : convertible n profits.
Proof.
  intros i j Hi Hj. exists (entry profits i j).
  by apply to_float_exact, exact_range_entry.
Qed.

Lemma fold_fadd_exact (f g : nat → Z) (l : list nat) (acc : Z) :
  (∀ j, j ∈ l → g j = f j) →
  Z.abs acc + sumZ (λ j, Z.abs (f j)) l ≤ 2 ^ 53 →
  fold_left (λ a j, fadd a (g j)) l (Finite acc) = Finite (acc + sumZ f l).
Proof.
  revert acc. induction l as [|j l IH]; intros acc Hg Hb; simpl in *.
  - f_equal. lia.
  - assert (0 ≤ sumZ (λ j, Z.abs (f j)) l) as Hpos.
    { clear. induction l as [|j l IH]; simpl; lia. }
    rewrite (Hg j) by left. rewrite round64_exact by lia.
    rewrite IH; [f_equal; lia | |lia].
    intros j' Hj'. apply Hg. by right.
Qed.

(** within the exact range the rounded include candidate is the exact one,
    whatever the order of the sum *)
Lemma candidate_exact (iter : list nat → list nat) (i : nat) (d : Z) (s : list nat) :
  (i < n)%nat → NoDup s → Forall (λ j, j < i)%nat s → iter s ≡ₚ s →
  Z.abs d ≤ sumZ (rowmass n profits) s →
  Rounded.candidate iter profits i (Finite d) s
  = Finite (Spec.candidate profits i d s).
Proof.
  intros Hi Hnd Hlt Hperm Hd. unfold Rounded.candidate, Spec.candidate.
  assert (NoDup (i :: s)) as Hnd'.
  { apply NoDup_cons. split; [|done]. intros Hin.
    rewrite Forall_forall in Hlt. specialize (Hlt i Hin). lia. }
  assert (Forall (λ j, j < n)%nat (i :: s)) as Hlt'.
  { apply Forall_cons. split; [done|].
    eapply Forall_impl; [exact Hlt|]. simpl. lia. }
  pose proof (row_bound i (i :: s) Hnd' Hlt') as Hrow.
  pose proof (rows_bound (i :: s) Hnd' Hlt') as Hrows.
  simpl in Hrow, Hrows. unfold exact_range in Hexact.
  assert (0 ≤ sumZ (λ j, Z.abs (entry profits i j)) s) as Hpos.
  { clear. induction s as [|j l IH]; simpl; lia. }
  rewrite exact_range_entry64 by done.
  rewrite fadd_exact by lia.
  rewrite (fold_fadd_exact (entry profits i)).
  - f_equal. rewrite (sumZ_perm _ _ _ Hperm). lia.
  - intros j Hj. apply exact_range_entry64; [done|].
    rewrite Hperm in Hj. rewrite Forall_forall in Hlt. specialize (Hlt j Hj). lia.
  - rewrite (sumZ_perm _ _ _ Hperm). lia.
Qed.
End Mass.

(** ** Outcomes *)

Lemma outcome_ok {A : Type} (P : A → Prop) (Q : Prop) (m : result A) (a : A) :
  outcome P Q m → m = Ok a → P a.
Proof. by intros H ->. Qed.

Lemma outcome_returns {A : Type} (P : A → Prop) (Q : Prop) (m : result A) :
  outcome P Q m → ¬ Q → ∃ a, m = Ok a ∧ P a.
Proof. destruct m as [a|e]; simpl; [eauto | done]. Qed.

Lemma outcome_impl {A : Type} (P P' : A → Prop) (Q : Prop) (m : result A) :
  outcome P Q m → (∀ a, P a → P' a) → outcome P' Q m.
Proof. destruct m; simpl; auto. Qed.

(** a loop invariant, for a loop that may raise *)
Lemma for_each_outcome {St X : Type} (I : nat → St → Prop) (Q : Prop)
    (body : St → X → result St) (xs : list X) (s : St) :
  I 0%nat s →
  (∀ j x s, xs !! j = Some x → I j s → outcome (I (S j)) Q (body s x)) →
  outcome (I (length xs)) Q (for_each body xs s).
Proof.
  revert I s. induction xs as [|x xs IH]; intros I s H0 Hstep; simpl; [done|].
  pose proof (Hstep 0%nat x s eq_refl H0) as H1.
  destruct (body s x) as [s1|e]; simpl in *; [|done].
  apply (IH (λ j, I (S j))); [done|].
  intros j y s2 Hj. apply (Hstep (S j)). done.
Qed.

(** ** The cells of the heuristics *)

Section RoundedCells.
Variables (order : nat → nat → list nat → list nat) (weights : list nat)
  (profits : list (list Z)).

Lemma heur64_items (k r : nat) :
  Forall (λ i, i < k)%nat (Rounded.heur_dp order weights profits k r).2.
Proof.
  revert r. induction k as [|k IH]; intros r; [constructor|].
  assert (Forall (λ i, i < S k)%nat (Rounded.heur_dp order weights profits k r).2)
    as Hkeep.
  { eapply Forall_impl; [apply IH|]. simpl. lia. }
  cbn [Rounded.heur_dp]. destruct (weights !! k) as [w|]; [|done].
  destruct (decide (w ≤ r)%nat); [|done].
  assert (Forall (λ i, i < S k)%nat
            (set_add k (Rounded.heur_dp order weights profits k (r - w)).2)) as Hadd.
  { rewrite (set_add_fresh k _ (IH (r - w)%nat)). apply Forall_app. split.
    - eapply Forall_impl; [apply IH|]. simpl. lia.
    - repeat constructor. }
  destruct (Rounded.heur_dp order weights profits k (r - w)).1; [done| |];
    by destruct (updates _ _ _).
Qed.

(** adding an item never lowers a cell *)
Lemma heur64_mono (k r : nat) :
  flt (Rounded.heur_dp order weights profits (S k) r).1
    (Rounded.heur_dp order weights profits k r).1 = false.
Proof.
  cbn [Rounded.heur_dp]. destruct (weights !! k) as [w|]; [|apply flt_irrefl].
  destruct (decide (w ≤ r)%nat); [|apply flt_irrefl].
  destruct (Rounded.heur_dp order weights profits k (r - w)).1;
    [apply flt_irrefl| |];
    (destruct (updates _ _ _) eqn:Hov; [by apply updates_true in Hov
                                       | apply flt_irrefl]).
Qed.

(** the cell at capacity 0 is never below 0 *)
Lemma heur64_zero (k : nat) :
  flt (Rounded.heur_dp order weights profits k 0).1 (Finite 0) = false.
Proof.
  induction k as [|k IH]; [done|].
  eapply flt_le_trans; [exact IH | apply heur64_mono].
Qed.

(** a tie goes to the larger witness *)
Lemma heur64_tie (k r w : nat) :
  weights !! k = Some w → (w ≤ r)%nat →
  (Rounded.heur_dp order weights profits k (r - w)).1 ≠ NInf →
  Rounded.candidate (order k (r - w)%nat) profits k
    (Rounded.heur_dp order weights profits k (r - w)).1
    (Rounded.heur_dp order weights profits k (r - w)).2
  = (Rounded.heur_dp order weights profits k r).1 →
  Rounded.heur_dp order weights profits (S k) r
  = ((Rounded.heur_dp order weights profits k r).1,
     if decide (length (Rounded.heur_dp order weights profits k r).2
                < length (set_add k
                            (Rounded.heur_dp order weights profits k (r - w)).2))%nat
     then set_add k (Rounded.heur_dp order weights profits k (r - w)).2
     else (Rounded.heur_dp order weights profits k r).2).
Proof.
  intros Hw Hle Hfeas Htie. cbn [Rounded.heur_dp]. rewrite Hw.
  destruct (decide (w ≤ r)%nat); [|lia].
  rewrite (set_add_fresh k _ (heur64_items k (r - w))), length_app.
  simpl length. rewrite Htie. unfold updates.
  rewrite flt_irrefl, (bool_decide_eq_true_2 (_ = _)) by done. simpl.
  destruct (Rounded.heur_dp order weights profits k (r - w)).1; [done| |];
    (destruct (decide _);
     [by rewrite bool_decide_eq_true_2
     | rewrite bool_decide_eq_false_2 by done;
       by destruct (Rounded.heur_dp order weights profits k r)]).
Qed.
End RoundedCells.

(** ** The include candidate *)

Section Candidate.
Variables (n : nat) (profits : list (list Z)).
Hypothesis Hcov : covers n profits.

Lemma accumulate64_outcome (i : nat) (l : list nat) (acc : float64) :
  (i < n)%nat → Forall (λ j, j < n)%nat l →
  outcome
    (λ c, c = fold_left (λ a j, fadd a (Rounded.entry64 profits i j)) l acc)
    (¬ convertible n profits)
    (for_each (λ a j, v <- pget profits i j ;; v <- to_float v ;; Ok (fadd a v))
       l acc).
Proof.
  intros Hi. revert acc. induction l as [|j l IH]; intros acc Hl; simpl; [done|].
  apply Forall_cons in Hl as [Hj Hl]. rewrite (Hcov i j Hi Hj). simpl.
  destruct (to_float (entry profits i j)) as [f|e] eqn:Hf; simpl.
  - rewrite (to_float_entry64 _ _ _ _ Hf). by apply IH.
  - intros Hconv. destruct (Hconv i j Hi Hj) as [f Hf']. congruence.
Qed.

Lemma include_candidate_outcome (iter : list nat → list nat) (i : nat)
    (prev : float64 * list nat) :
  (i < n)%nat → Forall (λ j, j < n)%nat (iter prev.2) →
  outcome (λ c, c = Rounded.candidate iter profits i prev.1 prev.2)
    (¬ convertible n profits)
    (include_candidate iter profits i prev).
Proof.
  intros Hi Hl. unfold include_candidate, Rounded.candidate.
  rewrite (Hcov i i Hi Hi). simpl.
  destruct (to_float (entry profits i i)) as [f|e] eqn:Hf; simpl.
  - rewrite (to_float_entry64 _ _ _ _ Hf). by apply accumulate64_outcome.
  - intros Hconv. destruct (Hconv i i Hi Hi) as [f Hf']. congruence.
Qed.
End Candidate.

(** *** Filling a table row by row, when a step may raise *)

Section FillOutcome.
Context {V : Type}.
Variables (n capacity : nat).
Variable step : nat → list (list (V * list nat)) → nat
                → result (list (list (V * list nat))).
Variable cellf : nat → nat → V * list nat.
Variable Q : Prop.

Hypothesis step_outcome : ∀ k r t,
  (1 ≤ k ≤ n)%nat → (r ≤ capacity)%nat →
  shape (n + 1) (capacity + 1) t →
  (∀ r', (r' ≤ capacity)%nat → tget t (k - 1) r' = Ok (cellf (k - 1) r')) →
  outcome
    (λ t', shape (n + 1) (capacity + 1) t'
           ∧ tget t' k r = Ok (cellf k r)
           ∧ ∀ k' r', k' ≠ k ∨ r' ≠ r → tget t' k' r' = tget t k' r')
    Q (step k t r).

Lemma fill_row_outcome (k : nat) (t : list (list (V * list nat))) :
  (1 ≤ k ≤ n)%nat → filled (n + 1) (capacity + 1) cellf (k - 1) t →
  outcome (filled (n + 1) (capacity + 1) cellf k) Q
    (for_each (step k) (range 0 (capacity + 1)) t).
Proof.
  intros Hk [Hshape Hrows].
  eapply outcome_impl.
  - apply (for_each_outcome
      (λ j t', shape (n + 1) (capacity + 1) t'
               ∧ (∀ k' r, (k' ≤ k - 1)%nat → (r < capacity + 1)%nat →
                          tget t' k' r = Ok (cellf k' r))
               ∧ (∀ r, (r < j)%nat → tget t' k r = Ok (cellf k r)))).
    + split; [done|]. split; [done|]. intros r Hr. lia.
    + intros j x t1 Hx (Hs1 & Hlow1 & Hrow1).
      assert (j < capacity + 1)%nat as Hj.
      { apply lookup_lt_Some in Hx. by rewrite length_range in Hx; lia. }
      rewrite lookup_range in Hx by lia. injection Hx as <-. simpl.
      eapply outcome_impl.
      * apply (step_outcome k j t1); [lia | lia | done |].
        intros r' Hr'. apply Hlow1; lia.
      * intros t2 (Hs2 & Hnew & Hold). split; [done|]. split.
        -- intros k' r Hk' Hr. rewrite Hold by (left; lia). by apply Hlow1.
        -- intros r Hr. destruct (decide (r = j)) as [->|Hne]; [done|].
           rewrite Hold by (by right). apply Hrow1. lia.
  - intros t' (Hs & Hlow & Hrow). split; [done|].
    intros k' r Hk' Hr. destruct (decide (k' = k)) as [->|Hne].
    + apply Hrow. by rewrite length_range; lia.
    + apply Hlow; lia.
Qed.

Lemma fill_rows_outcome (upto : nat) (t : list (list (V * list nat))) :
  (upto ≤ n)%nat → filled (n + 1) (capacity + 1) cellf 0 t →
  outcome (filled (n + 1) (capacity + 1) cellf upto) Q
    (for_each (λ t k, for_each (step k) (range 0 (capacity + 1)) t)
       (range 1 (upto + 1)) t).
Proof.
  intros Hupto H0.
  eapply outcome_impl.
  - apply (for_each_outcome (λ j t', filled (n + 1) (capacity + 1) cellf j t'));
      [done|].
    intros j x t1 Hx H1.
    assert (j < upto)%nat as Hj.
    { apply lookup_lt_Some in Hx. by rewrite length_range in Hx; lia. }
    rewrite lookup_range in Hx by lia. injection Hx as <-.
    apply fill_row_outcome; [lia|]. replace (S j - 1)%nat with j by lia. exact H1.
  - intros t'. rewrite length_range.
    by replace (upto + 1 - 1)%nat with upto by lia.
Qed.
End FillOutcome.

(** ** Heuristic A computes the cells *)

Section HeuristicARefines.
Variables (order : nat → nat → list nat → list nat) (weights : list nat)
  (profits : list (list Z)) (capacity : nat).
Hypothesis Hcov : covers (length weights) profits.
Hypothesis Hord : valid_order order.

Lemma algo2_step_outcome (k r : nat) (t : list (list (float64 * list nat))) :
  (1 ≤ k ≤ length weights)%nat → (r ≤ capacity)%nat →
  shape (length weights + 1) (capacity + 1) t →
  (∀ r', (r' ≤ capacity)%nat →
         tget t (k - 1) r'
         = Ok (Rounded.heur_dp order weights profits (k - 1) r')) →
  outcome
    (λ t', shape (length weights + 1) (capacity + 1) t'
           ∧ tget t' k r = Ok (Rounded.heur_dp order weights profits k r)
           ∧ ∀ k' r', k' ≠ k ∨ r' ≠ r → tget t' k' r' = tget t k' r')
    (¬ convertible (length weights) profits)
    (HeuristicA.step order weights profits k t r).
Proof.
  intros Hk Hr Hshape Hprev. destruct k as [|i]; [lia|].
  replace (S i - 1)%nat with i in * by lia.
  unfold HeuristicA.step. replace (S i - 1)%nat with i by lia.
  run (Hprev r Hr).
  destruct (tset_spec _ _ t (S i) r (Rounded.heur_dp order weights profits i r)
              Hshape) as (t1 & Hset1 & Hshape1 & Hnew1 & Hold1); [lia | lia |].
  run Hset1.
  destruct (weights_at weights i) as (w & Hw & Hwi); [lia|]. run Hw.
  cbn [Rounded.heur_dp]. rewrite Hwi.
  destruct (decide (w ≤ r)%nat) as [Hle|]; [|done].
  rewrite Hold1 by (left; lia). run (Hprev (r - w)%nat ltac:(lia)).
  pose proof (include_candidate_outcome (length weights) profits Hcov
    (order i (r - w)%nat) i (Rounded.heur_dp order weights profits i (r - w))
    ltac:(lia)) as Hcand.
  assert (Forall (λ j, j < length weights)%nat
            (order i (r - w)%nat
               (Rounded.heur_dp order weights profits i (r - w)).2)) as Hread.
  { rewrite (Hord i (r - w)%nat).
    eapply Forall_impl; [apply heur64_items|]. simpl. lia. }
  specialize (Hcand Hread).
  assert (outcome
    (λ t', shape (length weights + 1) (capacity + 1) t'
       ∧ tget t' (S i) r
         = Ok (let cand := Rounded.candidate (order i (r - w)%nat) profits i
                 (Rounded.heur_dp order weights profits i (r - w)).1
                 (Rounded.heur_dp order weights profits i (r - w)).2 in
               if updates cand
                    (length (Rounded.heur_dp order weights profits i (r - w)).2)
                    (Rounded.heur_dp order weights profits i r)
               then (cand, set_add i
                             (Rounded.heur_dp order weights profits i (r - w)).2)
               else Rounded.heur_dp order weights profits i r)
       ∧ ∀ k' r', k' ≠ S i ∨ r' ≠ r → tget t' k' r' = tget t k' r')
    (¬ convertible (length weights) profits)
    (current_profit <-
       include_candidate (order i (r - w)%nat) profits i
         (Rounded.heur_dp order weights profits i (r - w)) ;;
     cur <- tget t1 (S i) r ;;
     if updates current_profit
          (length (Rounded.heur_dp order weights profits i (r - w)).2) cur
     then tset t1 (S i) r
            (current_profit,
             set_add i (Rounded.heur_dp order weights profits i (r - w)).2)
     else Ok t1)) as Hinclude.
  { destruct (include_candidate _ _ _ _) as [c|e]; simpl in *; [|done].
    subst c. run Hnew1. cbn zeta. destruct (updates _ _ _); [|done].
    destruct (tset_spec _ _ t1 (S i) r
      (Rounded.candidate (order i (r - w)%nat) profits i
         (Rounded.heur_dp order weights profits i (r - w)).1
         (Rounded.heur_dp order weights profits i (r - w)).2,
       set_add i (Rounded.heur_dp order weights profits i (r - w)).2) Hshape1)
      as (t2 & Hset2 & Hshape2 & Hnew2 & Hold2); [lia | lia |].
    rewrite Hset2. simpl. split; [done|]. split; [done|].
    intros k' r' Hne. rewrite Hold2 by done. by apply Hold1. }
  destruct (Rounded.heur_dp order weights profits i (r - w)).1; [done| |];
    exact Hinclude.
Qed.

Lemma algo2_init :
  ∃ t, HeuristicA.init (length weights) capacity = Ok t
       ∧ filled (length weights + 1) (capacity + 1)
           (Rounded.heur_dp order weights profits) 0 t.
Proof.
  unfold HeuristicA.init.
  destruct (tset_spec (length weights + 1) (capacity + 1)
    (full (length weights + 1) (capacity + 1) NInf) 0 0 (Finite 0, []))
    as (t & Hset & Hshape & Hnew & Hold); [apply shape_full | lia | lia |].
  exists t. split; [done|]. split; [done|].
  intros k r Hk Hr. replace k with 0%nat by lia. simpl.
  destruct (decide (r = 0)%nat) as [->|Hne]; [done|].
  rewrite Hold by (by right). apply tget_full; lia.
Qed.

Lemma algo2_fill_outcome (upto : nat) :
  (upto ≤ length weights)%nat →
  outcome
    (filled (length weights + 1) (capacity + 1)
       (Rounded.heur_dp order weights profits) upto)
    (¬ convertible (length weights) profits)
    (HeuristicA.fill_upto order weights profits capacity upto).
Proof.
  intros Hupto. unfold HeuristicA.fill_upto.
  destruct algo2_init as (t0 & Hinit & H0). run Hinit.
  by apply (fill_rows_outcome (length weights) capacity
              (HeuristicA.step order weights profits)
              (Rounded.heur_dp order weights profits));
    [apply algo2_step_outcome | |].
Qed.

(** what [dp_heuristic_algo2] returns: the first maximum of the last row *)
Lemma algo2_outcome :
  outcome
    (λ res, ∃ r,
       best64 (Rounded.heur_dp order weights profits (length weights)) capacity r
       ∧ res = ((Rounded.heur_dp order weights profits (length weights) r).2,
                (Rounded.heur_dp order weights profits (length weights) r).1))
    (¬ convertible (length weights) profits)
    (HeuristicA.dp_heuristic_algo2 order weights profits capacity).
Proof.
  set (n := length weights).
  pose proof (algo2_fill_outcome n ltac:(done)) as Hfill.
  unfold HeuristicA.dp_heuristic_algo2, HeuristicA.fill. fold n.
  destruct (HeuristicA.fill_upto _ _ _ _ _) as [t|e]; simpl in *; [|done].
  destruct Hfill as [[Hlen Hrows] Hcells].
  destruct (at_index_lt t n) as (last & Hlast & Hlast'); [lia|]. run Hlast.
  assert (row_of (capacity + 1) (Rounded.heur_dp order weights profits n) last)
    as Hrow.
  { split; [by eapply Hrows|]. intros r Hr.
    destruct (proj1 (tget_ok t n r _) (Hcells n r ltac:(lia) Hr))
      as (row & Hrow & Hc).
    rewrite Hlast' in Hrow. by injection Hrow as <-. }
  destruct (row_argmax _ (capacity + 1) _ ltac:(lia) Hrow) as (r & Hbest & Harg & _).
  replace (capacity + 1 - 1)%nat with capacity in Hbest by lia.
  run Harg. pose proof Hbest as (Hr & _).
  run (Hcells n r ltac:(lia) ltac:(lia)). exists r. by split.
Qed.
End HeuristicARefines.

(** ** Heuristic B computes the same cells *)

Section HeuristicBRefines.
Variables (order : nat → nat → list nat → list nat) (weights : list nat)
  (profits : list (list Z)) (capacity : nat).
Hypothesis Hcov : covers (length weights) profits.
Hypothesis Hord : valid_order order.

(** inside a pass, the cell an include transition reads is still the cell of
    the previous item count *)
Lemma mid_pass_prev (k j w : nat) (st : list (float64 * list nat)) :
  (j < S capacity - w)%nat → mid_pass order weights profits capacity k j st →
  st !! (capacity - j - w)%nat
  = Some (Rounded.heur_dp order weights profits k (capacity - j - w))
  ∧ st !! (capacity - j)%nat
    = Some (Rounded.heur_dp order weights profits k (capacity - j)).
Proof.
  intros Hj [Hlen Hcells]. split.
  - rewrite Hcells by lia. destruct (decide _); [lia | done].
  - rewrite Hcells by lia. destruct (decide _); [lia | done].
Qed.

Lemma algo3_step_outcome (k j w : nat) (st : list (float64 * list nat)) :
  (k < length weights)%nat → weights !! k = Some w →
  (j < S capacity - w)%nat → mid_pass order weights profits capacity k j st →
  outcome (mid_pass order weights profits capacity k (S j))
    (¬ convertible (length weights) profits)
    (HeuristicB.step order weights profits k st (capacity - j)).
Proof.
  intros Hk Hw Hj Hmid. destruct (mid_pass_prev k j w st Hj Hmid) as [Hprev Hcur].
  destruct Hmid as [Hlen Hcells]. set (r := (capacity - j)%nat) in *.
  assert (mid_pass order weights profits capacity k (S j)
            (<[r := Rounded.heur_dp order weights profits (S k) r]> st))
    as Hupd.
  { split; [by rewrite length_insert|]. intros r' Hr'.
    destruct (decide (r' = r)) as [->|Hne].
    - rewrite list_lookup_insert_eq by lia.
      destruct (decide _); [done | lia].
    - rewrite list_lookup_insert_ne by done. rewrite Hcells by done.
      destruct (decide _), (decide _); try done; lia. }
  assert (Rounded.heur_dp order weights profits (S k) r
          = Rounded.heur_dp order weights profits k r →
          mid_pass order weights profits capacity k (S j) st) as Hsame.
  { intros Heq. rewrite Heq in Hupd. by rewrite list_insert_id in Hupd. }
  unfold HeuristicB.step. run (proj2 (at_index_ok _ _ _) Hw).
  run (proj2 (at_index_ok _ _ _) Hprev).
  cbn [Rounded.heur_dp] in Hupd, Hsame. rewrite Hw in Hupd, Hsame.
  destruct (decide (w ≤ r)%nat) as [_|]; [|lia].
  pose proof (include_candidate_outcome (length weights) profits Hcov
    (order k (r - w)%nat) k (Rounded.heur_dp order weights profits k (r - w))
    Hk) as Hcand.
  assert (Forall (λ i, i < length weights)%nat
            (order k (r - w)%nat
               (Rounded.heur_dp order weights profits k (r - w)).2)) as Hread.
  { rewrite (Hord k (r - w)%nat).
    eapply Forall_impl; [apply heur64_items|]. simpl. lia. }
  specialize (Hcand Hread).
  assert (
    (let cand := Rounded.candidate (order k (r - w)%nat) profits k
                   (Rounded.heur_dp order weights profits k (r - w)).1
                   (Rounded.heur_dp order weights profits k (r - w)).2 in
     mid_pass order weights profits capacity k (S j)
       (<[r := if updates cand
                    (length (Rounded.heur_dp order weights profits k (r - w)).2)
                    (Rounded.heur_dp order weights profits k r)
               then (cand, set_add k
                             (Rounded.heur_dp order weights profits k (r - w)).2)
               else Rounded.heur_dp order weights profits k r]> st)) →
    outcome (mid_pass order weights profits capacity k (S j))
      (¬ convertible (length weights) profits)
      (current_profit <-
         include_candidate (order k (r - w)%nat) profits k
           (Rounded.heur_dp order weights profits k (r - w)) ;;
       cur <- at_index st r ;;
       if updates current_profit
            (length (Rounded.heur_dp order weights profits k (r - w)).2) cur
       then HeuristicB.rset st r
              (current_profit,
               set_add k (Rounded.heur_dp order weights profits k (r - w)).2)
       else Ok st)) as Hinclude.
  { intros Hnew. destruct (include_candidate _ _ _ _) as [c|e]; simpl in *; [|done].
    subst c. run (proj2 (at_index_ok _ _ _) Hcur).
    destruct (updates _ _ _).
    - unfold HeuristicB.rset. run (proj2 (at_index_ok _ _ _) Hcur). exact Hnew.
    - by rewrite list_insert_id in Hnew. }
  destruct (Rounded.heur_dp order weights profits k (r - w)).1;
    [by apply Hsame | by apply Hinclude | by apply Hinclude].
Qed.

Lemma algo3_steps_outcome (k j w : nat) (st : list (float64 * list nat)) :
  (k < length weights)%nat → weights !! k = Some w →
  (j ≤ S capacity - w)%nat →
  row_of (capacity + 1) (Rounded.heur_dp order weights profits k) st →
  outcome (mid_pass order weights profits capacity k j)
    (¬ convertible (length weights) profits)
    (for_each (HeuristicB.step order weights profits k)
       (take j (range_down capacity w)) st).
Proof.
  intros Hk Hw Hj [Hlen Hcells].
  assert (length (take j (range_down capacity w)) = j) as Htake.
  { rewrite length_take, length_range_down. lia. }
  rewrite <- Htake at 1.
  apply (for_each_outcome (mid_pass order weights profits capacity k)).
  - split; [done|]. intros r Hr. rewrite Hcells by done.
    destruct (decide _); [lia | done].
  - intros i x st1 Hx H1.
    pose proof (lookup_lt_Some _ _ _ Hx) as Hi. rewrite Htake in Hi.
    rewrite lookup_take_lt, lookup_range_down in Hx by lia.
    injection Hx as <-. apply (algo3_step_outcome k i w); [done | done | lia | done].
Qed.

Lemma algo3_pass_outcome (k : nat) (st : list (float64 * list nat)) :
  (k < length weights)%nat →
  row_of (capacity + 1) (Rounded.heur_dp order weights profits k) st →
  outcome (row_of (capacity + 1) (Rounded.heur_dp order weights profits (S k)))
    (¬ convertible (length weights) profits)
    (HeuristicB.pass order weights profits capacity st k).
Proof.
  intros Hk Hrow. unfold HeuristicB.pass.
  destruct (weights_at weights k Hk) as (w & Hw & Hwk). run Hw.
  pose proof (algo3_steps_outcome k (S capacity - w) w st Hk Hwk ltac:(lia) Hrow)
    as Hsteps.
  rewrite take_ge in Hsteps by (rewrite length_range_down; lia).
  eapply outcome_impl; [exact Hsteps|].
  intros st' [Hlen Hcells]. split; [done|].
  intros r Hr. rewrite Hcells by done.
  destruct (decide _) as [|Hlow]; [done|].
  cbn [Rounded.heur_dp]. rewrite Hwk. destruct (decide _); [lia | done].
Qed.

Lemma algo3_init :
  ∃ st, HeuristicB.init capacity = Ok st
        ∧ row_of (capacity + 1) (Rounded.heur_dp order weights profits 0) st.
Proof.
  unfold HeuristicB.init, HeuristicB.rset.
  destruct (at_index_lt (replicate (capacity + 1) (NInf, @nil nat)) 0)
    as (c & Hc & _); [rewrite length_replicate; lia|]. run Hc.
  eexists. split; [done|].
  split; [by rewrite length_insert, length_replicate|].
  intros r Hr. simpl. destruct (decide (r = 0)%nat) as [->|Hne].
  - apply list_lookup_insert_eq. rewrite length_replicate. lia.
  - rewrite list_lookup_insert_ne by done. by apply lookup_replicate_2.
Qed.

Lemma algo3_after_outcome (upto : nat) :
  (upto ≤ length weights)%nat →
  outcome (row_of (capacity + 1) (Rounded.heur_dp order weights profits upto))
    (¬ convertible (length weights) profits)
    (HeuristicB.after order weights profits capacity upto).
Proof.
  intros Hupto. unfold HeuristicB.after.
  destruct algo3_init as (st0 & Hinit & H0). run Hinit.
  eapply outcome_impl.
  - apply (for_each_outcome
      (λ j st, row_of (capacity + 1) (Rounded.heur_dp order weights profits j) st));
      [done|].
    intros j x st1 Hx H1.
    pose proof (lookup_lt_Some _ _ _ Hx) as Hj. rewrite length_range in Hj.
    rewrite lookup_range in Hx by lia. injection Hx as <-. simpl.
    apply algo3_pass_outcome; [lia | done].
  - intros st. rewrite length_range. by replace (upto - 0)%nat with upto by lia.
Qed.

Lemma algo3_within_outcome (k j w : nat) :
  (k < length weights)%nat → weights !! k = Some w →
  (j ≤ S capacity - w)%nat →
  outcome (mid_pass order weights profits capacity k j)
    (¬ convertible (length weights) profits)
    (HeuristicB.within order weights profits capacity k j).
Proof.
  intros Hk Hw Hj. unfold HeuristicB.within.
  pose proof (algo3_after_outcome k ltac:(lia)) as Hafter.
  destruct (HeuristicB.after _ _ _ _ _) as [st|e]; cbn [bind outcome] in *; [|done].
  run (proj2 (at_index_ok _ _ _) Hw). by apply algo3_steps_outcome.
Qed.

(** what [dp_heuristic_algo3] returns: the first maximum of the final array *)
Lemma algo3_outcome :
  outcome
    (λ res, ∃ r,
       best64 (Rounded.heur_dp order weights profits (length weights)) capacity r
       ∧ res = ((Rounded.heur_dp order weights profits (length weights) r).2,
                (Rounded.heur_dp order weights profits (length weights) r).1))
    (¬ convertible (length weights) profits)
    (HeuristicB.dp_heuristic_algo3 order weights profits capacity).
Proof.
  set (n := length weights).
  pose proof (algo3_after_outcome n ltac:(done)) as Hafter.
  unfold HeuristicB.dp_heuristic_algo3. fold n.
  destruct (HeuristicB.after _ _ _ _ _) as [st|e]; cbn [bind outcome] in *; [|done].
  destruct (row_argmax _ (capacity + 1) _ ltac:(lia) Hafter)
    as (r & Hbest & Harg & Hmax).
  replace (capacity + 1 - 1)%nat with capacity in Hbest by lia.
  run Hmax. run Harg. pose proof Hbest as (Hr & _).
  destruct Hafter as [_ Hcells].
  run (proj2 (at_index_ok _ _ _) (Hcells r ltac:(lia))). exists r. by split.
Qed.
End HeuristicBRefines.

(** ** Within the exact range the heuristics compute the specification's
    recurrence *)

Section ExactRange.
Variables (order : nat → nat → list nat → list nat) (weights : list nat)
  (profits : list (list Z)).
Hypothesis Hexact : exact_range (length weights) profits.
Hypothesis Hord : valid_order order.

Lemma sound_witness_bound (k r : nat) (v : Z) (s : list nat) :
  (k ≤ length weights)%nat → sound_witness weights profits k r v s →
  Z.abs v ≤ sumZ (rowmass (length weights) profits) s
  ∧ Z.abs v ≤ 2 ^ 53.
Proof.
  intros Hk (Hlt & Hnd & _ & ->).
  assert (Forall (λ i, i < length weights)%nat s) as Hlt'.
  { eapply Forall_impl; [exact Hlt|]. simpl. lia. }
  pose proof (engine_profit_bound (length weights) profits s Hnd Hlt').
  pose proof (rows_bound (length weights) profits s Hnd Hlt').
  unfold exact_range in Hexact. lia.
Qed.

Lemma heur64_exact (k r : nat) :
  (k ≤ length weights)%nat →
  Rounded.heur_dp order weights profits k r
  = stored (Spec.heur_dp weights profits k r).
Proof.
  revert r. induction k as [|k IH]; intros r Hk.
  - simpl. unfold stored. simpl. by destruct (decide _).
  - cbn [Rounded.heur_dp Spec.heur_dp].
    rewrite (IH r) by lia.
    destruct (weights !! k) as [w|] eqn:Hw; [|done].
    destruct (decide (w ≤ r)%nat) as [Hle|]; [|done].
    rewrite (IH (r - w)%nat) by lia. cbn [stored fst snd].
    destruct (Spec.heur_dp weights profits k (r - w)).1 as [|d] eqn:Hd;
      cbn [of_ext]; [done|].
    pose proof (heur_dp_sound weights profits k (r - w) d Hd) as Hsound.
    destruct (sound_witness_bound k (r - w) d _ ltac:(lia) Hsound) as [Hb _].
    destruct Hsound as (Hlt & Hnd & _ & _).
    rewrite (candidate_exact (length weights) profits Hexact) by (done || lia).
    change (of_ext (Spec.heur_dp weights profits k r).1,
            (Spec.heur_dp weights profits k r).2)
      with (stored (Spec.heur_dp weights profits k r)).
    rewrite updates_stored. by destruct (overwrites _ _ _).
Qed.

Lemma best64_exact (capacity r : nat) :
  best64 (Rounded.heur_dp order weights profits (length weights)) capacity r
  → best weights profits capacity r.
Proof.
  intros (Hr & Hge & Hfirst). split; [done|]. split.
  - intros r' Hr'. specialize (Hge r' Hr').
    rewrite !heur64_exact in Hge by done. by rewrite <- flt_of_ext.
  - intros r' Hr'. specialize (Hfirst r' Hr').
    rewrite !heur64_exact in Hfirst by done. by rewrite <- flt_of_ext.
Qed.
End ExactRange.

(** the maximum is a genuine profit, at least that of the state at capacity 0 *)
Lemma best_feasible (weights : list nat) (profits : list (list Z)) (capacity r : nat) :
  best weights profits capacity r →
  ∃ v, (Spec.heur_dp weights profits (length weights) r).1 = Fin v ∧ 0 ≤ v.
Proof.
  intros (Hr & Hge & _).
  destruct (heur_dp_zero weights profits (length weights)) as (v0 & Hv0 & Hpos).
  specialize (Hge 0%nat ltac:(lia)). rewrite Hv0 in Hge.
  destruct (Spec.heur_dp weights profits (length weights) r).1 as [|v];
    simpl in Hge; [done|].
  apply bool_decide_eq_false in Hge. exists v. split; [done | lia].
Qed.

Lemma best_unique (weights : list nat) (profits : list (list Z)) (capacity r1 r2 : nat) :
  best weights profits capacity r1 → best weights profits capacity r2 → r1 = r2.
Proof.
  intros (Hr1 & Hge1 & Hfirst1) (Hr2 & Hge2 & Hfirst2).
  destruct (Nat.lt_trichotomy r1 r2) as [Hlt|[Heq|Hgt]]; [|done|].
  - specialize (Hfirst2 r1 Hlt). specialize (Hge1 r2 Hr2). congruence.
  - specialize (Hfirst1 r2 Hgt). specialize (Hge2 r1 Hr1). congruence.
Qed.

(** ** What the engines return within the exact range *)

Section ExactResults.
Variables (weights : list nat) (profits : list (list Z)) (capacity : nat).
Hypothesis Hcov : covers (length weights) profits.
Hypothesis Hexact : exact_range (length weights) profits.

Lemma heuristic_exact (order : nat → nat → list nat → list nat)
    (res : result (list nat * float64)) :
  valid_order order →
  outcome
    (λ res, ∃ r,
       best64 (Rounded.heur_dp order weights profits (length weights)) capacity r
       ∧ res = ((Rounded.heur_dp order weights profits (length weights) r).2,
                (Rounded.heur_dp order weights profits (length weights) r).1))
    (¬ convertible (length weights) profits) res →
  ∃ r v, best weights profits capacity r
    ∧ (Spec.heur_dp weights profits (length weights) r).1 = Fin v ∧ 0 ≤ v
    ∧ res = Ok ((Spec.heur_dp weights profits (length weights) r).2, Finite v).
Proof.
  intros Hord Hout.
  destruct (outcome_returns _ _ _ Hout) as (a & -> & r & Hbest & ->).
  { intros Hno. apply Hno. by apply exact_range_convertible. }
  apply (best64_exact order weights profits Hexact Hord) in Hbest.
  destruct (best_feasible _ _ _ _ Hbest) as (v & Hv & Hpos).
  exists r, v. split; [done|]. split; [done|]. split; [done|].
  rewrite (heur64_exact order weights profits Hexact Hord) by done.
  unfold stored. by rewrite Hv.
Qed.

Lemma algo2_exact (order : nat → nat → list nat → list nat) :
  valid_order order →
  ∃ r v, best weights profits capacity r
    ∧ (Spec.heur_dp weights profits (length weights) r).1 = Fin v ∧ 0 ≤ v
    ∧ HeuristicA.dp_heuristic_algo2 order weights profits capacity
      = Ok ((Spec.heur_dp weights profits (length weights) r).2, Finite v).
Proof.
  intros Hord. apply (heuristic_exact order); [done|]. by apply algo2_outcome.
Qed.

Lemma algo3_exact (order : nat → nat → list nat → list nat) :
  valid_order order →
  ∃ r v, best weights profits capacity r
    ∧ (Spec.heur_dp weights profits (length weights) r).1 = Fin v ∧ 0 ≤ v
    ∧ HeuristicB.dp_heuristic_algo3 order weights profits capacity
      = Ok ((Spec.heur_dp weights profits (length weights) r).2, Finite v).
Proof.
  intros Hord. apply (heuristic_exact order); [done|]. by apply algo3_outcome.
Qed.
End ExactResults.

(** ** What the exact engine returns *)

Lemma classical_result (weights : list nat) (profits : list (list Z)) (capacity : nat) :
  covers (length weights) profits →
  ∃ r t, (r ≤ capacity)%nat
    ∧ Classical.fill weights profits capacity = Ok t
    ∧ filled (length weights + 1) (capacity + 1) (Spec.exact_dp weights profits)
        (length weights) t
    ∧ Classical.classical_dp_qkp weights profits capacity
      = (f <- to_float (Spec.exact_dp weights profits (length weights) r).1 ;;
         Ok ((Spec.exact_dp weights profits (length weights) r).2, Finite f))
    ∧ (∀ r', (r' ≤ capacity)%nat →
         (Spec.exact_dp weights profits (length weights) r').1
         ≤ (Spec.exact_dp weights profits (length weights) r).1)
    ∧ (∀ r', (r' < r)%nat →
         (Spec.exact_dp weights profits (length weights) r').1
         ≠ (Spec.exact_dp weights profits (length weights) r).1).
Proof.
  intros Hcov. set (n := length weights).
  destruct (classical_fill_upto weights profits capacity Hcov n) as (t & Hfill & Hf);
    [done|].
  pose proof Hf as [[Hlen Hrows] Hcells].
  destruct (at_index_lt t n) as (last & Hlast & Hlast'); [lia|].
  pose proof (Hrows _ _ Hlast') as Hll.
  assert (∀ r, (r ≤ capacity)%nat →
               last.*1 !! r = Some (Spec.exact_dp weights profits n r).1) as Hval.
  { intros r Hr. rewrite list_lookup_fmap.
    destruct (proj1 (tget_ok t n r _) (Hcells n r ltac:(lia) ltac:(lia)))
      as (row & Hrow & Hc).
    rewrite Hlast' in Hrow. injection Hrow as <-. by rewrite Hc. }
  destruct (py_max_spec last.*1) as (m & Hmax & Hin & Hall).
  { intros Hnil. apply (f_equal length) in Hnil.
    rewrite length_fmap in Hnil. simpl in Hnil. lia. }
  destruct (py_index_spec m last.*1 Hin) as (r & Hidx & Hr & Hfirst).
  assert (r ≤ capacity)%nat as Hrc.
  { apply lookup_lt_Some in Hr. rewrite length_fmap in Hr. lia. }
  pose proof Hr as Hr'. rewrite Hval in Hr' by done. injection Hr' as Hm.
  exists r, t. split; [done|]. split; [done|]. split; [done|]. split; [|split].
  - unfold Classical.classical_dp_qkp. fold n. unfold Classical.fill in *.
    fold n. run Hfill. run Hlast. run Hmax. run Hidx.
    run (Hcells n r ltac:(lia) ltac:(lia)). by rewrite Hm.
  - intros r' Hr'. rewrite Hm. apply Hall.
    eapply list_elem_of_lookup_2. by apply Hval.
  - intros r' Hr' Heq. apply (Hfirst r' Hr'). rewrite Hval by lia.
    by rewrite Heq, Hm.
Qed.

Lemma classical_exact (weights : list nat) (profits : list (list Z)) (capacity : nat) :
  covers (length weights) profits → exact_range (length weights) profits →
  ∃ r, (r ≤ capacity)%nat
    ∧ Classical.classical_dp_qkp weights profits capacity
      = Ok ((Spec.exact_dp weights profits (length weights) r).2,
            Finite (Spec.exact_dp weights profits (length weights) r).1)
    ∧ (∀ r', (r' ≤ capacity)%nat →
         (Spec.exact_dp weights profits (length weights) r').1
         ≤ (Spec.exact_dp weights profits (length weights) r).1).
Proof.
  intros Hcov Hexact.
  destruct (classical_result weights profits capacity Hcov)
    as (r & t & Hr & _ & _ & Hres & Hmax & _).
  exists r. split; [done|]. split; [|done]. rewrite Hres.
  destruct (exact_dp_sound weights profits (length weights) r) as [Hsound _].
  destruct (sound_witness_bound weights profits Hexact _ _ _ _ ltac:(done) Hsound)
    as [_ Hb].
  by rewrite to_float_exact.
Qed.
(** ** The validator *)

Lemma accumulate_ok {A : Type} (g : A → result Z) (f : A → Z) (l : list A) (acc : Z) :
  (∀ x, x ∈ l → g x = Ok (f x)) →
  for_each (λ acc x, v <- g x ;; Ok (acc + v)) l acc = Ok (acc + sumZ f l).
Proof.
  revert acc. induction l as [|x l IH]; intros acc H; simpl.
  - f_equal. lia.
  - rewrite (H x) by left. simpl. rewrite IH.
    + f_equal. lia.
    + intros y Hy. apply H. by right.
Qed.

Lemma total_weight_ok (weights : list nat) (l : list nat) (acc : nat) :
  Forall (λ i, i < length weights)%nat l →
  for_each (λ acc i, w <- at_index weights i ;; Ok (acc + w)%nat) l acc
  = Ok (acc + set_weight weights l)%nat.
Proof.
  revert acc. induction l as [|i l IH]; intros acc H; simpl.
  - f_equal. lia.
  - apply Forall_cons in H as [Hi Hl].
    destruct (weights_at weights i Hi) as (w & -> & Hw). simpl.
    rewrite IH by done. rewrite Hw. simpl. f_equal. lia.
Qed.

Lemma elem_of_combinations2 (l : list nat) (i j : nat) :
  (i, j) ∈ combinations2 l → i ∈ l ∧ j ∈ l.
Proof.
  induction l as [|x l IH]; simpl; [by intros ?%elem_of_nil|].
  intros [Hin|Hin]%elem_of_app.
  - apply list_elem_of_fmap in Hin as (y & [= -> ->] & Hy).
    split; [by left | by right].
  - destruct (IH Hin). split; by right.
Qed.

Lemma elem_of_combinations2_cons (x : nat) (l : list nat) (i j : nat) :
  (i, j) ∈ combinations2 (x :: l) ↔ (i = x ∧ j ∈ l) ∨ (i, j) ∈ combinations2 l.
Proof.
  simpl. rewrite elem_of_app. split; (intros [H|H]; [left | by right]).
  - by apply list_elem_of_fmap in H as (y & [= -> ->] & Hy).
  - destruct H as [-> Hj]. apply list_elem_of_fmap. by exists j.
Qed.

(** every unordered pair of distinct members occurs in exactly one order, once *)
Lemma combinations2_pairs (l : list nat) :
  NoDup l →
  NoDup (combinations2 l)
  ∧ (∀ i j, (i, j) ∈ combinations2 l → i ∈ l ∧ j ∈ l ∧ i ≠ j)
  ∧ (∀ i j, i ∈ l → j ∈ l → i ≠ j →
            (i, j) ∈ combinations2 l ↔ (j, i) ∉ combinations2 l).
Proof.
  induction l as [|x l IH]; intros Hnd.
  - split; [constructor|]. split; [by intros i j ?%elem_of_nil|].
    by intros i j ?%elem_of_nil.
  - apply NoDup_cons in Hnd as [Hx Hl].
    destruct (IH Hl) as (Hnd & Hmem & Hxor). split; [|split].
    + simpl. apply NoDup_app. split; [|split; [|done]].
      * by apply (NoDup_fmap_2 _).
      * intros [i j] Hin Hin'.
        apply list_elem_of_fmap in Hin as (y & [= -> ->] & Hy).
        by apply elem_of_combinations2 in Hin' as [? _].
    + intros i j [[-> Hj]|Hin]%elem_of_combinations2_cons.
      * split; [by left|]. split; [by right|]. by intros ->.
      * destruct (Hmem i j Hin) as (Hi & Hj & Hne).
        split; [by right|]. split; [by right | done].
    + intros i j Hi Hj Hne. rewrite !elem_of_combinations2_cons.
      apply elem_of_cons in Hi as [->|Hi]; apply elem_of_cons in Hj as [->|Hj];
        try done.
      * split; [|by left].
        intros _ [[-> _]|[_ ?]%elem_of_combinations2]; [congruence | done].
      * split.
        -- intros [[-> _]|[_ ?]%elem_of_combinations2]; [congruence | done].
        -- intros H. exfalso. apply H. by left.
      * assert (i ≠ x ∧ j ≠ x) as [Hix Hjx] by (split; by intros ->).
        rewrite (Hxor i j Hi Hj Hne). split.
        -- intros [[-> _]|H] [[-> _]|H']; done.
        -- intros H. right. intros H'. apply H. by right.
Qed.

Lemma validator_ok (weights : list nat) (profits : list (list Z)) (capacity : nat)
    (l : list nat) :
  Forall (λ i, i < length weights)%nat l → covers (length weights) profits →
  compute_profit_and_items weights profits capacity l
  = Ok (if decide (capacity < set_weight weights l)%nat then (None, [])
        else (Some (validator_profit profits l), l)).
Proof.
  intros Hl Hcov. unfold compute_profit_and_items.
  rewrite total_weight_ok by done. cbn [bind]. simpl (0 + _)%nat.
  destruct (decide _); [done|].
  rewrite Forall_forall in Hl.
  rewrite (accumulate_ok _ (λ i, entry profits i i)); cbn [bind].
  2:{ intros i Hi. apply Hcov; by apply Hl. }
  rewrite (accumulate_ok _ (λ ij, entry profits ij.1 ij.2)); cbn [bind].
  2:{ intros [i j] [Hi Hj]%elem_of_combinations2. apply Hcov; by apply Hl. }
  done.
Qed.

(** *** The validator and the engines on a symmetric matrix *)

Lemma sumZ_filter {A : Type} (P : A → Prop) `{∀ x, Decision (P x)} (h : A → Z)
    (l : list A) :
  sumZ (λ x, if decide (P x) then h x else 0) l = sumZ h (filter P l).
Proof.
  induction l as [|x l IH]; simpl; [done|]. rewrite filter_cons.
  destruct (decide (P x)); simpl; rewrite IH; lia.
Qed.

Lemma sumZ_split (x : nat) (f : nat → Z) (l : list nat) :
  x ∉ l →
  sumZ f l
  = sumZ f (filter (λ j, j < x)%nat l) + sumZ f (filter (λ j, x < j)%nat l).
Proof.
  induction l as [|y l IH]; intros Hx; simpl; [done|].
  apply not_elem_of_cons in Hx as [Hne Hx]. rewrite !filter_cons, (IH Hx).
  destruct (decide (y < x)%nat), (decide (x < y)%nat); simpl; lia.
Qed.

Lemma engine_profit_cons (profits : list (list Z)) (x : nat) (l : list nat) :
  engine_profit profits (x :: l)
  = entry profits x x
    + sumZ (entry profits x) (filter (λ j, j < x)%nat l)
    + sumZ (λ i, entry profits i x) (filter (λ i, x < i)%nat l)
    + engine_profit profits l.
Proof.
  unfold engine_profit. simpl.
  rewrite filter_cons_False by lia.
  rewrite (sumZ_ext _ (λ i, (entry profits i i
      + sumZ (entry profits i) (filter (λ j, j < i)%nat l))
      + (if decide (x < i)%nat then entry profits i x else 0)) l).
  - rewrite sumZ_plus, (sumZ_filter (λ i, x < i)%nat). lia.
  - intros i _. rewrite filter_cons. destruct (decide (x < i)%nat); simpl; lia.
Qed.

Lemma validator_profit_cons (profits : list (list Z)) (x : nat) (l : list nat) :
  validator_profit profits (x :: l)
  = entry profits x x + sumZ (entry profits x) l + validator_profit profits l.
Proof.
  unfold validator_profit. simpl. rewrite sumZ_app, sumZ_map. simpl.
  change (sumZ (λ j, entry profits x j) l) with (sumZ (entry profits x) l). lia.
Qed.

Lemma validator_engine_profit (n : nat) (profits : list (list Z)) (l : list nat) :
  symmetric n profits → NoDup l → Forall (λ i, i < n)%nat l →
  validator_profit profits l = engine_profit profits l.
Proof.
  intros Hsym. induction l as [|x l IH]; intros Hnd Hlt; [done|].
  apply NoDup_cons in Hnd as [Hx Hnd]. apply Forall_cons in Hlt as [Hxn Hlt].
  rewrite validator_profit_cons, engine_profit_cons, (IH Hnd Hlt).
  rewrite (sumZ_split x (entry profits x) l Hx).
  rewrite (sumZ_ext (λ i, entry profits i x) (entry profits x)); [lia|].
  intros i [_ Hi]%list_elem_of_filter. rewrite Forall_forall in Hlt.
  apply Hsym; [by apply Hlt | done].
Qed.

Lemma engine_profit_perm (profits : list (list Z)) (l s : list nat) :
  l ≡ₚ s → engine_profit profits l = engine_profit profits s.
Proof.
  intros Hperm. unfold engine_profit. rewrite <- (sumZ_perm _ l s Hperm).
  apply sumZ_ext. intros i _. f_equal. apply sumZ_perm. by rewrite Hperm.
Qed.

Lemma sound_witness_validated (weights : list nat) (profits : list (list Z))
    (capacity k r : nat) (v : Z) (s : list nat) :
  square (length weights) profits → symmetric (length weights) profits →
  (k ≤ length weights)%nat → (r ≤ capacity)%nat →
  sound_witness weights profits k r v s →
  validated weights profits capacity s v.
Proof.
  intros Hsq Hsym Hk Hr (Hlt & Hnd & Hw & ->). split; [lia|].
  intros l Hperm.
  assert (Forall (λ i, i < length weights)%nat l) as Hl.
  { rewrite Hperm. eapply Forall_impl; [exact Hlt|]. simpl. lia. }
  rewrite validator_ok by (done || by apply square_covers).
  rewrite (set_weight_perm weights l s Hperm).
  destruct (decide _); [lia|].
  rewrite (validator_engine_profit (length weights)); [|done| |done].
  - by rewrite (engine_profit_perm profits l s Hperm).
  - by rewrite Hperm.
Qed.

(** ** The iteration order matters only for sets of two items or more *)

Lemma for_each_ext {St X : Type} (body body' : St → X → result St) (xs : list X)
    (s : St) :
  (∀ s x, body s x = body' s x) → for_each body xs s = for_each body' xs s.
Proof.
  intros Hext. revert s. induction xs as [|x xs IH]; intros s; simpl; [done|].
  rewrite Hext. destruct (body' s x); simpl; [apply IH | done].
Qed.

Section OrderExt.
Variables (order order' : nat → nat → list nat → list nat).
Hypothesis Hext : ∀ k r s, order k r s = order' k r s.
Variables (weights : list nat) (profits : list (list Z)) (capacity : nat).

Lemma algo2_step_ext (k : nat) (t : list (list (float64 * list nat))) (r : nat) :
  HeuristicA.step order weights profits k t r
  = HeuristicA.step order' weights profits k t r.
Proof.
  unfold HeuristicA.step.
  destruct (tget t (k - 1) r); [|done]. cbn [bind].
  destruct (tset t k r _) as [t1|]; [|done]. cbn [bind].
  destruct (at_index weights (k - 1)) as [w|]; [|done]. cbn [bind].
  destruct (decide _); [|done].
  destruct (tget t1 (k - 1) (r - w)) as [prev|]; [|done]. cbn [bind].
  unfold include_candidate. by rewrite Hext.
Qed.

Lemma algo2_ext :
  HeuristicA.dp_heuristic_algo2 order weights profits capacity
  = HeuristicA.dp_heuristic_algo2 order' weights profits capacity.
Proof.
  unfold HeuristicA.dp_heuristic_algo2, HeuristicA.fill, HeuristicA.fill_upto.
  destruct (HeuristicA.init _ _) as [t|]; [|done]. cbn [bind].
  rewrite (for_each_ext _ (HeuristicA.fill_row order' weights profits capacity));
    [done|].
  intros t1 k. apply for_each_ext, algo2_step_ext.
Qed.

Lemma algo3_step_ext (k : nat) (st : list (float64 * list nat)) (r : nat) :
  HeuristicB.step order weights profits k st r
  = HeuristicB.step order' weights profits k st r.
Proof.
  unfold HeuristicB.step.
  destruct (at_index weights k) as [w|]; [|done]. cbn [bind].
  destruct (at_index st (r - w)) as [prev|]; [|done]. cbn [bind].
  unfold include_candidate. by rewrite Hext.
Qed.

Lemma algo3_after_ext (upto : nat) :
  HeuristicB.after order weights profits capacity upto
  = HeuristicB.after order' weights profits capacity upto.
Proof.
  unfold HeuristicB.after.
  destruct (HeuristicB.init _) as [st|]; [|done]. cbn [bind].
  apply for_each_ext. intros st1 k. unfold HeuristicB.pass.
  destruct (at_index weights k); [|done]. cbn [bind].
  apply for_each_ext, algo3_step_ext.
Qed.

Lemma algo3_ext :
  HeuristicB.dp_heuristic_algo3 order weights profits capacity
  = HeuristicB.dp_heuristic_algo3 order' weights profits capacity.
Proof. unfold HeuristicB.dp_heuristic_algo3. by rewrite algo3_after_ext. Qed.
End OrderExt.

Lemma valid_order_small (order : nat → nat → list nat → list nat) :
  valid_order order → ∀ k r s, order k r s = small_order order k r s.
Proof.
  intros Hord k r s. pose proof (Hord k r s) as Hperm.
  destruct s as [|x [|y s]]; simpl;
    [by apply Permutation_nil_r | by apply Permutation_singleton_r | done].
Qed.

(** ** Instances where no item fits *)

Section NothingFits.
Variables (order : nat → nat → list nat → list nat) (weights : list nat)
  (profits : list (list Z)) (capacity : nat).
Hypothesis Hall : Forall (λ w, capacity < w)%nat weights.

Lemma exact_dp_nothing_fits (k r : nat) :
  (r ≤ capacity)%nat → Spec.exact_dp weights profits k r = (0, []).
Proof.
  intros Hr. induction k as [|k IH]; simpl; [done|].
  destruct (weights !! k) as [w|] eqn:Hw; [|done].
  pose proof (Forall_lookup_1 _ _ _ _ Hall Hw) as Hlt. simpl in Hlt.
  destruct (decide (w ≤ r)%nat); [lia | done].
Qed.

Lemma heur64_nothing_fits (k r : nat) :
  (r ≤ capacity)%nat →
  Rounded.heur_dp order weights profits k r
  = Rounded.heur_dp order weights profits 0 r.
Proof.
  intros Hr. induction k as [|k IH]; [done|]. cbn [Rounded.heur_dp].
  destruct (weights !! k) as [w|] eqn:Hw; [|done].
  pose proof (Forall_lookup_1 _ _ _ _ Hall Hw) as Hlt. simpl in Hlt.
  destruct (decide (w ≤ r)%nat); [lia | done].
Qed.

(** no include transition is attempted, so the profits are not read *)
Lemma algo2_step_nothing_fits (k r : nat) (t : list (list (float64 * list nat))) :
  (1 ≤ k ≤ length weights)%nat → (r ≤ capacity)%nat →
  shape (length weights + 1) (capacity + 1) t →
  (∀ r', (r' ≤ capacity)%nat →
         tget t (k - 1) r'
         = Ok (Rounded.heur_dp order weights profits (k - 1) r')) →
  ∃ t', HeuristicA.step order weights profits k t r = Ok t'
        ∧ shape (length weights + 1) (capacity + 1) t'
        ∧ tget t' k r = Ok (Rounded.heur_dp order weights profits k r)
        ∧ ∀ k' r', k' ≠ k ∨ r' ≠ r → tget t' k' r' = tget t k' r'.
Proof.
  intros Hk Hr Hshape Hprev. unfold HeuristicA.step. run (Hprev r Hr).
  destruct (tset_spec _ _ t k r (Rounded.heur_dp order weights profits (k - 1) r)
              Hshape) as (t1 & Hset1 & Hshape1 & Hnew1 & Hold1); [lia | lia |].
  run Hset1.
  destruct (weights_at weights (k - 1)) as (w & Hw & Hwi); [lia|]. run Hw.
  pose proof (Forall_lookup_1 _ _ _ _ Hall Hwi) as Hlt. simpl in Hlt.
  destruct (decide (w ≤ r)%nat); [lia|].
  exists t1. split; [done|]. split; [done|]. split; [|done].
  by rewrite Hnew1, (heur64_nothing_fits (k - 1) r), (heur64_nothing_fits k r).
Qed.

Lemma algo2_nothing_fits :
  HeuristicA.dp_heuristic_algo2 order weights profits capacity = Ok ([], Finite 0).
Proof.
  destruct (algo2_init order weights profits capacity) as (t0 & Hinit & H0).
  destruct (fill_rows_spec (length weights) capacity
              (HeuristicA.step order weights profits)
              (Rounded.heur_dp order weights profits) algo2_step_nothing_fits
              (length weights) t0 ltac:(done) H0)
    as (t & Hfill & [Hlen Hrows] & Hcells).
  unfold HeuristicA.dp_heuristic_algo2, HeuristicA.fill, HeuristicA.fill_upto.
  run Hinit. unfold HeuristicA.fill_row. run Hfill.
  destruct (at_index_lt t (length weights)) as (last & Hlast & Hlast'); [lia|].
  run Hlast.
  assert (row_of (capacity + 1) (Rounded.heur_dp order weights profits 0) last)
    as Hrow.
  { split; [by eapply Hrows|]. intros r Hr.
    destruct (proj1 (tget_ok t (length weights) r _)
                (Hcells (length weights) r ltac:(lia) Hr))
      as (row & Hrow & Hc).
    rewrite Hlast' in Hrow. injection Hrow as <-.
    by rewrite Hc, heur64_nothing_fits by lia. }
  destruct (row_argmax _ (capacity + 1) _ ltac:(lia) Hrow)
    as (r & (Hr & _ & Hfirst) & Harg & _).
  run Harg. run (Hcells (length weights) r ltac:(lia) ltac:(lia)).
  rewrite heur64_nothing_fits by lia.
  destruct r as [|r]; [done|]. specialize (Hfirst 0%nat ltac:(lia)). done.
Qed.

Lemma algo3_pass_nothing_fits (st : list (float64 * list nat)) (k : nat) :
  (k < length weights)%nat →
  HeuristicB.pass order weights profits capacity st k = Ok st.
Proof.
  intros Hk. unfold HeuristicB.pass.
  destruct (weights_at weights k Hk) as (w & Hw & Hwk). run Hw.
  pose proof (Forall_lookup_1 _ _ _ _ Hall Hwk) as Hlt. simpl in Hlt.
  unfold range_down. by replace (S capacity - w)%nat with 0%nat by lia.
Qed.

Lemma algo3_nothing_fits :
  HeuristicB.dp_heuristic_algo3 order weights profits capacity = Ok ([], Finite 0).
Proof.
  destruct (algo3_init order weights profits capacity) as (st0 & Hinit & Hrow).
  assert (HeuristicB.after order weights profits capacity (length weights) = Ok st0)
    as Hafter.
  { unfold HeuristicB.after. run Hinit.
    destruct (for_each_inv (λ _ st, st = st0)
                (HeuristicB.pass order weights profits capacity)
                (range 0 (length weights)) st0) as (st & Hrun & ->); [done| |done].
    intros j x st1 Hx ->.
    pose proof (lookup_lt_Some _ _ _ Hx) as Hj. rewrite length_range in Hj.
    rewrite lookup_range in Hx by lia. injection Hx as <-.
    exists st0. split; [apply algo3_pass_nothing_fits; lia | done]. }
  unfold HeuristicB.dp_heuristic_algo3. run Hafter.
  destruct (row_argmax _ (capacity + 1) _ ltac:(lia) Hrow)
    as (r & (Hr & _ & Hfirst) & Harg & Hmax).
  run Hmax. run Harg. destruct Hrow as [_ Hcells].
  run (proj2 (at_index_ok _ _ _) (Hcells r ltac:(lia))).
  destruct r as [|r]; [done|]. specialize (Hfirst 0%nat ltac:(lia)). done.
Qed.

Lemma classical_nothing_fits :
  covers (length weights) profits →
  Classical.classical_dp_qkp weights profits capacity = Ok ([], Finite 0).
Proof.
  intros Hcov.
  destruct (classical_result weights profits capacity Hcov)
    as (r & t & Hr & _ & _ & -> & _).
  by rewrite exact_dp_nothing_fits.
Qed.
End NothingFits.

(** * The claims *)

Lemma scenario1_square : square (length scenario1_weights) scenario1_profits.
Proof. split; [reflexivity | repeat constructor]. Qed.

Lemma scenario1_symmetric : symmetric (length scenario1_weights) scenario1_profits.
Proof.
  intros i j Hi Hj. simpl in Hi, Hj.
  destruct i as [|[|[|i]]]; try lia; destruct j as [|[|[|j]]]; try lia; reflexivity.
Qed.

Lemma scenario1_exact_range : exact_range (length scenario1_weights) scenario1_profits.
Proof. vm_compute. discriminate. Qed.

Lemma insertion_order_valid : valid_order insertion_order.
Proof. by intros k r s. Qed.

(** evaluates an engine on an instance where no set of two items or more is
    iterated, for an arbitrary iteration order *)
Ltac evaluate_for Hord :=
  rewrite ?(algo2_ext _ _ (valid_order_small _ Hord)),
    ?(algo3_ext _ _ (valid_order_small _ Hord)),
    ?(algo3_after_ext _ _ (valid_order_small _ Hord));
  vm_compute; reflexivity.

(** ** C1: engine–validator agreement *)




(** ** C2: the exact engine and its recurrence *)

(** C2, as stated, fails at the returned profit: [classical_dp_qkp] returns
    [float(max_profit)].  With the single weight 1, profits [[2^53 + 1]] and
    capacity 1 the maximum of the last row is 2^53 + 1 and the double
    returned is 2^53; with profits [[10^400]] the conversion raises
    [OverflowError]. *)
Lemma C2_counterexample :
  square 1 [[9007199254740993]]
  ∧ (∃ t, Classical.fill [1]%nat [[9007199254740993]] 1 = Ok t
          ∧ tget t 1 0 = Ok (0, [])
          ∧ tget t 1 1 = Ok (9007199254740993, [0]%nat))
  ∧ Classical.classical_dp_qkp [1]%nat [[9007199254740993]] 1
    = Ok ([0]%nat, Finite 9007199254740992)
  ∧ square 1 [[10 ^ 400]]
  ∧ Classical.classical_dp_qkp [1]%nat [[10 ^ 400]] 1 = Raise OverflowError.
Proof.
  split; [split; [reflexivity | repeat constructor]|].
  split; [eexists; split; [vm_compute; reflexivity|]; split; reflexivity|].
  split; [vm_compute; reflexivity|].
  split; [split; [reflexivity | repeat constructor]|].
  vm_compute. reflexivity.
Qed.

(** C2, as amended: [classical_dp_qkp] fills its table with exactly the cells
    of the specified recurrence [Spec.exact_dp] ([dp[0][r] = 0] with empty
    witness; the exclude candidate first, replaced by the include candidate,
    allowed when [r ≥ w_{k-1}], only when that is strictly greater), and
    returns the witness at the smallest capacity attaining the maximum of the
    last row together with [float] of that maximum: the maximum itself when
    it is at most 2^53 in absolute value, its nearest double otherwise, and
    [OverflowError] when it is beyond the float range. *)
Theorem C2_classical_recurrence (weights : list nat) (profits : list (list Z))
    (capacity : nat) :
  square (length weights) profits →
  ∃ t r,
    Classical.fill weights profits capacity = Ok t
    ∧ (∀ k r', (k ≤ length weights)%nat → (r' ≤ capacity)%nat →
               tget t k r' = Ok (Spec.exact_dp weights profits k r'))
    ∧ (r ≤ capacity)%nat
    ∧ Classical.classical_dp_qkp weights profits capacity
      = match round64 (Spec.exact_dp weights profits (length weights) r).1 with
        | Finite f =>
            Ok ((Spec.exact_dp weights profits (length weights) r).2, Finite f)
        | _ => Raise OverflowError
        end
    ∧ (Z.abs (Spec.exact_dp weights profits (length weights) r).1 ≤ 2 ^ 53 →
       Classical.classical_dp_qkp weights profits capacity
       = Ok ((Spec.exact_dp weights profits (length weights) r).2,
             Finite (Spec.exact_dp weights profits (length weights) r).1))
    ∧ (∀ r', (r' ≤ capacity)%nat →
         (Spec.exact_dp weights profits (length weights) r').1
         ≤ (Spec.exact_dp weights profits (length weights) r).1)
    ∧ (∀ r', (r' < r)%nat →
         (Spec.exact_dp weights profits (length weights) r').1
         < (Spec.exact_dp weights profits (length weights) r).1).
Proof.
  intros Hsq.
  destruct (classical_result weights profits capacity (square_covers _ _ Hsq))
    as (r & t & Hr & Hfill & [_ Hcells] & Hres & Hmax & Hfirst).
  exists t, r. split; [done|]. split; [|split; [done|split; [|split; [|split; [done|]]]]].
  - intros k r' Hk Hr'. apply Hcells; lia.
  - rewrite Hres. unfold to_float. by destruct (round64 _).
  - intros Hb. rewrite Hres. by rewrite to_float_exact.
  - intros r' Hr'. specialize (Hmax r' ltac:(lia)). specialize (Hfirst r' Hr'). lia.
Qed.

Lemma C2_witness :
  square (length scenario1_weights) scenario1_profits
  ∧ ∃ t r,
      Classical.fill scenario1_weights scenario1_profits 7 = Ok t
      ∧ (∀ k r', (k ≤ length scenario1_weights)%nat → (r' ≤ 7)%nat →
           tget t k r'
           = Ok (Spec.exact_dp scenario1_weights scenario1_profits k r'))
      ∧ (r ≤ 7)%nat
      ∧ Classical.classical_dp_qkp scenario1_weights scenario1_profits 7
        = match round64 (Spec.exact_dp scenario1_weights scenario1_profits
                           (length scenario1_weights) r).1 with
          | Finite f =>
              Ok ((Spec.exact_dp scenario1_weights scenario1_profits
                     (length scenario1_weights) r).2, Finite f)
          | _ => Raise OverflowError
          end.
Proof.
  split; [exact scenario1_square|].
  destruct (C2_classical_recurrence scenario1_weights scenario1_profits 7
              scenario1_square) as (t & r & Hfill & Hcells & Hr & Hres & _).
  exists t, r. split; [exact Hfill|]. split; [exact Hcells|].
  split; [exact Hr | exact Hres].
Defined.
(** ** C3: the validator *)

(** C3: on a candidate set of valid item indices, [compute_profit_and_items]
    returns [(None, ∅)] exactly when the total weight exceeds the capacity;
    otherwise it returns the candidate set unchanged with the sum of the
    self-profits of its members plus one matrix entry per pair listed by
    [combinations], and that list holds every unordered pair of distinct
    members in exactly one of its two orders, once. *)
Theorem C3_validator (weights : list nat) (profits : list (list Z))
    (capacity : nat) (candidate : list nat) :
  NoDup candidate → Forall (λ i, i < length weights)%nat candidate →
  square (length weights) profits →
  (compute_profit_and_items weights profits capacity candidate = Ok (None, [])
   ↔ (capacity < set_weight weights candidate)%nat)
  ∧ ((set_weight weights candidate ≤ capacity)%nat →
     compute_profit_and_items weights profits capacity candidate
     = Ok (Some (sumZ (λ i, entry profits i i) candidate
                 + sumZ (λ ij, entry profits ij.1 ij.2) (combinations2 candidate)),
           candidate))
  ∧ NoDup (combinations2 candidate)
  ∧ (∀ i j, (i, j) ∈ combinations2 candidate →
            i ∈ candidate ∧ j ∈ candidate ∧ i ≠ j)
  ∧ (∀ i j, i ∈ candidate → j ∈ candidate → i ≠ j →
            (i, j) ∈ combinations2 candidate ↔ (j, i) ∉ combinations2 candidate).
Proof.
  intros Hnd Hlt Hsq.
  rewrite (validator_ok weights profits capacity candidate Hlt (square_covers _ _ Hsq)).
  split; [|split; [|by apply combinations2_pairs]].
  - destruct (decide _); split; try done; lia.
  - intros Hle. destruct (decide _); [lia | done].
Qed.

Lemma C3_witness :
  NoDup [0; 1]%nat
  ∧ Forall (λ i, i < length scenario1_weights)%nat [0; 1]%nat
  ∧ square (length scenario1_weights) scenario1_profits
  ∧ ((set_weight scenario1_weights [0; 1]%nat ≤ 7)%nat →
     compute_profit_and_items scenario1_weights scenario1_profits 7 [0; 1]%nat
     = Ok (Some (sumZ (λ i, entry scenario1_profits i i) [0; 1]%nat
                 + sumZ (λ ij, entry scenario1_profits ij.1 ij.2)
                     (combinations2 [0; 1]%nat)),
           [0; 1]%nat)).
Proof.
  assert (NoDup [0; 1]%nat) as Hnd
    by (apply (bool_decide_unpack _); vm_compute; exact I).
  assert (Forall (λ i, i < length scenario1_weights)%nat [0; 1]%nat) as Hlt
    by (repeat constructor).
  split; [exact Hnd|]. split; [exact Hlt|]. split; [exact scenario1_square|].
  exact (proj1 (proj2 (C3_validator scenario1_weights scenario1_profits 7
                         [0; 1]%nat Hnd Hlt scenario1_square))).
Defined.

(** ** C5 and C9: instances where nothing fits *)

(** C5, as stated, fails at capacity 0 when an item has weight 0: with the
    single weight [0], profits [[1]] and capacity 0, every engine selects
    item 0 and returns profit 1. *)
Lemma C5_counterexample :
  square 1 [[1]]
  ∧ Classical.classical_dp_qkp [0]%nat [[1]] 0 = Ok ([0]%nat, Finite 1)
  ∧ ∀ order, valid_order order →
      HeuristicA.dp_heuristic_algo2 order [0]%nat [[1]] 0 = Ok ([0]%nat, Finite 1)
      ∧ HeuristicB.dp_heuristic_algo3 order [0]%nat [[1]] 0
        = Ok ([0]%nat, Finite 1).
Proof.
  split; [split; [reflexivity | repeat constructor]|].
  split; [vm_compute; reflexivity|].
  intros order Hord. split; evaluate_for Hord.
Qed.

(** C5, as amended: for every instance with n = 0, or with capacity = 0 and
    all weights positive, each of the three engines returns the empty
    selected set and zero profit. *)
Theorem C5_empty_instance (weights : list nat) (profits : list (list Z))
    (capacity : nat) :
  square (length weights) profits →
  weights = [] ∨ (capacity = 0%nat ∧ Forall (λ w, 0 < w)%nat weights) →
  Classical.classical_dp_qkp weights profits capacity = Ok ([], Finite 0)
  ∧ (∀ order,
       HeuristicA.dp_heuristic_algo2 order weights profits capacity
       = Ok ([], Finite 0))
  ∧ (∀ order,
       HeuristicB.dp_heuristic_algo3 order weights profits capacity
       = Ok ([], Finite 0)).
Proof.
  intros Hsq Hcase.
  assert (Forall (λ w, capacity < w)%nat weights) as Hall.
  { destruct Hcase as [->|[-> Hpos]]; [constructor | done]. }
  split; [|split].
  - apply classical_nothing_fits; [done | by apply square_covers].
  - intros order. by apply algo2_nothing_fits.
  - intros order. by apply algo3_nothing_fits.
Qed.

Lemma C5_witness :
  square (length scenario1_weights) scenario1_profits
  ∧ (scenario1_weights = []
     ∨ (0%nat = 0%nat ∧ Forall (λ w, 0 < w)%nat scenario1_weights))
  ∧ Classical.classical_dp_qkp scenario1_weights scenario1_profits 0
    = Ok ([], Finite 0)
  ∧ (∀ order,
       HeuristicA.dp_heuristic_algo2 order scenario1_weights scenario1_profits 0
       = Ok ([], Finite 0))
  ∧ (∀ order,
       HeuristicB.dp_heuristic_algo3 order scenario1_weights scenario1_profits 0
       = Ok ([], Finite 0)).
Proof.
  assert (scenario1_weights = []
          ∨ (0%nat = 0%nat ∧ Forall (λ w, 0 < w)%nat scenario1_weights)) as Hcase.
  { right. split; [reflexivity|]. unfold scenario1_weights.
    repeat constructor; lia. }
  split; [exact scenario1_square|]. split; [exact Hcase|].
  exact (C5_empty_instance scenario1_weights scenario1_profits 0
           scenario1_square Hcase).
Defined.

(** ** C9: the scenario where no item fits *)

(** C9: for weights [5, 4, 6, 7] and capacity 2, whatever the profit matrix
    (in particular every 4×4 one) and whatever the iteration order of the
    sets, each engine returns the empty selected set and profit 0. *)
Theorem C9_no_item_fits (profits : list (list Z)) :
  Classical.classical_dp_qkp [5; 4; 6; 7]%nat profits 2 = Ok ([], Finite 0)
  ∧ (∀ order,
       HeuristicA.dp_heuristic_algo2 order [5; 4; 6; 7]%nat profits 2
       = Ok ([], Finite 0))
  ∧ (∀ order,
       HeuristicB.dp_heuristic_algo3 order [5; 4; 6; 7]%nat profits 2
       = Ok ([], Finite 0)).
Proof. repeat split; intros; vm_compute; reflexivity. Qed.

(** ** C6: dimension mismatch *)

(** C6, as stated, fails: no engine checks the dimensions.  With one weight
    and a 2×2 profit matrix every engine returns normally. *)
Lemma C6_counterexample :
  ¬ square (length [1%nat]) [[1; 0]; [0; 1]]
  ∧ Classical.classical_dp_qkp [1]%nat [[1; 0]; [0; 1]] 1 = Ok ([0]%nat, Finite 1)
  ∧ ∀ order, valid_order order →
      HeuristicA.dp_heuristic_algo2 order [1]%nat [[1; 0]; [0; 1]] 1
      = Ok ([0]%nat, Finite 1)
      ∧ HeuristicB.dp_heuristic_algo3 order [1]%nat [[1; 0]; [0; 1]] 1
        = Ok ([0]%nat, Finite 1).
Proof.
  split; [intros [Hlen _]; discriminate Hlen|].
  split; [vm_compute; reflexivity|].
  intros order Hord. split; evaluate_for Hord.
Qed.

(** C6, as amended: the engines do not validate the dimensions.  For every
    call in which the entries [profits[i][j]] with [i, j] below the number of
    weights can all be read and sum, in absolute value, to at most 2^53,
    whether or not the dimensions match, each engine returns a selection and
    a profit, and reports no failure. *)
Theorem C6_no_dimension_check (weights : list nat) (profits : list (list Z))
    (capacity : nat) :
  covers (length weights) profits → exact_range (length weights) profits →
  (∃ s v, Classical.classical_dp_qkp weights profits capacity = Ok (s, v))
  ∧ (∀ order, valid_order order →
       ∃ s v, HeuristicA.dp_heuristic_algo2 order weights profits capacity
              = Ok (s, v))
  ∧ (∀ order, valid_order order →
       ∃ s v, HeuristicB.dp_heuristic_algo3 order weights profits capacity
              = Ok (s, v)).
Proof.
  intros Hcov Hexact. split; [|split].
  - destruct (classical_exact weights profits capacity Hcov Hexact)
      as (r & _ & Hres & _). eauto.
  - intros order Hord.
    destruct (algo2_exact weights profits capacity Hcov Hexact order Hord)
      as (r & v & _ & _ & _ & Hres). eauto.
  - intros order Hord.
    destruct (algo3_exact weights profits capacity Hcov Hexact order Hord)
      as (r & v & _ & _ & _ & Hres). eauto.
Qed.

Lemma C6_witness :
  covers (length [1%nat]) [[1; 0]; [0; 1]]
  ∧ exact_range (length [1%nat]) [[1; 0]; [0; 1]]
  ∧ ¬ square (length [1%nat]) [[1; 0]; [0; 1]]
  ∧ ∃ s v, Classical.classical_dp_qkp [1]%nat [[1; 0]; [0; 1]] 1 = Ok (s, v).
Proof.
  assert (covers (length [1%nat]) [[1; 0]; [0; 1]]) as Hcov.
  { intros i j Hi Hj. simpl in Hi, Hj.
    destruct i; [|lia]. destruct j; [|lia]. reflexivity. }
  assert (exact_range (length [1%nat]) [[1; 0]; [0; 1]]) as Hexact.
  { vm_compute. discriminate. }
  split; [exact Hcov|]. split; [exact Hexact|].
  split; [intros [Hlen _]; discriminate Hlen|].
  exact (proj1 (C6_no_dimension_check [1%nat] [[1; 0]; [0; 1]] 1 Hcov Hexact)).
Defined.

(** ** C7: the sentinel is never returned *)

(** the first maximum of a row of the heuristics is not below 0 *)
Lemma best64_nonneg (order : nat → nat → list nat → list nat) (weights : list nat)
    (profits : list (list Z)) (k capacity r : nat) :
  best64 (Rounded.heur_dp order weights profits k) capacity r →
  flt (Rounded.heur_dp order weights profits k r).1 (Finite 0) = false.
Proof.
  intros (_ & Hge & _). specialize (Hge 0%nat ltac:(lia)).
  eapply flt_le_trans; [apply heur64_zero | exact Hge].
Qed.

Lemma heuristic_nonneg (order : nat → nat → list nat → list nat)
    (weights : list nat) (profits : list (list Z)) (capacity : nat) (Q : Prop)
    (res : result (list nat * float64)) (s : list nat) (v : float64) :
  outcome
    (λ res, ∃ r,
       best64 (Rounded.heur_dp order weights profits (length weights)) capacity r
       ∧ res = ((Rounded.heur_dp order weights profits (length weights) r).2,
                (Rounded.heur_dp order weights profits (length weights) r).1))
    Q res →
  res = Ok (s, v) → flt v (Finite 0) = false.
Proof.
  intros Hout Hres. destruct (outcome_ok _ _ _ _ Hout Hres) as (r & Hbest & [= _ ->]).
  by eapply best64_nonneg.
Qed.

(** C7: whenever [dp_heuristic_algo2] or [dp_heuristic_algo3] returns, the
    profit it returns is not [-inf]: the state at capacity 0 of the final
    layer is feasible, with a value that is not below 0, and the maximum is
    at least that.  Both return when every entry is within the float range,
    and when the entries sum, in absolute value, to at most 2^53 the profit
    returned is the genuine profit of the selection returned; this for every
    iteration order of the sets. *)
Theorem C7_no_sentinel_leak (order : nat → nat → list nat → list nat)
    (weights : list nat) (profits : list (list Z)) (capacity : nat) :
  square (length weights) profits → valid_order order →
  (∀ s v, HeuristicA.dp_heuristic_algo2 order weights profits capacity = Ok (s, v)
          → v ≠ NInf)
  ∧ (∀ s v, HeuristicB.dp_heuristic_algo3 order weights profits capacity
            = Ok (s, v) → v ≠ NInf)
  ∧ (∀ t, HeuristicA.fill order weights profits capacity = Ok t →
          ∃ c, tget t (length weights) 0 = Ok c ∧ flt c.1 (Finite 0) = false)
  ∧ (∀ st, HeuristicB.after order weights profits capacity (length weights)
           = Ok st →
           ∃ c, st !! 0%nat = Some c ∧ flt c.1 (Finite 0) = false)
  ∧ (convertible (length weights) profits →
     (∃ s v, HeuristicA.dp_heuristic_algo2 order weights profits capacity
             = Ok (s, v) ∧ v ≠ NInf)
     ∧ (∃ s v, HeuristicB.dp_heuristic_algo3 order weights profits capacity
               = Ok (s, v) ∧ v ≠ NInf))
  ∧ (exact_range (length weights) profits →
     (∃ s, HeuristicA.dp_heuristic_algo2 order weights profits capacity
           = Ok (s, Finite (engine_profit profits s)))
     ∧ (∃ s, HeuristicB.dp_heuristic_algo3 order weights profits capacity
             = Ok (s, Finite (engine_profit profits s)))).
Proof.
  intros Hsq Hord. pose proof (square_covers _ _ Hsq) as Hcov.
  pose proof (algo2_outcome order weights profits capacity Hcov Hord) as Hout2.
  pose proof (algo3_outcome order weights profits capacity Hcov Hord) as Hout3.
  assert (∀ v, flt v (Finite 0) = false → v ≠ NInf) as Hfeasible
    by (by intros v Hv ->).
  split; [|split; [|split; [|split; [|split]]]].
  - intros s v Hres. eapply Hfeasible, heuristic_nonneg; [exact Hout2 | exact Hres].
  - intros s v Hres. eapply Hfeasible, heuristic_nonneg; [exact Hout3 | exact Hres].
  - intros t Ht.
    pose proof (algo2_fill_outcome order weights profits capacity Hcov Hord
                  (length weights) ltac:(done)) as Hfill.
    destruct (outcome_ok _ _ _ _ Hfill Ht) as [_ Hcells].
    eexists. split; [apply Hcells; lia|]. apply heur64_zero.
  - intros st Hst.
    pose proof (algo3_after_outcome order weights profits capacity Hcov Hord
                  (length weights) ltac:(done)) as Hafter.
    destruct (outcome_ok _ _ _ _ Hafter Hst) as [_ Hcells].
    eexists. split; [apply Hcells; lia|]. apply heur64_zero.
  - intros Hconv. split.
    + destruct (outcome_returns _ _ _ Hout2) as ([s v] & Hres & _); [tauto|].
      exists s, v. split; [done|].
      eapply Hfeasible, heuristic_nonneg; [exact Hout2 | exact Hres].
    + destruct (outcome_returns _ _ _ Hout3) as ([s v] & Hres & _); [tauto|].
      exists s, v. split; [done|].
      eapply Hfeasible, heuristic_nonneg; [exact Hout3 | exact Hres].
  - intros Hexact. split.
    + destruct (algo2_exact weights profits capacity Hcov Hexact order Hord)
        as (r & v & _ & Hv & _ & Hres).
      eexists. rewrite Hres. do 3 f_equal. by apply heur_dp_sound in Hv as (_ & _ & _ & ->).
    + destruct (algo3_exact weights profits capacity Hcov Hexact order Hord)
        as (r & v & _ & Hv & _ & Hres).
      eexists. rewrite Hres. do 3 f_equal. by apply heur_dp_sound in Hv as (_ & _ & _ & ->).
Qed.

Lemma C7_witness :
  square (length scenario1_weights) scenario1_profits
  ∧ valid_order insertion_order
  ∧ (∀ s v, HeuristicA.dp_heuristic_algo2 insertion_order scenario1_weights
              scenario1_profits 7 = Ok (s, v) → v ≠ NInf)
  ∧ (∀ s v, HeuristicB.dp_heuristic_algo3 insertion_order scenario1_weights
              scenario1_profits 7 = Ok (s, v) → v ≠ NInf).
Proof.
  split; [exact scenario1_square|]. split; [exact insertion_order_valid|].
  pose proof (C7_no_sentinel_leak insertion_order scenario1_weights
                scenario1_profits 7 scenario1_square insertion_order_valid)
    as (H2 & H3 & _).
  split; [exact H2 | exact H3].
Defined.

(** ** C10: the returned profit is never negative *)

Lemma classical_nonneg (weights : list nat) (profits : list (list Z))
    (capacity : nat) (s : list nat) (v : float64) :
  covers (length weights) profits →
  Classical.classical_dp_qkp weights profits capacity = Ok (s, v) →
  flt v (Finite 0) = false.
Proof.
  intros Hcov.
  destruct (classical_result weights profits capacity Hcov)
    as (r & t & _ & _ & _ & -> & _).
  destruct (exact_dp_sound weights profits (length weights) r) as [_ Hpos].
  pose proof (round64_nonneg _ Hpos) as Hround. unfold to_float.
  destruct (round64 _); simpl; [done| |done]. by intros [= _ <-].
Qed.

(** C10: for every instance, negative profit entries included, whenever one
    of the three engines returns, the profit it returns is at least 0; and
    each engine returns, with a finite profit, when the entries sum, in
    absolute value, to at most 2^53. *)
Theorem C10_profit_nonnegative (weights : list nat) (profits : list (list Z))
    (capacity : nat) :
  square (length weights) profits →
  (∀ s v, Classical.classical_dp_qkp weights profits capacity = Ok (s, v) →
          flt v (Finite 0) = false)
  ∧ (∀ order s v, valid_order order →
       HeuristicA.dp_heuristic_algo2 order weights profits capacity = Ok (s, v) →
       flt v (Finite 0) = false)
  ∧ (∀ order s v, valid_order order →
       HeuristicB.dp_heuristic_algo3 order weights profits capacity = Ok (s, v) →
       flt v (Finite 0) = false)
  ∧ (exact_range (length weights) profits →
     (∃ s v, Classical.classical_dp_qkp weights profits capacity
             = Ok (s, Finite v) ∧ 0 ≤ v)
     ∧ (∀ order, valid_order order →
          (∃ s v, HeuristicA.dp_heuristic_algo2 order weights profits capacity
                  = Ok (s, Finite v) ∧ 0 ≤ v)
          ∧ (∃ s v, HeuristicB.dp_heuristic_algo3 order weights profits capacity
                    = Ok (s, Finite v) ∧ 0 ≤ v))).
Proof.
  intros Hsq. pose proof (square_covers _ _ Hsq) as Hcov.
  split; [|split; [|split]].
  - intros s v. by apply classical_nonneg.
  - intros order s v Hord Hres.
    eapply heuristic_nonneg; [by apply algo2_outcome | exact Hres].
  - intros order s v Hord Hres.
    eapply heuristic_nonneg; [by apply algo3_outcome | exact Hres].
  - intros Hexact. split.
    + destruct (classical_exact weights profits capacity Hcov Hexact)
        as (r & _ & Hres & _).
      eexists _, _. split; [exact Hres|]. apply exact_dp_sound.
    + intros order Hord. split.
      * destruct (algo2_exact weights profits capacity Hcov Hexact order Hord)
          as (r & v & _ & _ & Hpos & Hres). eauto.
      * destruct (algo3_exact weights profits capacity Hcov Hexact order Hord)
          as (r & v & _ & _ & Hpos & Hres). eauto.
Qed.

Lemma C10_witness :
  square 2 [[-3; -1]; [-1; -2]]
  ∧ ∀ s v, Classical.classical_dp_qkp [1; 1]%nat [[-3; -1]; [-1; -2]] 2
           = Ok (s, v) → flt v (Finite 0) = false.
Proof.
  assert (square (length [1; 1]%nat) [[-3; -1]; [-1; -2]]) as Hsq
    by (split; [reflexivity | repeat constructor]).
  split; [exact Hsq|].
  exact (proj1 (C10_profit_nonnegative [1; 1]%nat [[-3; -1]; [-1; -2]] 2 Hsq)).
Defined.

(** ** C4: ties go to the larger witness *)

Section HeuristicWitnesses.
Variables (order : nat → nat → list nat → list nat) (weights : list nat)
  (profits : list (list Z)).

(** the witness of a cell has no duplicates, and the witness of a feasible
    cell weighs exactly the capacity of the cell *)
Lemma heur64_witness (k r : nat) :
  NoDup (Rounded.heur_dp order weights profits k r).2
  ∧ ((Rounded.heur_dp order weights profits k r).1 ≠ NInf →
     set_weight weights (Rounded.heur_dp order weights profits k r).2 = r).
Proof.
  revert r. induction k as [|k IH]; intros r.
  - simpl. split; [constructor|]. by destruct (decide (r = 0)%nat) as [->|].
  - cbn [Rounded.heur_dp]. destruct (weights !! k) as [w|] eqn:Hw; [|apply IH].
    destruct (decide (w ≤ r)%nat) as [Hle|]; [|apply IH].
    destruct (IH (r - w)%nat) as [Hnd Hweight].
    pose proof (heur64_items order weights profits k (r - w)) as Hlt.
    assert ((Rounded.heur_dp order weights profits k (r - w)).1 ≠ NInf →
            NoDup (set_add k (Rounded.heur_dp order weights profits k (r - w)).2)
            ∧ set_weight weights
                (set_add k (Rounded.heur_dp order weights profits k (r - w)).2)
              = r) as Hadd.
    { intros Hfeas. rewrite (set_add_fresh k _ Hlt). split.
      - apply NoDup_app. split; [done|]. split; [|apply NoDup_singleton].
        intros x Hx ->%list_elem_of_singleton.
        rewrite Forall_forall in Hlt. apply Hlt in Hx. lia.
      - rewrite set_weight_app, (Hweight Hfeas). simpl. rewrite Hw. simpl. lia. }
    destruct (Rounded.heur_dp order weights profits k (r - w)).1 eqn:Hprev;
      [apply IH| |];
      (destruct (updates _ _ _); [|apply IH]; cbn [fst snd];
       destruct Hadd as [Hnd' Hw']; [done | done]).
Qed.
End HeuristicWitnesses.

(** C4: in both heuristics, when the include candidate's profit (the float64
    sum the code computes, in the order the witness set is iterated) equals
    the current value of the cell, the cell ends with the include witness
    exactly when that witness has strictly more items than the incumbent one,
    and keeps the incumbent otherwise; its value is unchanged.  For
    [dp_heuristic_algo2] the cells are those of the filled table (row [k - 1]
    is what the step at row [k] reads, and the current value of the cell
    [(k, r)] is the copy of [(k - 1, r)]); for [dp_heuristic_algo3] they are
    those of the arrays just before and just after the update at
    [r = capacity - j] in the pass of item [k]. *)
Theorem C4_tie_break (order : nat → nat → list nat → list nat)
    (weights : list nat) (profits : list (list Z)) (capacity : nat) :
  square (length weights) profits → valid_order order →
  (∀ t k r w prev cur c,
     HeuristicA.fill order weights profits capacity = Ok t →
     (1 ≤ k ≤ length weights)%nat → weights !! (k - 1)%nat = Some w →
     (w ≤ r)%nat → (r ≤ capacity)%nat →
     tget t (k - 1) (r - w) = Ok prev → prev.1 ≠ NInf →
     tget t (k - 1) r = Ok cur →
     include_candidate (order (k - 1)%nat (r - w)%nat) profits (k - 1) prev = Ok c →
     c = cur.1 →
     tget t k r
     = Ok (cur.1,
           if decide (length cur.2 < length (set_add (k - 1) prev.2))%nat
           then set_add (k - 1) prev.2 else cur.2))
  ∧ (∀ k j w st st' prev cur c,
       (k < length weights)%nat → weights !! k = Some w →
       (j < S capacity - w)%nat →
       HeuristicB.within order weights profits capacity k j = Ok st →
       HeuristicB.within order weights profits capacity k (S j) = Ok st' →
       st !! (capacity - j - w)%nat = Some prev → prev.1 ≠ NInf →
       st !! (capacity - j)%nat = Some cur →
       include_candidate (order k (capacity - j - w)%nat) profits k prev = Ok c →
       c = cur.1 →
       st' !! (capacity - j)%nat
       = Some (cur.1,
               if decide (length cur.2 < length (set_add k prev.2))%nat
               then set_add k prev.2 else cur.2)).
Proof.
  intros Hsq Hord. pose proof (square_covers _ _ Hsq) as Hcov.
  assert (∀ i r c,
    (i < length weights)%nat →
    include_candidate (order i r) profits i
      (Rounded.heur_dp order weights profits i r) = Ok c →
    c = Rounded.candidate (order i r) profits i
          (Rounded.heur_dp order weights profits i r).1
          (Rounded.heur_dp order weights profits i r).2) as Hcand.
  { intros i r c Hi Hc.
    apply (outcome_ok _ _ _ _
             (include_candidate_outcome (length weights) profits Hcov
                (order i r) i (Rounded.heur_dp order weights profits i r) Hi
                ltac:(rewrite (Hord i r); eapply Forall_impl;
                        [apply heur64_items | simpl; lia])) Hc). }
  split.
  - intros t k r w prev cur c Ht Hk Hw Hle Hr Hprev Hfeas Hcur Hc Htie.
    pose proof (algo2_fill_outcome order weights profits capacity Hcov Hord
                  (length weights) ltac:(done)) as Hfill.
    destruct (outcome_ok _ _ _ _ Hfill Ht) as [_ Hcells].
    destruct k as [|i]; [lia|]. replace (S i - 1)%nat with i in * by lia.
    rewrite Hcells in Hprev, Hcur |- * by lia.
    injection Hprev as <-. injection Hcur as <-. f_equal.
    apply (heur64_tie order weights profits i r w); [done | done | done |].
    rewrite <- Htie. symmetry. apply Hcand; [lia | done].
  - intros k j w st st' prev cur c Hk Hw Hj Hst Hst' Hprev Hfeas Hcur Hc Htie.
    pose proof (algo3_within_outcome order weights profits capacity Hcov Hord
                  k j w Hk Hw ltac:(lia)) as Hmid.
    pose proof (algo3_within_outcome order weights profits capacity Hcov Hord
                  k (S j) w Hk Hw ltac:(lia)) as Hmid'.
    apply (outcome_ok _ _ _ _ Hmid) in Hst.
    apply (outcome_ok _ _ _ _ Hmid') in Hst' as [_ Hcells'].
    destruct (mid_pass_prev order weights profits capacity k j w st Hj Hst)
      as [Hprev' Hcur'].
    rewrite Hprev' in Hprev. rewrite Hcur' in Hcur.
    injection Hprev as <-. injection Hcur as <-.
    rewrite Hcells' by lia. destruct (decide _); [|lia]. f_equal.
    apply (heur64_tie order weights profits k (capacity - j) w); [done | lia | done |].
    rewrite <- Htie. symmetry. apply Hcand; [lia | done].
Qed.

(** the tie of the instance [tie_weights], [tie_profits] at capacity 2: item 2
    on the state {1} of profit 1 reaches profit 2, the value the cell holds
    for the state {0}; the larger witness {1, 2} replaces {0} *)
Lemma C4_witness :
  square (length tie_weights) tie_profits ∧ valid_order insertion_order
  ∧ (∃ t, HeuristicA.fill insertion_order tie_weights tie_profits 2 = Ok t
          ∧ tget t (3 - 1) (2 - 1) = Ok (Finite 1, [1]%nat)
          ∧ tget t (3 - 1) 2 = Ok (Finite 2, [0]%nat)
          ∧ include_candidate (insertion_order (3 - 1)%nat (2 - 1)%nat)
              tie_profits (3 - 1) (Finite 1, [1]%nat) = Ok (Finite 2)
          ∧ tget t 3 2 = Ok (Finite 2, [1; 2]%nat))
  ∧ (∃ st st',
       HeuristicB.within insertion_order tie_weights tie_profits 2 2 0 = Ok st
       ∧ HeuristicB.within insertion_order tie_weights tie_profits 2 2 1 = Ok st'
       ∧ st !! (2 - 0 - 1)%nat = Some (Finite 1, [1]%nat)
       ∧ st !! (2 - 0)%nat = Some (Finite 2, [0]%nat)
       ∧ include_candidate (insertion_order 2%nat (2 - 0 - 1)%nat)
           tie_profits 2 (Finite 1, [1]%nat) = Ok (Finite 2)
       ∧ st' !! (2 - 0)%nat = Some (Finite 2, [1; 2]%nat)).
Proof.
  assert (square (length tie_weights) tie_profits) as Hsq
    by (split; [reflexivity | repeat constructor]).
  split; [exact Hsq|]. split; [exact insertion_order_valid|].
  destruct (C4_tie_break insertion_order tie_weights tie_profits 2 Hsq
              insertion_order_valid) as [HA HB].
  split.
  - eexists. split; [vm_compute; reflexivity|].
    split; [reflexivity|]. split; [reflexivity|]. split; [reflexivity|].
    refine (HA _ 3%nat 2%nat 1%nat (Finite 1, [1]%nat) (Finite 2, [0]%nat)
              (Finite 2) _ _ _ _ _ _ _ _ _ _);
      first [reflexivity | discriminate | vm_compute; lia].
  - eexists _, _. split; [vm_compute; reflexivity|].
    split; [vm_compute; reflexivity|].
    split; [reflexivity|]. split; [reflexivity|]. split; [reflexivity|].
    refine (HB 2%nat 0%nat 1%nat _ _ (Finite 1, [1]%nat) (Finite 2, [0]%nat)
              (Finite 2) _ _ _ _ _ _ _ _ _ _);
      first [reflexivity | discriminate | vm_compute; lia].
Defined.

(** ** C8: the rolling engine uses each item at most once *)




(** * Further properties of the engines and of the validator *)

(** ** Within the exact range the iteration order and the layout of the
    table do not matter *)

Section OrderIndependent.
Variables (weights : list nat) (profits : list (list Z)) (capacity : nat).
Hypothesis Hcov : covers (length weights) profits.
Hypothesis Hexact : exact_range (length weights) profits.
Variables (order order' : nat → nat → list nat → list nat).
Hypothesis Hord : valid_order order.
Hypothesis Hord' : valid_order order'.

Lemma algo2_order_independent :
  HeuristicA.dp_heuristic_algo2 order weights profits capacity
  = HeuristicA.dp_heuristic_algo2 order' weights profits capacity.
Proof.
  destruct (algo2_exact weights profits capacity Hcov Hexact order Hord)
    as (r & v & Hbest & Hv & _ & ->).
  destruct (algo2_exact weights profits capacity Hcov Hexact order' Hord')
    as (r' & v' & Hbest' & Hv' & _ & ->).
  rewrite (best_unique _ _ _ _ _ Hbest Hbest') in *. congruence.
Qed.

Lemma algo3_order_independent :
  HeuristicB.dp_heuristic_algo3 order weights profits capacity
  = HeuristicB.dp_heuristic_algo3 order' weights profits capacity.
Proof.
  destruct (algo3_exact weights profits capacity Hcov Hexact order Hord)
    as (r & v & Hbest & Hv & _ & ->).
  destruct (algo3_exact weights profits capacity Hcov Hexact order' Hord')
    as (r' & v' & Hbest' & Hv' & _ & ->).
  rewrite (best_unique _ _ _ _ _ Hbest Hbest') in *. congruence.
Qed.

Lemma algo3_algo2 :
  HeuristicB.dp_heuristic_algo3 order weights profits capacity
  = HeuristicA.dp_heuristic_algo2 order' weights profits capacity.
Proof.
  destruct (algo3_exact weights profits capacity Hcov Hexact order Hord)
    as (r & v & Hbest & Hv & _ & ->).
  destruct (algo2_exact weights profits capacity Hcov Hexact order' Hord')
    as (r' & v' & Hbest' & Hv' & _ & ->).
  rewrite (best_unique _ _ _ _ _ Hbest Hbest') in *. congruence.
Qed.
End OrderIndependent.



(** ** What every engine returns, symmetric matrix or not *)



(** ** The heuristics' states are states of exact weight *)

Lemma heur_dp_infeasible (weights : list nat) (profits : list (list Z)) (k r : nat) :
  (Spec.heur_dp weights profits k r).1 = NegInf →
  (Spec.heur_dp weights profits k r).2 = [].
Proof.
  revert r. induction k as [|k IH]; intros r; [done|].
  cbn [Spec.heur_dp]. destruct (weights !! k) as [w|]; [|apply IH].
  destruct (decide (w ≤ r)%nat); [|apply IH].
  destruct (Spec.heur_dp weights profits k (r - w)).1 as [|d]; [apply IH|].
  destruct (overwrites _ _ _); [done | apply IH].
Qed.

Lemma heur64_exact_cell (order : nat → nat → list nat → list nat)
    (weights : list nat) (profits : list (list Z)) (k r : nat) :
  exact_range (length weights) profits → valid_order order →
  (k ≤ length weights)%nat →
  exact_cell weights r (Rounded.heur_dp order weights profits k r).
Proof.
  intros Hexact Hord Hk. unfold exact_cell.
  destruct (heur64_witness order weights profits k r) as [_ Hweight].
  destruct (Rounded.heur_dp order weights profits k r).1 eqn:Hcell;
    [|by apply Hweight..].
  rewrite (heur64_exact order weights profits Hexact Hord) in Hcell |- * by done.
  unfold stored in *. simpl in *. apply heur_dp_infeasible.
  by destruct (Spec.heur_dp weights profits k r).1.
Qed.

(** X3: in both heuristics every feasible state is a state of exact weight:
    in each layer of [dp_heuristic_algo2]'s table, and in
    [dp_heuristic_algo3]'s arrays after each item pass, a cell at capacity [r]
    whose value is not [-inf] has a witness of total weight exactly [r]; and
    when the entries sum, in absolute value, to at most 2^53, the table and
    the arrays are filled and a cell whose value is [-inf] has an empty
    witness. *)
Theorem heuristic_states_exact_weight (order : nat → nat → list nat → list nat)
    (weights : list nat) (profits : list (list Z)) (capacity : nat) :
  square (length weights) profits → valid_order order →
  (∀ t k r c, HeuristicA.fill order weights profits capacity = Ok t →
              (k ≤ length weights)%nat → (r ≤ capacity)%nat →
              tget t k r = Ok c → c.1 ≠ NInf → set_weight weights c.2 = r)
  ∧ (∀ k st r c, (k ≤ length weights)%nat →
       HeuristicB.after order weights profits capacity k = Ok st →
       st !! r = Some c → c.1 ≠ NInf → set_weight weights c.2 = r)
  ∧ (exact_range (length weights) profits →
     (∃ t, HeuristicA.fill order weights profits capacity = Ok t
           ∧ ∀ k r, (k ≤ length weights)%nat → (r ≤ capacity)%nat →
                    ∃ c, tget t k r = Ok c ∧ exact_cell weights r c)
     ∧ (∀ k, (k ≤ length weights)%nat →
          ∃ st, HeuristicB.after order weights profits capacity k = Ok st
                ∧ ∀ r, (r ≤ capacity)%nat →
                       ∃ c, st !! r = Some c ∧ exact_cell weights r c)).
Proof.
  intros Hsq Hord. pose proof (square_covers _ _ Hsq) as Hcov.
  pose proof (algo2_fill_outcome order weights profits capacity Hcov Hord
                (length weights) ltac:(done)) as Hfill.
  split; [|split].
  - intros t k r c Ht Hk Hr Hc Hfeas.
    destruct (outcome_ok _ _ _ _ Hfill Ht) as [_ Hcells].
    rewrite Hcells in Hc by lia. injection Hc as <-.
    by apply heur64_witness.
  - intros k st r c Hk Hst Hc Hfeas.
    pose proof (algo3_after_outcome order weights profits capacity Hcov Hord
                  k Hk) as Hafter.
    destruct (outcome_ok _ _ _ _ Hafter Hst) as [Hlen Hcells].
    pose proof (lookup_lt_Some _ _ _ Hc) as Hrc.
    rewrite Hcells in Hc by lia. injection Hc as <-.
    by apply heur64_witness.
  - intros Hexact.
    assert (¬ ¬ convertible (length weights) profits) as Hconv.
    { intros Hno. apply Hno. by apply exact_range_convertible. }
    split.
    + destruct (outcome_returns _ _ _ Hfill Hconv) as (t & Ht & _ & Hcells).
      exists t. split; [done|]. intros k r Hk Hr. eexists. split.
      * apply Hcells; lia.
      * by apply heur64_exact_cell.
    + intros k Hk.
      pose proof (algo3_after_outcome order weights profits capacity Hcov Hord
                    k Hk) as Hafter.
      destruct (outcome_returns _ _ _ Hafter Hconv) as (st & Hst & _ & Hcells).
      exists st. split; [done|]. intros r Hr. eexists. split.
      * apply Hcells. lia.
      * by apply heur64_exact_cell.
Qed.

Lemma heuristic_states_exact_weight_witness :
  square (length scenario1_weights) scenario1_profits
  ∧ valid_order insertion_order
  ∧ ∀ t k r c,
      HeuristicA.fill insertion_order scenario1_weights scenario1_profits 7 = Ok t →
      (k ≤ length scenario1_weights)%nat → (r ≤ 7)%nat →
      tget t k r = Ok c → c.1 ≠ NInf → set_weight scenario1_weights c.2 = r.
Proof.
  split; [exact scenario1_square|]. split; [exact insertion_order_valid|].
  exact (proj1 (heuristic_states_exact_weight insertion_order scenario1_weights
                  scenario1_profits 7 scenario1_square insertion_order_valid)).
Defined.

(** ** Adding an item never lowers a state *)

Lemma ext_le_trans (a b c : ext) :
  ext_ltb b a = false → ext_ltb c b = false → ext_ltb c a = false.
Proof.
  destruct a, b, c; simpl; try done;
    rewrite ?bool_decide_eq_false; lia.
Qed.

Lemma ext_ge_fin (x : ext) (v : Z) :
  ext_ltb x (Fin v) = false → ∃ u, x = Fin u ∧ v ≤ u.
Proof.
  destruct x as [|u]; simpl; [done|].
  intros Hge%bool_decide_eq_false. exists u. split; [done | lia].
Qed.

Lemma overwrites_true (c : Z) (len : nat) (cur : ext * list nat) :
  overwrites c len cur = true → ext_ltb (Fin c) cur.1 = false.
Proof.
  unfold overwrites. destruct cur.1 as [|d]; simpl; [done|].
  intros [Hgt%bool_decide_eq_true|Heq]%orb_true_iff; apply bool_decide_eq_false.
  - lia.
  - apply andb_true_iff in Heq as [Heq%bool_decide_eq_true _]. lia.
Qed.

Lemma overwrites_false (c : Z) (len : nat) (cur : ext * list nat) :
  overwrites c len cur = false → ext_ltb cur.1 (Fin c) = false.
Proof.
  unfold overwrites. destruct cur.1 as [|d]; simpl; [done|].
  intros [Hgt%bool_decide_eq_false _]%orb_false_iff. apply bool_decide_eq_false. lia.
Qed.

Lemma heur_dp_items (weights : list nat) (profits : list (list Z)) (k r : nat) :
  Forall (λ i, i < k)%nat (Spec.heur_dp weights profits k r).2.
Proof.
  revert r. induction k as [|k IH]; intros r; [constructor|].
  assert (Forall (λ i, i < S k)%nat (Spec.heur_dp weights profits k r).2) as Hkeep.
  { eapply Forall_impl; [apply IH|]. simpl. lia. }
  cbn [Spec.heur_dp]. destruct (weights !! k) as [w|]; [|done].
  destruct (decide (w ≤ r)%nat); [|done].
  destruct (Spec.heur_dp weights profits k (r - w)).1; [done|].
  destruct (overwrites _ _ _); [|done]. cbn [snd].
  rewrite (set_add_fresh k _ (IH (r - w)%nat)). apply Forall_app. split.
  - eapply Forall_impl; [apply IH|]. simpl. lia.
  - repeat constructor.
Qed.

Lemma heur_dp_nothing_fits (weights : list nat) (profits : list (list Z)) (k r : nat) :
  Forall (λ w, r < w)%nat weights →
  Spec.heur_dp weights profits k r = Spec.heur_dp weights profits 0 r.
Proof.
  intros Hall. induction k as [|k IH]; [done|]. cbn [Spec.heur_dp].
  destruct (weights !! k) as [w|] eqn:Hw; [|done].
  pose proof (Forall_lookup_1 _ _ _ _ Hall Hw) as Hlt. simpl in Hlt.
  destruct (decide (w ≤ r)%nat); [lia | done].
Qed.


Section Monotone.
Variables (weights : list nat) (profits : list (list Z)).
Lemma exact_dp_mono (k r : nat) :
  (Spec.exact_dp weights profits k r).1 ≤ (Spec.exact_dp weights profits (S k) r).1.
Proof.
  cbn [Spec.exact_dp]. destruct (weights !! k) as [w|]; [|lia].
  destruct (decide (w ≤ r)%nat); [|lia].
  destruct (decide _); simpl; lia.
Qed.

Lemma exact_dp_mono_le (k k' r : nat) :
  (k ≤ k')%nat →
  (Spec.exact_dp weights profits k r).1 ≤ (Spec.exact_dp weights profits k' r).1.
Proof.
  induction 1 as [|k' _ IH]; [lia|]. pose proof (exact_dp_mono k' r). lia.
Qed.

Lemma exact_dp_ge_candidate (k r w : nat) :
  weights !! k = Some w → (w ≤ r)%nat →
  Spec.candidate profits k (Spec.exact_dp weights profits k (r - w)).1
    (Spec.exact_dp weights profits k (r - w)).2
  ≤ (Spec.exact_dp weights profits (S k) r).1.
Proof.
  intros Hw Hle. cbn [Spec.exact_dp]. rewrite Hw.
  destruct (decide (w ≤ r)%nat); [|lia].
  destruct (decide _); simpl; lia.
Qed.

Lemma heur_dp_mono (k r : nat) :
  ext_ltb (Spec.heur_dp weights profits (S k) r).1
    (Spec.heur_dp weights profits k r).1 = false.
Proof.
  cbn [Spec.heur_dp]. destruct (weights !! k) as [w|]; [|apply ext_ltb_irrefl].
  destruct (decide (w ≤ r)%nat); [|apply ext_ltb_irrefl].
  destruct (Spec.heur_dp weights profits k (r - w)).1; [apply ext_ltb_irrefl|].
  destruct (overwrites _ _ _) eqn:Hov; [|apply ext_ltb_irrefl].
  by apply overwrites_true in Hov.
Qed.

Lemma heur_dp_mono_le (k k' r : nat) :
  (k ≤ k')%nat →
  ext_ltb (Spec.heur_dp weights profits k' r).1
    (Spec.heur_dp weights profits k r).1 = false.
Proof.
  induction 1 as [|k' _ IH]; [apply ext_ltb_irrefl|].
  eapply ext_le_trans; [exact IH | apply heur_dp_mono].
Qed.

Lemma heur_dp_ge_candidate (k r w : nat) (d : Z) :
  weights !! k = Some w → (w ≤ r)%nat →
  (Spec.heur_dp weights profits k (r - w)).1 = Fin d →
  ext_ltb (Spec.heur_dp weights profits (S k) r).1
    (Fin (Spec.candidate profits k d (Spec.heur_dp weights profits k (r - w)).2))
  = false.
Proof.
  intros Hw Hle Hd. cbn [Spec.heur_dp]. rewrite Hw, Hd.
  destruct (decide (w ≤ r)%nat); [|lia].
  destruct (overwrites _ _ _) eqn:Hov.
  - apply ext_ltb_irrefl.
  - by apply overwrites_false in Hov.
Qed.
End Monotone.

(** X4: adding an item never lowers a state.  In the table of the exact
    engine, and in the table of [dp_heuristic_algo2] whenever it is filled,
    the value at [(k + 1, r)] is at least the value at [(k, r)]; and a pass
    of the rolling engine, whenever it completes, leaves every [dp[r]] at
    least as large as it was.  The heuristics' tables are filled when every
    entry is within the float range. *)
Theorem layers_never_decrease (order : nat → nat → list nat → list nat)
    (weights : list nat) (profits : list (list Z)) (capacity : nat) :
  square (length weights) profits → valid_order order →
  (∃ t, Classical.fill weights profits capacity = Ok t
        ∧ ∀ k r, (k < length weights)%nat → (r ≤ capacity)%nat →
            ∃ c c', tget t k r = Ok c ∧ tget t (S k) r = Ok c' ∧ c.1 ≤ c'.1)
  ∧ (∀ t, HeuristicA.fill order weights profits capacity = Ok t →
          ∀ k r, (k < length weights)%nat → (r ≤ capacity)%nat →
            ∃ c c', tget t k r = Ok c ∧ tget t (S k) r = Ok c'
                    ∧ flt c'.1 c.1 = false)
  ∧ (∀ k st st', (k < length weights)%nat →
       HeuristicB.after order weights profits capacity k = Ok st →
       HeuristicB.after order weights profits capacity (S k) = Ok st' →
       ∀ r, (r ≤ capacity)%nat →
         ∃ c c', st !! r = Some c ∧ st' !! r = Some c' ∧ flt c'.1 c.1 = false)
  ∧ (convertible (length weights) profits →
     (∃ t, HeuristicA.fill order weights profits capacity = Ok t)
     ∧ ∀ k, (k ≤ length weights)%nat →
         ∃ st, HeuristicB.after order weights profits capacity k = Ok st).
Proof.
  intros Hsq Hord. pose proof (square_covers _ _ Hsq) as Hcov.
  pose proof (algo2_fill_outcome order weights profits capacity Hcov Hord
                (length weights) ltac:(done)) as Hfill.
  split; [|split; [|split]].
  - destruct (classical_fill_upto weights profits capacity Hcov (length weights))
      as (t & Ht & _ & Hcells); [done|].
    exists t. split; [done|]. intros k r Hk Hr. eexists _, _.
    split; [apply Hcells; lia|]. split; [apply Hcells; lia|].
    apply exact_dp_mono.
  - intros t Ht k r Hk Hr.
    destruct (outcome_ok _ _ _ _ Hfill Ht) as [_ Hcells]. eexists _, _.
    split; [apply Hcells; lia|]. split; [apply Hcells; lia|].
    apply heur64_mono.
  - intros k st st' Hk Hst Hst' r Hr.
    pose proof (algo3_after_outcome order weights profits capacity Hcov Hord
                  k ltac:(lia)) as Hafter.
    pose proof (algo3_after_outcome order weights profits capacity Hcov Hord
                  (S k) ltac:(lia)) as Hafter'.
    destruct (outcome_ok _ _ _ _ Hafter Hst) as [_ Hcells].
    destruct (outcome_ok _ _ _ _ Hafter' Hst') as [_ Hcells'].
    eexists _, _.
    split; [apply Hcells; lia|]. split; [apply Hcells'; lia|].
    apply heur64_mono.
  - intros Hconv. split.
    + destruct (outcome_returns _ _ _ Hfill) as (t & Ht & _); [tauto | eauto].
    + intros k Hk.
      pose proof (algo3_after_outcome order weights profits capacity Hcov Hord
                    k Hk) as Hafter.
      destruct (outcome_returns _ _ _ Hafter) as (st & Hst & _); [tauto | eauto].
Qed.

Lemma layers_never_decrease_witness :
  square (length scenario1_weights) scenario1_profits
  ∧ valid_order insertion_order
  ∧ ∃ t, Classical.fill scenario1_weights scenario1_profits 7 = Ok t
         ∧ ∀ k r, (k < length scenario1_weights)%nat → (r ≤ 7)%nat →
             ∃ c c', tget t k r = Ok c ∧ tget t (S k) r = Ok c' ∧ c.1 ≤ c'.1.
Proof.
  split; [exact scenario1_square|]. split; [exact insertion_order_valid|].
  exact (proj1 (layers_never_decrease insertion_order scenario1_weights
                  scenario1_profits 7 scenario1_square insertion_order_valid)).
Defined.

(** ** Never worse than the best single item *)

(** X5: on an instance whose weights are all positive and whose entries sum,
    in absolute value, to at most 2^53, the profit each engine returns is at
    least the self-profit of every item that fits the capacity on its own. *)
Theorem at_least_best_single_item (weights : list nat) (profits : list (list Z))
    (capacity : nat) :
  square (length weights) profits → exact_range (length weights) profits →
  Forall (λ w, 0 < w)%nat weights →
  ∀ i w, weights !! i = Some w → (w ≤ capacity)%nat →
    (∃ s v, Classical.classical_dp_qkp weights profits capacity = Ok (s, Finite v)
            ∧ entry profits i i ≤ v)
    ∧ (∀ order, valid_order order →
         ∃ s v, HeuristicA.dp_heuristic_algo2 order weights profits capacity
                = Ok (s, Finite v)
                ∧ entry profits i i ≤ v)
    ∧ (∀ order, valid_order order →
         ∃ s v, HeuristicB.dp_heuristic_algo3 order weights profits capacity
                = Ok (s, Finite v)
                ∧ entry profits i i ≤ v).
Proof.
  intros Hsq Hexact Hpos i w Hw Hle. pose proof (square_covers _ _ Hsq) as Hcov.
  pose proof (lookup_lt_Some _ _ _ Hw) as Hi.
  assert (ext_ltb (Spec.heur_dp weights profits (length weights) w).1
            (Fin (entry profits i i)) = false) as Hheur.
  { eapply ext_le_trans; [|apply (heur_dp_mono_le _ _ (S i)); lia].
    pose proof (heur_dp_ge_candidate weights profits i w w 0 Hw ltac:(lia)) as Hc.
    replace (w - w)%nat with 0%nat in Hc by lia.
    rewrite (heur_dp_nothing_fits weights profits i 0 Hpos) in Hc.
    specialize (Hc eq_refl). unfold Spec.candidate in Hc. simpl in Hc.
    by replace (0 + entry profits i i + 0) with (entry profits i i) in Hc by lia. }
  assert (∀ r v, best weights profits capacity r →
                 (Spec.heur_dp weights profits (length weights) r).1 = Fin v →
                 entry profits i i ≤ v) as Hbound.
  { intros r v (_ & Hge & _) Hv.
    pose proof (ext_le_trans _ _ _ Hheur (Hge w Hle)) as Hfin.
    rewrite Hv in Hfin. simpl in Hfin. apply bool_decide_eq_false in Hfin. lia. }
  split; [|split].
  - destruct (classical_exact weights profits capacity Hcov Hexact)
      as (r & _ & Hres & Hmax).
    eexists _, _. split; [exact Hres|].
    specialize (Hmax w Hle).
    pose proof (exact_dp_mono_le weights profits (S i) (length weights) w
                  ltac:(lia)) as Hmono.
    pose proof (exact_dp_ge_candidate weights profits i w w Hw ltac:(lia)) as Hc.
    replace (w - w)%nat with 0%nat in Hc by lia.
    rewrite (exact_dp_nothing_fits weights profits 0 Hpos i 0) in Hc by done.
    unfold Spec.candidate, sumZ in Hc. cbn [fst snd foldr] in Hc. lia.
  - intros order Hord.
    destruct (algo2_exact weights profits capacity Hcov Hexact order Hord)
      as (r & v & Hbest & Hv & _ & Hres). eauto.
  - intros order Hord.
    destruct (algo3_exact weights profits capacity Hcov Hexact order Hord)
      as (r & v & Hbest & Hv & _ & Hres). eauto.
Qed.

Lemma at_least_best_single_item_witness :
  square (length scenario1_weights) scenario1_profits
  ∧ exact_range (length scenario1_weights) scenario1_profits
  ∧ Forall (λ w, 0 < w)%nat scenario1_weights
  ∧ scenario1_weights !! 2%nat = Some 5%nat ∧ (5 ≤ 7)%nat
  ∧ ∃ s v, Classical.classical_dp_qkp scenario1_weights scenario1_profits 7
           = Ok (s, Finite v)
           ∧ entry scenario1_profits 2 2 ≤ v.
Proof.
  assert (Forall (λ w, 0 < w)%nat scenario1_weights) as Hpos
    by (unfold scenario1_weights; repeat constructor; lia).
  assert (5 ≤ 7)%nat as Hle by lia.
  split; [exact scenario1_square|]. split; [exact scenario1_exact_range|].
  split; [exact Hpos|]. split; [reflexivity|]. split; [exact Hle|].
  exact (proj1 (at_least_best_single_item scenario1_weights scenario1_profits 7
                  scenario1_square scenario1_exact_range Hpos 2%nat 5%nat
                  eq_refl Hle)).
Defined.

(** ** Linear instances are solved exactly *)

Lemma sumZ_zero {A : Type} (f : A → Z) (l : list A) :
  (∀ x, x ∈ l → f x = 0) → sumZ f l = 0.
Proof.
  intros H. rewrite (sumZ_ext f (λ _, 0) l H). clear H.
  induction l as [|x l IH]; simpl; [done | by rewrite IH].
Qed.

Lemma sumZ_cons {A : Type} (f : A → Z) (x : A) (l : list A) :
  sumZ f (x :: l) = f x + sumZ f l.
Proof. reflexivity. Qed.

Lemma set_weight_cons (weights : list nat) (i : nat) (s : list nat) :
  set_weight weights (i :: s)
  = (default 0%nat (weights !! i) + set_weight weights s)%nat.
Proof. reflexivity. Qed.

Lemma selection_with (k : nat) (s : list nat) :
  NoDup s → Forall (λ i, i < S k)%nat s → k ∈ s →
  ∃ s', s ≡ₚ k :: s' ∧ NoDup s' ∧ Forall (λ i, i < k)%nat s'.
Proof.
  intros Hnd Hlt [s' Hperm]%elem_of_Permutation. exists s'.
  rewrite Hperm in Hnd, Hlt. apply NoDup_cons in Hnd as [Hk Hnd].
  apply Forall_cons in Hlt as [_ Hlt]. split; [done|]. split; [done|].
  rewrite Forall_forall in Hlt |- *. intros i Hi.
  assert (i ≠ k) by (by intros ->). specialize (Hlt i Hi). lia.
Qed.

Lemma selection_without (k : nat) (s : list nat) :
  Forall (λ i, i < S k)%nat s → k ∉ s → Forall (λ i, i < k)%nat s.
Proof.
  rewrite !Forall_forall. intros Hlt Hk i Hi.
  assert (i ≠ k) by (by intros ->). specialize (Hlt i Hi). lia.
Qed.

Section Linear.
Variables (weights : list nat) (profits : list (list Z)).
Hypothesis Hdiag : diagonal (length weights) profits.

Lemma diagonal_symmetric : symmetric (length weights) profits.
Proof.
  intros i j Hi Hj. destruct (decide (i = j)) as [->|Hne]; [done|].
  rewrite (Hdiag i j), (Hdiag j i); done.
Qed.

Lemma diagonal_interactions (k : nat) (s : list nat) :
  (k < length weights)%nat → Forall (λ i, i < k)%nat s →
  sumZ (entry profits k) s = 0.
Proof.
  intros Hk Hlt. apply sumZ_zero. intros j Hj.
  rewrite Forall_forall in Hlt. specialize (Hlt j Hj). apply Hdiag; lia.
Qed.

Lemma validator_profit_diagonal (l : list nat) :
  NoDup l → Forall (λ i, i < length weights)%nat l →
  validator_profit profits l = sumZ (λ i, entry profits i i) l.
Proof.
  intros Hnd Hlt. unfold validator_profit.
  rewrite (sumZ_zero (λ ij, entry profits ij.1 ij.2)); [lia|].
  intros [i j] Hin. rewrite Forall_forall in Hlt.
  destruct (combinations2_pairs l Hnd) as (_ & Hmem & _).
  destruct (Hmem i j Hin) as (Hi & Hj & Hne). apply Hdiag; auto.
Qed.

Lemma exact_dp_linear_opt (k r : nat) (s : list nat) :
  (k ≤ length weights)%nat → NoDup s → Forall (λ i, i < k)%nat s →
  (set_weight weights s ≤ r)%nat →
  sumZ (λ i, entry profits i i) s ≤ (Spec.exact_dp weights profits k r).1.
Proof.
  revert r s. induction k as [|k IH]; intros r s Hk Hnd Hlt Hw.
  - destruct s as [|i s]; [simpl; lia|].
    apply Forall_cons in Hlt as [Hi _]. lia.
  - destruct (decide (k ∈ s)) as [Hin|Hout].
    + destruct (selection_with k s Hnd Hlt Hin) as (s' & Hperm & Hnd' & Hlt').
      destruct (weights_at weights k ltac:(lia)) as (w & _ & Hwk).
      rewrite (set_weight_perm _ _ _ Hperm), set_weight_cons, Hwk in Hw.
      simpl in Hw. rewrite (sumZ_perm _ _ _ Hperm), sumZ_cons.
      pose proof (IH (r - w)%nat s' ltac:(lia) Hnd' Hlt' ltac:(lia)) as Hopt.
      pose proof (exact_dp_ge_candidate weights profits k r w Hwk ltac:(lia)) as Hc.
      unfold Spec.candidate in Hc.
      rewrite diagonal_interactions in Hc; [lia | lia |].
      apply exact_dp_sound.
    + pose proof (IH r s ltac:(lia) Hnd (selection_without k s Hlt Hout) Hw).
      pose proof (exact_dp_mono weights profits k r). lia.
Qed.

Lemma heur_dp_linear_opt (k : nat) (s : list nat) :
  (k ≤ length weights)%nat → NoDup s → Forall (λ i, i < k)%nat s →
  ext_ltb (Spec.heur_dp weights profits k (set_weight weights s)).1
    (Fin (sumZ (λ i, entry profits i i) s)) = false.
Proof.
  revert s. induction k as [|k IH]; intros s Hk Hnd Hlt.
  - destruct s as [|i s]; [done|].
    apply Forall_cons in Hlt as [Hi _]. lia.
  - destruct (decide (k ∈ s)) as [Hin|Hout].
    + destruct (selection_with k s Hnd Hlt Hin) as (s' & Hperm & Hnd' & Hlt').
      destruct (weights_at weights k ltac:(lia)) as (w & _ & Hwk).
      rewrite (set_weight_perm _ _ _ Hperm), (sumZ_perm _ _ _ Hperm).
      rewrite set_weight_cons, sumZ_cons, Hwk. cbn [default from_option].
      destruct (ext_ge_fin _ _ (IH s' ltac:(lia) Hnd' Hlt')) as (d & Hd & Hopt).
      pose proof (heur_dp_ge_candidate weights profits k
                    (w + set_weight weights s') w d Hwk ltac:(lia)) as Hc.
      replace (w + set_weight weights s' - w)%nat
        with (set_weight weights s') in Hc by lia.
      specialize (Hc Hd). unfold Spec.candidate in Hc.
      rewrite diagonal_interactions in Hc; [|lia|apply heur_dp_items].
      eapply ext_le_trans; [|exact Hc]. simpl. apply bool_decide_eq_false. lia.
    + eapply ext_le_trans; [|apply heur_dp_mono].
      apply IH; [lia | done | by apply selection_without].
Qed.
End Linear.



(** ** The engines are not exact in general *)

(** X7: none of the three engines is exact on quadratic instances: there is
    an instance with a symmetric matrix on which every engine returns profit
    9, whatever the iteration order of the sets, although the validator
    accepts a selection of profit 15 (three items of weight 1, capacity 2:
    the engines keep item 0 and never pair items 1 and 2). *)
Theorem engines_not_exact :
  ∃ weights profits capacity l p,
    square (length weights) profits ∧ symmetric (length weights) profits
    ∧ compute_profit_and_items weights profits capacity l = Ok (Some p, l)
    ∧ (∃ s v, Classical.classical_dp_qkp weights profits capacity
              = Ok (s, Finite v) ∧ v < p)
    ∧ (∀ order, valid_order order →
         ∃ s v, HeuristicA.dp_heuristic_algo2 order weights profits capacity
                = Ok (s, Finite v) ∧ v < p)
    ∧ (∀ order, valid_order order →
         ∃ s v, HeuristicB.dp_heuristic_algo3 order weights profits capacity
                = Ok (s, Finite v) ∧ v < p).
Proof.
  exists [1; 1; 1]%nat, [[5; 0; 0]; [0; 4; 10]; [0; 10; 1]], 2%nat, [1; 2]%nat, 15.
  assert (square (length [1; 1; 1]%nat) [[5; 0; 0]; [0; 4; 10]; [0; 10; 1]])
    as Hsq by (split; [reflexivity | repeat constructor]).
  assert (exact_range (length [1; 1; 1]%nat) [[5; 0; 0]; [0; 4; 10]; [0; 10; 1]])
    as Hexact by (vm_compute; discriminate).
  pose proof (square_covers _ _ Hsq) as Hcov.
  split; [exact Hsq|]. split.
  { intros i j Hi Hj. simpl in Hi, Hj.
    destruct i as [|[|[|i]]]; try lia; destruct j as [|[|[|j]]]; try lia;
      reflexivity. }
  split; [vm_compute; reflexivity|].
  split; [|split].
  - exists [0; 1]%nat, 9. split; [vm_compute; reflexivity | lia].
  - intros order Hord. exists [0; 1]%nat, 9. split; [|lia].
    rewrite (algo2_order_independent _ _ 2 Hcov Hexact order insertion_order Hord
               insertion_order_valid).
    vm_compute. reflexivity.
  - intros order Hord. exists [0; 1]%nat, 9. split; [|lia].
    rewrite (algo3_order_independent _ _ 2 Hcov Hexact order insertion_order Hord
               insertion_order_valid).
    vm_compute. reflexivity.
Qed.

(** ** The validator: iteration order and unknown items *)



(** X9: a candidate set that names an item beyond the list of weights makes
    the validator fail with [IndexError], raised while the total weight is
    summed, whatever the capacity and the profits. *)
Theorem validator_unknown_item (weights : list nat) (profits : list (list Z))
    (capacity : nat) (l : list nat) :
  Exists (λ i, length weights ≤ i)%nat l →
  compute_profit_and_items weights profits capacity l = Raise IndexError.
Proof.
  intros Hbad. unfold compute_profit_and_items.
  assert (∀ acc,
            for_each (λ acc i, w <- at_index weights i ;; Ok (acc + w)%nat) l acc
            = Raise IndexError) as ->; [|done].
  induction Hbad as [i l Hi|i l Hbad IH]; intros acc; simpl.
  - unfold at_index. by rewrite lookup_ge_None_2.
  - unfold at_index. destruct (weights !! i); simpl; [apply IH | done].
Qed.

Lemma validator_unknown_item_witness :
  Exists (λ i, length scenario1_weights ≤ i)%nat [0; 3]%nat
  ∧ compute_profit_and_items scenario1_weights scenario1_profits 7 [0; 3]%nat
    = Raise IndexError.
Proof.
  assert (Exists (λ i, length scenario1_weights ≤ i)%nat [0; 3]%nat) as Hbad
    by (apply Exists_cons_tl, Exists_cons_hd; simpl; lia).
  split; [exact Hbad|].
  exact (validator_unknown_item scenario1_weights scenario1_profits 7
           [0; 3]%nat Hbad).
Defined.

(** ** A missing self-profit surfaces as [IndexError] *)

Lemma for_each_raise {St X : Type} (body : St → X → result St) (xs ys : list X)
    (x : X) (s s' : St) (e : error) :
  for_each body xs s = Ok s' → body s' x = Raise e →
  for_each body (xs ++ x :: ys) s = Raise e.
Proof. intros Hxs Hx. rewrite for_each_app, Hxs. simpl. by rewrite Hx. Qed.

Lemma range_split (capacity w : nat) :
  (w ≤ capacity)%nat →
  range 0 (capacity + 1) = seq 0 w ++ w :: seq (S w) (capacity - w).
Proof.
  intros Hle. unfold range.
  replace (capacity + 1 - 0)%nat with (w + S (capacity - w))%nat by lia.
  by rewrite seq_app.
Qed.

Lemma range_down_split (capacity w : nat) :
  (w ≤ capacity)%nat →
  range_down capacity w = reverse (seq (S w) (capacity - w)) ++ [w].
Proof.
  intros Hle. unfold range_down.
  replace (S capacity - w)%nat with (S (capacity - w)) by lia.
  simpl. by rewrite reverse_cons.
Qed.

Lemma tget_shape {V : Type} (rows cols : nat) (t : list (list (V * list nat)))
    (k r : nat) :
  shape rows cols t → (k < rows)%nat → (r < cols)%nat → ∃ c, tget t k r = Ok c.
Proof.
  intros [Hlen Hrows] Hk Hr.
  destruct (lookup_lt_is_Some_2 t k ltac:(lia)) as [row Hrow].
  destruct (lookup_lt_is_Some_2 row r) as [c Hc].
  { rewrite (Hrows _ _ Hrow). lia. }
  exists c. apply tget_ok. eauto.
Qed.

Section MissingSelfProfit.
Variables (order : nat → nat → list nat → list nat) (w0 : nat) (rest : list nat)
  (profits : list (list Z)) (capacity : nat).
Hypothesis Hfits : (w0 ≤ capacity)%nat.
Hypothesis Hmissing : pget profits 0 0 = Raise IndexError.

Lemma classical_first_row_raises (t : list (list (Z * list nat))) :
  shape (length (w0 :: rest) + 1) (capacity + 1) t →
  Classical.fill_row (w0 :: rest) profits capacity t 1 = Raise IndexError.
Proof.
  intros Hshape. unfold Classical.fill_row. rewrite (range_split capacity w0 Hfits).
  destruct (for_each_inv (λ _ t', shape (length (w0 :: rest) + 1) (capacity + 1) t')
    (Classical.step (w0 :: rest) profits 1) (seq 0 w0) t Hshape)
    as (t1 & Hrun & Hshape1).
  { intros j r t' Hr Hs. apply list_elem_of_lookup_2, elem_of_seq in Hr.
    unfold Classical.step. simpl (1 - 1)%nat.
    destruct (tget_shape _ _ t' 0 r Hs) as (c & Hc); [simpl; lia | lia |]. run Hc.
    destruct (tset_spec _ _ t' 1 r c Hs) as (t2 & Hset & Hs2 & _);
      [simpl; lia | lia |].
    run Hset. simpl. destruct (decide (w0 ≤ r)%nat); [lia | eauto]. }
  apply (for_each_raise _ _ _ _ _ t1); [done|].
  unfold Classical.step. simpl (1 - 1)%nat.
  destruct (tget_shape _ _ t1 0 w0 Hshape1) as (c & Hc); [simpl; lia | lia |]. run Hc.
  destruct (tset_spec _ _ t1 1 w0 c Hshape1) as (t2 & Hset & Hs2 & _);
    [simpl; lia | lia |].
  run Hset. simpl. destruct (decide (w0 ≤ w0)%nat); [|lia].
  destruct (tget_shape _ _ t2 0 (w0 - w0) Hs2) as (c' & Hc'); [simpl; lia | lia |].
  run Hc'. by rewrite Hmissing.
Qed.

Lemma algo2_first_row_raises (t : list (list (float64 * list nat))) :
  shape (length (w0 :: rest) + 1) (capacity + 1) t →
  tget t 0 0 = Ok (Finite 0, []) →
  HeuristicA.fill_row order (w0 :: rest) profits capacity t 1 = Raise IndexError.
Proof.
  intros Hshape H00. unfold HeuristicA.fill_row.
  rewrite (range_split capacity w0 Hfits).
  destruct (for_each_inv
    (λ _ t', shape (length (w0 :: rest) + 1) (capacity + 1) t'
             ∧ tget t' 0 0 = Ok (Finite 0, []))
    (HeuristicA.step order (w0 :: rest) profits 1) (seq 0 w0) t (conj Hshape H00))
    as (t1 & Hrun & Hshape1 & H100).
  { intros j r t' Hr [Hs H0]. apply list_elem_of_lookup_2, elem_of_seq in Hr.
    unfold HeuristicA.step. simpl (1 - 1)%nat.
    destruct (tget_shape _ _ t' 0 r Hs) as (c & Hc); [simpl; lia | lia |]. run Hc.
    destruct (tset_spec _ _ t' 1 r c Hs) as (t2 & Hset & Hs2 & _ & Hold);
      [simpl; lia | lia |].
    run Hset. simpl. destruct (decide (w0 ≤ r)%nat); [lia|].
    exists t2. split; [done|]. split; [done|]. rewrite Hold; [done | by left]. }
  apply (for_each_raise _ _ _ _ _ t1); [done|].
  unfold HeuristicA.step. simpl (1 - 1)%nat.
  destruct (tget_shape _ _ t1 0 w0 Hshape1) as (c & Hc); [simpl; lia | lia |]. run Hc.
  destruct (tset_spec _ _ t1 1 w0 c Hshape1) as (t2 & Hset & Hs2 & _ & Hold);
    [simpl; lia | lia |].
  run Hset. simpl. destruct (decide (w0 ≤ w0)%nat); [|lia].
  replace (w0 - w0)%nat with 0%nat by lia.
  rewrite Hold by (by left). run H100. simpl. unfold include_candidate. by rewrite Hmissing.
Qed.

Lemma algo3_first_pass_raises :
  HeuristicB.pass order (w0 :: rest) profits capacity
    (<[0%nat := (Finite 0, [])]> (replicate (capacity + 1) (NInf, []))) 0
  = Raise IndexError.
Proof.
  set (st0 := <[0%nat := (Finite 0, [])]> (replicate (capacity + 1) (NInf, @nil nat))).
  assert (st0 !! 0%nat = Some (Finite 0, [])) as H0.
  { apply list_lookup_insert_eq. rewrite length_replicate. lia. }
  assert (∀ r, (0 < r ≤ capacity)%nat → st0 !! r = Some (NInf, [])) as Hrest.
  { intros r Hr. unfold st0. rewrite list_lookup_insert_ne by lia.
    apply lookup_replicate_2. lia. }
  assert (at_index (w0 :: rest) 0 = Ok w0) as Hw by reflexivity.
  unfold HeuristicB.pass. run Hw.
  rewrite (range_down_split capacity w0 Hfits).
  destruct (for_each_inv (λ _ st, st = st0)
    (HeuristicB.step order (w0 :: rest) profits 0)
    (reverse (seq (S w0) (capacity - w0))) st0 eq_refl) as (st1 & Hrun & ->).
  { intros j r st Hr ->.
    apply list_elem_of_lookup_2, elem_of_reverse, elem_of_seq in Hr.
    unfold HeuristicB.step. run Hw.
    run (proj2 (at_index_ok _ _ _) (Hrest (r - w0)%nat ltac:(lia))). eauto. }
  apply (for_each_raise _ _ _ _ _ st0); [done|].
  unfold HeuristicB.step. run Hw.
  replace (w0 - w0)%nat with 0%nat by lia.
  run (proj2 (at_index_ok _ _ _) H0). simpl.
  unfold include_candidate. by rewrite Hmissing.
Qed.
End MissingSelfProfit.

(** X10: when the first item fits the capacity and [profits[0][0]] cannot be
    read (the matrix is empty, or its first row is), each engine fails with
    [IndexError], raised from inside its DP loop, before any arithmetic on
    the profits. *)
Theorem engines_raise_on_missing_self_profit (w0 : nat) (rest : list nat)
    (profits : list (list Z)) (capacity : nat) :
  (w0 ≤ capacity)%nat → pget profits 0 0 = Raise IndexError →
  Classical.classical_dp_qkp (w0 :: rest) profits capacity = Raise IndexError
  ∧ (∀ order,
       HeuristicA.dp_heuristic_algo2 order (w0 :: rest) profits capacity
       = Raise IndexError)
  ∧ (∀ order,
       HeuristicB.dp_heuristic_algo3 order (w0 :: rest) profits capacity
       = Raise IndexError).
Proof.
  intros Hfits Hmissing. split; [|split].
  - unfold Classical.classical_dp_qkp, Classical.fill, Classical.fill_upto, range.
    replace (length (w0 :: rest) + 1 - 1)%nat with (S (length rest))
      by (simpl; lia).
    cbn [seq for_each].
    by rewrite (classical_first_row_raises w0 rest profits capacity Hfits Hmissing)
      by apply shape_full.
  - intros order.
    unfold HeuristicA.dp_heuristic_algo2, HeuristicA.fill, HeuristicA.fill_upto,
      HeuristicA.init, range.
    destruct (tset_spec (length (w0 :: rest) + 1) (capacity + 1)
      (full (length (w0 :: rest) + 1) (capacity + 1) NInf) 0 0 (Finite 0, []))
      as (t & Hset & Hshape & Hnew & _); [apply shape_full | lia | lia |].
    run Hset.
    replace (length (w0 :: rest) + 1 - 1)%nat with (S (length rest))
      by (simpl; lia).
    cbn [seq for_each].
    by rewrite (algo2_first_row_raises order w0 rest profits capacity Hfits
                  Hmissing).
  - intros order.
    unfold HeuristicB.dp_heuristic_algo3, HeuristicB.after, HeuristicB.init,
      HeuristicB.rset, range.
    destruct (at_index_lt (replicate (capacity + 1) (NInf, @nil nat)) 0)
      as (c & Hc & _); [rewrite length_replicate; lia|]. run Hc.
    replace (length (w0 :: rest) - 0)%nat with (S (length rest)) by (simpl; lia).
    cbn [seq for_each].
    by rewrite (algo3_first_pass_raises order w0 rest profits capacity Hfits
                  Hmissing).
Qed.

Lemma engines_raise_on_missing_self_profit_witness :
  (1 ≤ 1)%nat ∧ pget [] 0 0 = Raise IndexError
  ∧ Classical.classical_dp_qkp [1; 1]%nat [] 1 = Raise IndexError
  ∧ (∀ order,
       HeuristicA.dp_heuristic_algo2 order [1; 1]%nat [] 1 = Raise IndexError)
  ∧ (∀ order,
       HeuristicB.dp_heuristic_algo3 order [1; 1]%nat [] 1 = Raise IndexError).
Proof.
  assert (1 ≤ 1)%nat as Hfits by lia.
  split; [exact Hfits|]. split; [reflexivity|].
  exact (engines_raise_on_missing_self_profit 1%nat [1%nat] [] 1 Hfits eq_refl).
Defined.

(** ** Only the leading block of the matrix is read *)

(** two loops whose bodies agree on the states of an invariant run alike *)
Lemma for_each_rel {St X : Type} (I : St → Prop) (body body' : St → X → result St)
    (xs : list X) (s : St) :
  I s →
  (∀ s x, x ∈ xs → I s →
          body s x = body' s x ∧ ∀ s', body s x = Ok s' → I s') →
  for_each body xs s = for_each body' xs s
  ∧ ∀ s', for_each body xs s = Ok s' → I s'.
Proof.
  revert s. induction xs as [|x xs IH]; intros s Hs Hstep; simpl.
  - split; [done|]. by intros s' [= <-].
  - destruct (Hstep s x ltac:(left) Hs) as [<- Hnext].
    destruct (body s x) as [s1|e]; simpl; [|done].
    apply IH; [by apply Hnext|].
    intros s2 y Hy. apply Hstep. by right.
Qed.

Lemma set_add_below (n k : nat) (s : list nat) :
  (k < n)%nat → Forall (λ j, j < n)%nat s → Forall (λ j, j < n)%nat (set_add k s).
Proof.
  intros Hk Hs. unfold set_add. destruct (decide _); [done|].
  apply Forall_app. split; [done | by repeat constructor].
Qed.

Lemma tset_below {V : Type} (n : nat) (t t' : list (list (V * list nat)))
    (k r : nat) (c : V * list nat) :
  table_below n t → Forall (λ j, j < n)%nat c.2 → tset t k r c = Ok t' →
  table_below n t'.
Proof.
  intros Ht Hc Hset. unfold tset in Hset.
  apply bind_ok in Hset as (row & Hrow%at_index_ok & Hset).
  apply bind_ok in Hset as (c0 & Hc0%at_index_ok & [= <-]).
  intros k' r' c' (row' & Hrow' & Hc')%tget_ok.
  apply list_lookup_insert_Some in Hrow' as [(<- & <- & _)|[Hne Hrow']].
  - apply list_lookup_insert_Some in Hc' as [(<- & <- & _)|[Hne Hc']]; [done|].
    apply (Ht k r' c'), tget_ok. eauto.
  - apply (Ht k' r' c'), tget_ok. eauto.
Qed.

Lemma full_below {V : Type} (n rows cols : nat) (v : V) :
  table_below n (full rows cols v).
Proof.
  intros k r c (row & Hrow & Hc)%tget_ok. unfold full in Hrow.
  apply lookup_replicate in Hrow as [-> _].
  apply lookup_replicate in Hc as [-> _]. constructor.
Qed.

Section LeadingBlock.
Variables (weights : list nat) (profits profits' : list (list Z)).
Hypothesis Hcov : covers (length weights) profits.
Hypothesis Hcov' : covers (length weights) profits'.
Hypothesis Hsame : ∀ i j, (i < length weights)%nat → (j < length weights)%nat →
  entry profits i j = entry profits' i j.

Lemma pget_block (i j : nat) :
  (i < length weights)%nat → (j < length weights)%nat →
  pget profits i j = pget profits' i j.
Proof. intros Hi Hj. by rewrite Hcov, Hcov', Hsame. Qed.

Lemma candidate_block (k : nat) (d : Z) (s : list nat) :
  (k < length weights)%nat → Forall (λ i, i < k)%nat s →
  Spec.candidate profits k d s = Spec.candidate profits' k d s.
Proof.
  intros Hk Hlt. unfold Spec.candidate. rewrite (Hsame k k) by done.
  rewrite (sumZ_ext (entry profits k) (entry profits' k)); [done|].
  intros j Hj. rewrite Forall_forall in Hlt. specialize (Hlt j Hj).
  apply Hsame; lia.
Qed.

Lemma exact_dp_block (k r : nat) :
  (k ≤ length weights)%nat →
  Spec.exact_dp weights profits k r = Spec.exact_dp weights profits' k r.
Proof.
  revert r. induction k as [|k IH]; intros r Hk; [done|].
  cbn [Spec.exact_dp]. rewrite (IH r) by lia.
  destruct (weights !! k) as [w|]; [|done].
  destruct (decide (w ≤ r)%nat); [|done].
  rewrite (IH (r - w)%nat) by lia.
  rewrite candidate_block; [done | lia | apply exact_dp_sound].
Qed.

Lemma classical_block (capacity : nat) :
  Classical.classical_dp_qkp weights profits capacity
  = Classical.classical_dp_qkp weights profits' capacity.
Proof.
  destruct (classical_result weights profits capacity Hcov)
    as (r & t & Hr & _ & _ & -> & Hmax & Hfirst).
  destruct (classical_result weights profits' capacity Hcov')
    as (r' & t' & Hr' & _ & _ & -> & Hmax' & Hfirst').
  rewrite (exact_dp_block (length weights) r) by done.
  assert (r = r') as ->; [|done].
  destruct (Nat.lt_trichotomy r r') as [Hlt|[Heq|Hgt]]; [|done|]; exfalso.
  - apply (Hfirst' r Hlt). specialize (Hmax r' Hr'). specialize (Hmax' r Hr).
    rewrite !exact_dp_block in Hmax by done. lia.
  - apply (Hfirst r' Hgt). specialize (Hmax r' Hr'). specialize (Hmax' r Hr).
    rewrite !exact_dp_block in Hmax |- * by done. lia.
Qed.

Variable order : nat → nat → list nat → list nat.
Hypothesis Hord : valid_order order.

(** the include candidate reads row [i] at [i] and at the items of the
    witness only *)
Lemma include_candidate_block (i r : nat) (prev : float64 * list nat) :
  (i < length weights)%nat → Forall (λ j, j < length weights)%nat prev.2 →
  include_candidate (order i r) profits i prev
  = include_candidate (order i r) profits' i prev.
Proof.
  intros Hi Hprev. unfold include_candidate.
  rewrite (pget_block i i) by done.
  destruct (pget profits' i i) as [self|]; [|done]. cbn [bind].
  destruct (to_float self) as [f|]; [|done]. cbn [bind].
  apply (for_each_rel (λ _, True)); [done|].
  intros acc j Hj _. split; [|done].
  rewrite pget_block; [done | done |].
  rewrite (Hord i r) in Hj. rewrite Forall_forall in Hprev. by apply Hprev.
Qed.

Lemma algo2_step_block (k r : nat) (t : list (list (float64 * list nat))) :
  (1 ≤ k ≤ length weights)%nat → table_below (length weights) t →
  HeuristicA.step order weights profits k t r
  = HeuristicA.step order weights profits' k t r
  ∧ ∀ t', HeuristicA.step order weights profits k t r = Ok t' →
          table_below (length weights) t'.
Proof.
  intros Hk Ht. unfold HeuristicA.step.
  destruct (tget t (k - 1) r) as [excl|] eqn:Hexcl; [|done]. cbn [bind].
  destruct (tset t k r excl) as [t1|] eqn:Hset; [|done]. cbn [bind].
  pose proof (tset_below _ _ _ _ _ _ Ht (Ht _ _ _ Hexcl) Hset) as Ht1.
  destruct (at_index weights (k - 1)) as [w|]; [|done]. cbn [bind].
  destruct (decide _); [|split; [done | by intros t' [= <-]]].
  destruct (tget t1 (k - 1) (r - w)) as [prev|] eqn:Hprev; [|done]. cbn [bind].
  pose proof (Ht1 _ _ _ Hprev) as Hbelow.
  assert (
    (current_profit <-
       include_candidate (order (k - 1)%nat (r - w)%nat) profits (k - 1) prev ;;
     cur <- tget t1 k r ;;
     if updates current_profit (length prev.2) cur
     then tset t1 k r (current_profit, set_add (k - 1) prev.2) else Ok t1)
    = (current_profit <-
         include_candidate (order (k - 1)%nat (r - w)%nat) profits' (k - 1) prev ;;
       cur <- tget t1 k r ;;
       if updates current_profit (length prev.2) cur
       then tset t1 k r (current_profit, set_add (k - 1) prev.2) else Ok t1)
    ∧ ∀ t',
        (current_profit <-
           include_candidate (order (k - 1)%nat (r - w)%nat) profits (k - 1) prev ;;
         cur <- tget t1 k r ;;
         if updates current_profit (length prev.2) cur
         then tset t1 k r (current_profit, set_add (k - 1) prev.2) else Ok t1)
        = Ok t' → table_below (length weights) t') as Hinclude.
  { rewrite include_candidate_block by (lia || done). split; [done|].
    destruct (include_candidate _ profits' _ _) as [c|]; [|done]. cbn [bind].
    destruct (tget t1 k r) as [cur|]; [|done]. cbn [bind].
    destruct (updates _ _ _); [|by intros t' [= <-]].
    intros t' Ht'. apply (tset_below _ _ _ _ _ _ Ht1) in Ht'; [done|].
    apply set_add_below; [lia | done]. }
  destruct prev.1; [split; [done | by intros t' [= <-]] | done | done].
Qed.

Lemma algo2_block (capacity : nat) :
  HeuristicA.dp_heuristic_algo2 order weights profits capacity
  = HeuristicA.dp_heuristic_algo2 order weights profits' capacity.
Proof.
  unfold HeuristicA.dp_heuristic_algo2, HeuristicA.fill, HeuristicA.fill_upto.
  destruct (HeuristicA.init _ _) as [t0|] eqn:Hinit; [|done]. cbn [bind].
  assert (table_below (length weights) t0) as Ht0.
  { unfold HeuristicA.init in Hinit.
    eapply tset_below; [apply full_below | | exact Hinit]. constructor. }
  destruct (for_each_rel (table_below (length weights))
    (HeuristicA.fill_row order weights profits capacity)
    (HeuristicA.fill_row order weights profits' capacity)
    (range 1 (length weights + 1)) t0 Ht0) as [-> _]; [|done].
  intros t k Hk Ht. apply elem_of_seq in Hk.
  apply (for_each_rel (table_below (length weights))); [done|].
  intros t1 r _ Ht1. apply algo2_step_block; [lia | done].
Qed.

Lemma algo3_step_block (k r : nat) (st : list (float64 * list nat)) :
  (k < length weights)%nat → array_below (length weights) st →
  HeuristicB.step order weights profits k st r
  = HeuristicB.step order weights profits' k st r
  ∧ ∀ st', HeuristicB.step order weights profits k st r = Ok st' →
           array_below (length weights) st'.
Proof.
  intros Hk Hst. unfold HeuristicB.step.
  destruct (at_index weights k) as [w|]; [|done]. cbn [bind].
  destruct (at_index st (r - w)) as [prev|] eqn:Hprev; [|done]. cbn [bind].
  apply at_index_ok in Hprev. pose proof (Hst _ _ Hprev) as Hbelow.
  assert (
    (current_profit <- include_candidate (order k (r - w)%nat) profits k prev ;;
     cur <- at_index st r ;;
     if updates current_profit (length prev.2) cur
     then HeuristicB.rset st r (current_profit, set_add k prev.2) else Ok st)
    = (current_profit <- include_candidate (order k (r - w)%nat) profits' k prev ;;
       cur <- at_index st r ;;
       if updates current_profit (length prev.2) cur
       then HeuristicB.rset st r (current_profit, set_add k prev.2) else Ok st)
    ∧ ∀ st',
        (current_profit <- include_candidate (order k (r - w)%nat) profits k prev ;;
         cur <- at_index st r ;;
         if updates current_profit (length prev.2) cur
         then HeuristicB.rset st r (current_profit, set_add k prev.2) else Ok st)
        = Ok st' → array_below (length weights) st') as Hinclude.
  { rewrite include_candidate_block by done. split; [done|].
    destruct (include_candidate _ profits' _ _) as [c|]; [|done]. cbn [bind].
    destruct (at_index st r) as [cur|] eqn:Hcur; [|done]. cbn [bind].
    destruct (updates _ _ _); [|by intros st' [= <-]].
    unfold HeuristicB.rset. rewrite Hcur. cbn [bind]. intros st' [= <-].
    intros r' c' Hc'.
    apply list_lookup_insert_Some in Hc' as [(<- & <- & _)|[Hne Hc']].
    - by apply set_add_below.
    - by apply (Hst r'). }
  destruct prev.1; [split; [done | by intros st' [= <-]] | done | done].
Qed.

Lemma algo3_block (capacity : nat) :
  HeuristicB.dp_heuristic_algo3 order weights profits capacity
  = HeuristicB.dp_heuristic_algo3 order weights profits' capacity.
Proof.
  unfold HeuristicB.dp_heuristic_algo3, HeuristicB.after.
  destruct (HeuristicB.init capacity) as [st0|] eqn:Hinit; [|done]. cbn [bind].
  assert (array_below (length weights) st0) as Hst0.
  { unfold HeuristicB.init, HeuristicB.rset in Hinit.
    apply bind_ok in Hinit as (c0 & _ & [= <-]). intros r c Hc.
    apply list_lookup_insert_Some in Hc as [(_ & <- & _)|[_ Hc]]; [constructor|].
    apply lookup_replicate in Hc as [-> _]. constructor. }
  destruct (for_each_rel (array_below (length weights))
    (HeuristicB.pass order weights profits capacity)
    (HeuristicB.pass order weights profits' capacity)
    (range 0 (length weights)) st0 Hst0) as [-> _]; [|done].
  intros st k Hk Hst. apply elem_of_seq in Hk. unfold HeuristicB.pass.
  destruct (at_index weights k) as [w|]; [|done]. cbn [bind].
  apply (for_each_rel (array_below (length weights))); [done|].
  intros st1 r _ Hst1. apply algo3_step_block; [lia | done].
Qed.
End LeadingBlock.

(** X11: an engine reads only the entries [profits[i][j]] with [i, j] below
    the number of weights: two matrices that agree on that leading block (and
    in which it can be read) give the same outcome with every engine, result
    or exception, whatever further rows or columns they have. *)
Theorem engines_read_leading_block (weights : list nat)
    (profits profits' : list (list Z)) (capacity : nat) :
  covers (length weights) profits → covers (length weights) profits' →
  (∀ i j, (i < length weights)%nat → (j < length weights)%nat →
          entry profits i j = entry profits' i j) →
  Classical.classical_dp_qkp weights profits capacity
  = Classical.classical_dp_qkp weights profits' capacity
  ∧ (∀ order, valid_order order →
       HeuristicA.dp_heuristic_algo2 order weights profits capacity
       = HeuristicA.dp_heuristic_algo2 order weights profits' capacity)
  ∧ (∀ order, valid_order order →
       HeuristicB.dp_heuristic_algo3 order weights profits capacity
       = HeuristicB.dp_heuristic_algo3 order weights profits' capacity).
Proof.
  intros Hcov Hcov' Hsame. split; [|split].
  - by apply classical_block.
  - intros order Hord. by apply algo2_block.
  - intros order Hord. by apply algo3_block.
Qed.

Lemma engines_read_leading_block_witness :
  covers (length [1%nat]) [[1; 0]; [0; 1]] ∧ covers (length [1%nat]) [[1]]
  ∧ (∀ i j, (i < length [1%nat])%nat → (j < length [1%nat])%nat →
            entry [[1; 0]; [0; 1]] i j = entry [[1]] i j)
  ∧ Classical.classical_dp_qkp [1]%nat [[1; 0]; [0; 1]] 1
    = Classical.classical_dp_qkp [1]%nat [[1]] 1.
Proof.
  assert (covers (length [1%nat]) [[1; 0]; [0; 1]]) as Hcov.
  { intros i j Hi Hj. simpl in Hi, Hj.
    destruct i; [|lia]. destruct j; [|lia]. reflexivity. }
  assert (covers (length [1%nat]) [[1]]) as Hcov'.
  { intros i j Hi Hj. simpl in Hi, Hj.
    destruct i; [|lia]. destruct j; [|lia]. reflexivity. }
  assert (∀ i j, (i < length [1%nat])%nat → (j < length [1%nat])%nat →
            entry [[1; 0]; [0; 1]] i j = entry [[1]] i j) as Hsame.
  { intros i j Hi Hj. simpl in Hi, Hj.
    destruct i; [|lia]. destruct j; [|lia]. reflexivity. }
  split; [exact Hcov|]. split; [exact Hcov'|]. split; [exact Hsame|].
  exact (proj1 (engines_read_leading_block [1%nat] [[1; 0]; [0; 1]] [[1]] 1
                  Hcov Hcov' Hsame)).
Defined.

(** ** More capacity never lowers the result *)

(** X12: the states of an engine do not depend on the capacity bound, only
    their number does, so on the same items, when the entries sum, in
    absolute value, to at most 2^53, a larger capacity never gives a smaller
    returned profit, with any of the three engines and whatever the
    iteration orders of the two runs. *)
Theorem capacity_monotone (weights : list nat) (profits : list (list Z))
    (capacity capacity' : nat) :
  square (length weights) profits → exact_range (length weights) profits →
  (capacity ≤ capacity')%nat →
  (∃ s v s' v',
     Classical.classical_dp_qkp weights profits capacity = Ok (s, Finite v)
     ∧ Classical.classical_dp_qkp weights profits capacity' = Ok (s', Finite v')
     ∧ v ≤ v')
  ∧ (∀ order order', valid_order order → valid_order order' →
       ∃ s v s' v',
         HeuristicA.dp_heuristic_algo2 order weights profits capacity
         = Ok (s, Finite v)
         ∧ HeuristicA.dp_heuristic_algo2 order' weights profits capacity'
           = Ok (s', Finite v')
         ∧ v ≤ v')
  ∧ (∀ order order', valid_order order → valid_order order' →
       ∃ s v s' v',
         HeuristicB.dp_heuristic_algo3 order weights profits capacity
         = Ok (s, Finite v)
         ∧ HeuristicB.dp_heuristic_algo3 order' weights profits capacity'
           = Ok (s', Finite v')
         ∧ v ≤ v').
Proof.
  intros Hsq Hexact Hle. pose proof (square_covers _ _ Hsq) as Hcov.
  assert (∀ r r' v v',
            best weights profits capacity r → best weights profits capacity' r' →
            (Spec.heur_dp weights profits (length weights) r).1 = Fin v →
            (Spec.heur_dp weights profits (length weights) r').1 = Fin v' →
            v ≤ v') as Hheur.
  { intros r r' v v' (Hr & _) (_ & Hge & _) Hv Hv'.
    specialize (Hge r ltac:(lia)). rewrite Hv, Hv' in Hge.
    simpl in Hge. apply bool_decide_eq_false in Hge. lia. }
  split; [|split].
  - destruct (classical_exact weights profits capacity Hcov Hexact)
      as (r & Hr & Hres & _).
    destruct (classical_exact weights profits capacity' Hcov Hexact)
      as (r' & _ & Hres' & Hmax').
    eexists _, _, _, _. split; [exact Hres|]. split; [exact Hres'|].
    apply Hmax'. lia.
  - intros order order' Hord Hord'.
    destruct (algo2_exact weights profits capacity Hcov Hexact order Hord)
      as (r & v & Hbest & Hv & _ & Hres).
    destruct (algo2_exact weights profits capacity' Hcov Hexact order' Hord')
      as (r' & v' & Hbest' & Hv' & _ & Hres').
    eexists _, v, _, v'. split; [exact Hres|]. split; [exact Hres'|]. eauto.
  - intros order order' Hord Hord'.
    destruct (algo3_exact weights profits capacity Hcov Hexact order Hord)
      as (r & v & Hbest & Hv & _ & Hres).
    destruct (algo3_exact weights profits capacity' Hcov Hexact order' Hord')
      as (r' & v' & Hbest' & Hv' & _ & Hres').
    eexists _, v, _, v'. split; [exact Hres|]. split; [exact Hres'|]. eauto.
Qed.

Lemma capacity_monotone_witness :
  square (length scenario1_weights) scenario1_profits
  ∧ exact_range (length scenario1_weights) scenario1_profits ∧ (7 ≤ 9)%nat
  ∧ ∃ s v s' v',
      Classical.classical_dp_qkp scenario1_weights scenario1_profits 7
      = Ok (s, Finite v)
      ∧ Classical.classical_dp_qkp scenario1_weights scenario1_profits 9
        = Ok (s', Finite v')
      ∧ v ≤ v'.
Proof.
  assert (7 ≤ 9)%nat as Hle by lia.
  split; [exact scenario1_square|]. split; [exact scenario1_exact_range|].
  split; [exact Hle|].
  exact (proj1 (capacity_monotone scenario1_weights scenario1_profits 7 9
                  scenario1_square scenario1_exact_range Hle)).
Defined.
